(** * 3DVAE-AgeDisentangled: mesh preprocessing and the disentangled
      spiral autoencoder.

    A shallow embedding of [utils.py] (region segmentation, vertex
    pruning) and of [model.py] (pooling, gradient reversal,
    reparameterisation, and the encode / decode / forward pipeline at the
    level of tensor shapes), followed by the properties proved of them.

    Conventions.
    - A Python call either returns or raises: [result A] with the
      exception classes the code can raise.
    - Tensor entries are real numbers ([R]); a tensor is a nested list,
      outermost axis first.
    - numpy / torch integer indices are [Z] where the code accepts
      negative ones (they wrap around), [nat] where they are produced by
      the code itself ([enumerate], [argwhere]). *)

From Stdlib Require Import ZArith QArith Reals Lra Lia List Bool Sorted.
From Stdlib Require Strings.String Strings.Ascii.
From stdpp Require Import base option list.
Import ListNotations.
Open Scope nat_scope.

(** ** Python results *)

Module Py.

Inductive exn : Set :=
| IndexError
| KeyError
| ValueError
| RuntimeError
| TypeError
| UnboundLocalError
| NotImplementedError.

Inductive result (A : Type) : Type :=
| Ok (a : A)
| Raise (e : exn).
Arguments Ok {A} a.
Arguments Raise {A} e.

#[export] Instance result_ret : MRet result := fun A a => Ok a.
#[export] Instance result_bind : MBind result := fun A B f m =>
  match m with
  | Ok a => f a
  | Raise e => Raise e
  end.
#[export] Instance result_fmap : FMap result := fun A B f m =>
  match m with
  | Ok a => Ok (f a)
  | Raise e => Raise e
  end.

Definition is_ok {A} (m : result A) : bool :=
  match m with Ok _ => true | Raise _ => false end.

(** [o] if present, else raise [e]. *)
Definition or_raise {A} (e : exn) (o : option A) : result A :=
  match o with Some a => Ok a | None => Raise e end.

(** [for x in xs: s = body(x, s)] with exceptions. *)
Fixpoint for_each {A S} (body : A -> S -> result S) (xs : list A) (s : S)
  : result S :=
  match xs with
  | [] => Ok s
  | x :: rest => s' ← body x s; for_each body rest s'
  end.

(** Position of index [i] in an axis of length [n]: numpy and torch accept
    [-n <= i < n], negative indices counting from the end. *)
Definition np_index (n : nat) (i : Z) : result nat :=
  if ((0 <=? i) && (i <? Z.of_nat n))%Z then Ok (Z.to_nat i)
  else if ((- Z.of_nat n <=? i) && (i <? 0))%Z then Ok (Z.to_nat (Z.of_nat n + i))
  else Raise IndexError.

(** [a[i]] for a numpy array / Python list and a non-negative [i]. *)
Definition getitem {A} (a : list A) (i : nat) : result A :=
  or_raise IndexError (a !! i).

(** [a[i]] for any integer [i]. *)
Definition getitem_int {A} (a : list A) (i : Z) : result A :=
  p ← np_index (length a) i; getitem a p.

End Py.
Import Py.

(** ** utils.py *)

Module Utils.

(** *** Region segmentation *)

(** A row of the colour array (RGBA for a trimesh). [str(v_col)] of a
    numpy integer row determines the row, so the row itself is the
    dictionary key; [np.array_equal] is equality of rows. *)
Definition colour : Type := list Z.

Definition colour_eqb (a b : colour) : bool := bool_decide (a = b).

(** [{'feature': [...], 'contour': [...]}] *)
Record bucket : Type := Bucket { feature : list nat; contour : list nat }.

(** A Python [dict]: keys in insertion order. *)
Definition dict (K V : Type) : Type := list (K * V).

Section Dict.
Context {K V : Type} (eqb : K -> K -> bool).

Fixpoint dict_get (d : dict K V) (k : K) : option V :=
  match d with
  | [] => None
  | (k', v) :: rest => if eqb k' k then Some v else dict_get rest k
  end.

(** [d[k] = v]: an existing key keeps its position. *)
Fixpoint dict_set (d : dict K V) (k : K) (v : V) : dict K V :=
  match d with
  | [] => [(k, v)]
  | (k', v') :: rest =>
      if eqb k' k then (k', v) :: rest else (k', v') :: dict_set rest k v
  end.

(** [d.pop(k, None)] *)
Fixpoint dict_pop (d : dict K V) (k : K) : dict K V :=
  match d with
  | [] => []
  | (k', v') :: rest =>
      if eqb k' k then rest else (k', v') :: dict_pop rest k
  end.

Definition dict_keys (d : dict K V) : list K := d.*1.
End Dict.

(** [nx.Graph] adjacency: node -> neighbours, both in insertion order. *)
Definition graph : Type := dict nat (list nat).

Definition add_node (g : graph) (u : nat) : graph :=
  match dict_get Nat.eqb g u with
  | Some _ => g
  | None => g ++ [(u, [])]
  end.

Definition add_neighbour (g : graph) (u v : nat) : graph :=
  match dict_get Nat.eqb g u with
  | Some nbrs =>
      if existsb (Nat.eqb v) nbrs then g
      else dict_set Nat.eqb g u (nbrs ++ [v])
  | None => g
  end.

(** [Graph.add_edge(u, v)] *)
Definition add_edge (g : graph) (e : nat * nat) : graph :=
  let '(u, v) := e in
  let g := add_node g u in
  let g := add_node g v in
  let g := add_neighbour g u v in
  add_neighbour g v u.

(** [nx.from_edgelist(edges)] *)
Definition from_edgelist (edges : list (nat * nat)) : graph :=
  fold_left add_edge edges [].

(** [list(graph[i].keys())]; [graph[i]] raises [KeyError] for a vertex on
    no edge. *)
Definition one_ring (g : graph) (i : nat) : result (list nat) :=
  or_raise KeyError (dict_get Nat.eqb g i).

Definition is_contour (colors : list colour) (center_index : nat)
    (ring_indices : list nat) : result bool :=
  center_color ← getitem colors center_index;
  ring_colors ← mapM (getitem colors) ring_indices;
  Ok (existsb (fun r => negb (colour_eqb center_color r)) ring_colors).

(** [collections.Counter(xs)]: counts, keys in order of first occurrence. *)
Definition counter_add (c : dict colour nat) (k : colour) : dict colour nat :=
  match dict_get colour_eqb c k with
  | Some n => dict_set colour_eqb c k (S n)
  | None => c ++ [(k, 1)]
  end.

Definition Counter (xs : list colour) : dict colour nat :=
  fold_left counter_add xs [].

(** [max(items, key=itemgetter(1))]: the first item of greatest count. *)
Fixpoint max_by_count (best : colour * nat) (items : dict colour nat)
  : colour * nat :=
  match items with
  | [] => best
  | it :: rest =>
      if best.2 <? it.2 then max_by_count it rest else max_by_count best rest
  end.

(** [counts.most_common(1)[0][0]] *)
Definition most_common_key (counts : dict colour nat) : result colour :=
  match counts with
  | [] => Raise IndexError
  | it :: rest => Ok (max_by_count it rest).1
  end.

(** First pass, one vertex: create the bucket of its colour if missing,
    then append the vertex to its contour or feature list. *)
Definition classify (colors : list colour) (index : nat) (v_col : colour)
    (i_ring : list nat) (features : dict colour bucket)
  : result (dict colour bucket) :=
  let features :=
    match dict_get colour_eqb features v_col with
    | Some _ => features
    | None => features ++ [(v_col, Bucket [] [])]
    end in
  c ← is_contour colors index i_ring;
  b ← or_raise KeyError (dict_get colour_eqb features v_col);
  Ok (dict_set colour_eqb features v_col
        (if (c : bool) then Bucket (feature b) (contour b ++ [index])
         else Bucket (feature b ++ [index]) (contour b))).

Fixpoint classify_all (colors : list colour) (index : nat)
    (todo : list (colour * list nat)) (features : dict colour bucket)
  : result (dict colour bucket) :=
  match todo with
  | [] => Ok features
  | (v_col, i_ring) :: rest =>
      features ← classify colors index v_col i_ring features;
      classify_all colors (S index) rest features
  end.

(** [features[k]['feature'].append(idx); features[k]['contour'].append(idx)] *)
Definition append_both (features : dict colour bucket) (k : colour)
    (idx : nat) : result (dict colour bucket) :=
  b ← or_raise KeyError (dict_get colour_eqb features k);
  Ok (dict_set colour_eqb features k
        (Bucket (feature b ++ [idx]) (contour b ++ [idx]))).

(** The inner loop [for idx in feat['feature']] of the absorption pass;
    returning early is the [break]. *)
Fixpoint absorb_vertices (colors : list colour)
    (one_rings_indices : list (list nat)) (key : colour) (idxs : list nat)
    (features : dict colour bucket) : result (dict colour bucket) :=
  match idxs with
  | [] => Ok features
  | idx :: rest =>
      ring ← getitem one_rings_indices idx;
      ring_colors ← mapM (getitem colors) ring;
      most_common ← most_common_key (Counter ring_colors);
      if colour_eqb most_common key then Ok features
      else
        features ← append_both features most_common idx;
        absorb_vertices colors one_rings_indices key rest features
  end.

(** One iteration of [for key, feat in features.items()]. The state is the
    dictionary (its buckets are shared, mutable objects) and
    [elem_to_remove]. *)
Definition absorb_bucket (colors : list colour)
    (one_rings_indices : list (list nat)) (key : colour)
    (st : dict colour bucket * list colour)
  : result (dict colour bucket * list colour) :=
  let '(features, elem_to_remove) := st in
  feat ← or_raise KeyError (dict_get colour_eqb features key);
  if length (feature feat) <? 3 then
    features ← absorb_vertices colors one_rings_indices key (feature feat)
                 features;
    Ok (features, elem_to_remove ++ [key])
  else Ok st.

(** The body of the function once [colors] and the unique edges of the
    mesh are at hand. *)
Definition segment (colors : list colour) (edges_unique : list (nat * nat))
  : result (dict colour bucket) :=
  let graph := from_edgelist edges_unique in
  one_rings_indices ← mapM (one_ring graph) (seq 0 (length colors));
  features ← classify_all colors 0 (zip colors one_rings_indices) [];
  '(features, elem_to_remove) ←
    for_each (absorb_bucket colors one_rings_indices)
      (dict_keys features) (features, []);
  Ok (fold_left (dict_pop colour_eqb) elem_to_remove features).

(** What [colored] can be: a torch_geometric [Data] with its [colors]
    attribute (cast to integers) and the unique edges of its mesh, a
    [trimesh.Trimesh] with its vertex colours and unique edges, or
    anything else. *)
Inductive colored : Type :=
| PygData (colors : list colour) (edges_unique : list (nat * nat))
| Trimesh (vertex_colors : list colour) (edges_unique : list (nat * nat))
| Unsupported.

Definition extract_feature_and_contour_from_colour (c : colored)
  : result (dict colour bucket) :=
  match c with
  | PygData colors edges_unique => segment colors edges_unique
  | Trimesh vertex_colors edges_unique => segment vertex_colors edges_unique
  | Unsupported => Raise NotImplementedError
  end.

(** *** Vertex pruning *)

(** A row of the face array: three vertex indices. *)
Definition face : Type := (Z * Z * Z)%type.

Definition face_cells (f : face) : list Z := let '(a, b, c) := f in [a; b; c].

(** [mask[idxs] = 0] *)
Definition clear_at (mask : list bool) (idxs : list Z) : result (list bool) :=
  for_each (fun i m => p ← np_index (length m) i; Ok (<[p := false]> m))
    idxs mask.

(** [np.argwhere(f_original == v_idx)[:, 0]]: the row of every matching
    cell, in row-major order. *)
Definition argwhere_rows (f_original : list face) (v_idx : Z) : list nat :=
  concat (imap (fun i f => (fun _ => i) <$> List.filter (Z.eqb v_idx) (face_cells f))
            f_original).

(** [list(dict.fromkeys(xs))]: first occurrences, in order. *)
Fixpoint fromkeys (seen xs : list nat) : list nat :=
  match xs with
  | [] => seen
  | x :: rest =>
      if existsb (Nat.eqb x) seen then fromkeys seen rest
      else fromkeys (seen ++ [x]) rest
  end.

Fixpoint insert_sorted (x : nat) (xs : list nat) : list nat :=
  match xs with
  | [] => [x]
  | y :: rest => if x <=? y then x :: xs else y :: insert_sorted x rest
  end.

Definition sorted (xs : list nat) : list nat := foldr insert_sorted [] xs.

(** [a[mask]] for a boolean mask as long as [a]. *)
Definition mask_select {A} (a : list A) (mask : list bool) : list A :=
  (List.filter snd (zip a mask)).*1.

(** [np.argwhere(mask == 1)[:, 0]] *)
Definition true_positions (mask : list bool) : list nat :=
  concat (imap (fun i (b : bool) => if b then [i] else []) mask).

(** [np.sum(mask)] *)
Definition count_true (mask : list bool) : nat := length (List.filter (fun b : bool => b) mask).

(** [a.max()] of the cells of an array; numpy raises on an empty one. *)
Definition array_max (cells : list Z) : result Z :=
  match cells with
  | [] => Raise ValueError
  | c :: rest => Ok (fold_left Z.max rest c)
  end.

(** [np.empty(n)]: [n] cells of whatever the memory held, [junk i] in
    cell [i]. *)
Definition np_empty (junk : nat -> Z) (n : Z) : result (list Z) :=
  if (n <? 0)%Z then Raise ValueError else Ok (junk <$> seq 0 (Z.to_nat n)).

(** [arr[idxs] = vals] for index and value arrays of one length. *)
Definition assign_at (arr : list Z) (idxs : list nat) (vals : list Z)
  : result (list Z) :=
  for_each (fun '(i, v) a =>
              if i <? length a then Ok (<[i := v]> a) else Raise IndexError)
    (zip idxs vals) arr.

(** [arr[i]] for a numpy integer [i]. *)
Definition take_at (arr : list Z) (i : Z) : result Z :=
  p ← np_index (length arr) i; getitem arr p.

Definition remap_face (arr : list Z) (f : face) : result face :=
  let '(a, b, c) := f in
  a' ← take_at arr a; b' ← take_at arr b; c' ← take_at arr c;
  Ok (a', b', c').

Definition remove_mesh_vertices {A} (junk : nat -> Z) (v_original : list A)
    (f_original : list face) (v_idxs_to_remove : list Z)
  : result (list A * list face * list bool) :=
  keep_v_mask ← clear_at (replicate (length v_original) true) v_idxs_to_remove;
  (* remove faces containing a vertex that needs to be removed *)
  let remove_f_idxs := concat (argwhere_rows f_original <$> v_idxs_to_remove) in
  let remove_f_idxs := sorted (fromkeys [] remove_f_idxs) in
  keep_f_mask ← clear_at (replicate (length f_original) true)
                  (Z.of_nat <$> remove_f_idxs);
  let updated_faces := mask_select f_original keep_f_mask in
  (* remove vertices *)
  let new_vertices := mask_select v_original keep_v_mask in
  (* update indices of faces with new vertex indexing *)
  let val_old := true_positions keep_v_mask in
  let val_new := Z.of_nat <$> seq 0 (count_true keep_v_mask) in
  top ← array_max (updated_faces ≫= face_cells);
  arr ← np_empty junk (top + 1);
  arr ← assign_at arr val_old val_new;
  new_faces ← mapM (remap_face arr) updated_faces;
  Ok (new_vertices, new_faces, keep_v_mask).

(** *** Loading a template *)

(** A [trimesh.Trimesh] as [load_template] reads it: vertices (whatever
    a position is), faces and per-vertex colours. *)
Record mesh (A : Type) : Type :=
  Mesh { vertices : list A; faces : list face; vertex_colors : list colour }.
Arguments Mesh {A} vertices faces vertex_colors.
Arguments vertices {A} m.
Arguments faces {A} m.
Arguments vertex_colors {A} m.

(** [attribute_to_remove] as the function tells its values apart: [None]
    (the default), the string ['none'], the string [str(c)] of a colour
    row [c] (the form of the dictionary keys), any other hashable
    value. *)
Inductive attribute : Type :=
| attr_None
| attr_none_string
| attr_key (c : colour)
| attr_other.

(** [feat_and_cont[a2r]] *)
Definition lookup_attribute (feat_and_cont : dict colour bucket)
    (a2r : attribute) : result bucket :=
  match a2r with
  | attr_key c => or_raise KeyError (dict_get colour_eqb feat_and_cont c)
  | _ => Raise KeyError
  end.

(** [a[mask]] for a boolean mask: numpy wants the lengths to agree. *)
Definition bool_index {A} (a : list A) (mask : list bool) : result (list A) :=
  if length a =? length mask then Ok (mask_select a mask)
  else Raise IndexError.

(** The fields [pos], [face] (transposed: one row per corner), [colors],
    [feat_and_cont] and [mask_verts] of the [Data] object. *)
Record Data (A : Type) : Type :=
  { data_pos : list A;
    data_face : list Z * list Z * list Z;
    data_colors : list colour;
    data_feat_and_cont : dict colour bucket;
    data_mask_verts : list bool }.
Arguments data_pos {A} d.
Arguments data_face {A} d.
Arguments data_colors {A} d.
Arguments data_feat_and_cont {A} d.
Arguments data_mask_verts {A} d.

Section LoadTemplate.
Context {A : Type}.

(** [Trimesh.edges_unique]: the library's list of the edges of the
    faces, each once. *)
Variable edges_unique : list face -> list (nat * nat).
Variable junk : nat -> Z.

(** [load_template] from the loaded mesh to the [Data] object it fills.
    Reading the file comes before, [FaceToEdge] and the Laplacian come
    after and add [edge_index] and [laplacian] to the object. *)
Definition load_template (mesh : mesh A) (attribute_to_remove : attribute)
  : result (Data A) :=
  feat_and_cont ←
    extract_feature_and_contour_from_colour
      (Trimesh (vertex_colors mesh) (edges_unique (faces mesh)));
  let mask_save := replicate (length (vertices mesh)) true in
  '(mesh, feat_and_cont, mask_save) ←
    match attribute_to_remove with
    | attr_none_string => Ok (mesh, feat_and_cont, mask_save)
    | a2r =>
        b ← lookup_attribute feat_and_cont a2r;
        let feature := sorted (feature b ++ contour b) in
        '(mesh_verts, mesh_faces, mask_save) ←
          remove_mesh_vertices junk (vertices mesh) (faces mesh)
            (Z.of_nat <$> feature);
        colours ← bool_index (vertex_colors mesh) mask_save;
        let mesh := Mesh mesh_verts mesh_faces colours in
        feat_and_cont ←
          extract_feature_and_contour_from_colour
            (Trimesh (vertex_colors mesh) (edges_unique (faces mesh)));
        Ok (mesh, feat_and_cont, mask_save)
    end;
  Ok {| data_pos := vertices mesh;
        data_face := ((fun f : face => f.1.1) <$> faces mesh,
                      (fun f : face => f.1.2) <$> faces mesh,
                      (fun f : face => f.2) <$> faces mesh);
        data_colors := vertex_colors mesh;
        data_feat_and_cont := feat_and_cont;
        data_mask_verts := mask_save |}.

End LoadTemplate.

(** *** The last checkpoint *)

(** A Python [str] of one-byte characters; [<] on strings compares
    character codes, position by position. *)
Definition str : Type := String.string.

Import Ascii.AsciiSyntax.
#[local] Open Scope char_scope.

(** The separator, the empty string and the suffix of a checkpoint. *)
Definition sep : str := String.String "/" String.EmptyString.
Definition empty_str : str := String.EmptyString.
Definition dot_pt : str :=
  String.String "." (String.String "p" (String.String "t" String.EmptyString)).

(** [key in f] *)
Fixpoint contains (key f : str) : bool :=
  String.prefix key f
  || match f with
     | String.EmptyString => false
     | String.String _ rest => contains key rest
     end.

(** [s.endswith('/')] *)
Fixpoint endswith_sep (s : str) : bool :=
  match s with
  | String.EmptyString => false
  | String.String c String.EmptyString => Ascii.eqb c "/"
  | String.String _ rest => endswith_sep rest
  end.

(** [os.path.join(a, b)] of [posixpath]. *)
Definition os_path_join (a b : str) : str :=
  if String.prefix sep b then b
  else if String.eqb a empty_str || endswith_sep a then String.append a b
  else String.append a (String.append sep b).

#[local] Close Scope char_scope.

(** [list.sort()]: insertion into an ordered list, by [leb]. *)
Fixpoint insert_by {X} (leb : X -> X -> bool) (x : X) (xs : list X) : list X :=
  match xs with
  | [] => [x]
  | y :: rest => if leb x y then x :: xs else y :: insert_by leb x rest
  end.

Definition sort_by {X} (leb : X -> X -> bool) (xs : list X) : list X :=
  foldr (insert_by leb) [] xs.

(** What the function sees of the file system: the answers of
    [os.path.exists], [os.listdir] (which may raise) and
    [os.path.isfile]. *)
Record os : Type :=
  { os_path_exists : str -> bool;
    os_listdir : str -> result (list str);
    os_path_isfile : str -> bool }.

(** The paths [get_model_list] collects. *)
Definition gen_models (fs : os) (dirname key : str) (listing : list str)
  : list str :=
  os_path_join dirname
    <$> List.filter
          (fun f => os_path_isfile fs (os_path_join dirname f)
                    && contains key f && contains dot_pt f)
          listing.

(** [get_model_list]; [None] is Python's [None]. The test
    [gen_models is None] is on a list, which never is. *)
Definition get_model_list (fs : os) (dirname key : str)
  : result (option str) :=
  if negb (os_path_exists fs dirname) then Ok None
  else
    listing ← os_listdir fs dirname;
    let gen_models := sort_by String.leb (gen_models fs dirname key listing) in
    last_model_name ← getitem_int gen_models (-1);
    Ok (Some last_model_name).

End Utils.
Import Utils.

(** ** model.py: operators on tensor values *)

Module Tensor.

#[local] Open Scope R_scope.

(** A 2-D tensor (batch x width) and a 3-D one (batch x vertices x
    channels). An axis of length zero forgets the lengths of the axes
    inside it; the statements below are about non-empty axes. *)
Abbreviation tensor2 := (list (list R)).
Abbreviation tensor3 := (list (list (list R))).

(** One axis of torch broadcasting: equal lengths pair up, a length-one
    side is repeated, anything else is a size mismatch. *)
Definition broadcast {A B C} (f : A -> B -> result C) (xs : list A)
    (ys : list B) : result (list C) :=
  if (length xs =? length ys)%nat then mapM (fun p => f p.1 p.2) (zip xs ys)
  else
    match xs, ys with
    | [x], _ => mapM (f x) ys
    | _, [y] => mapM (fun x => f x y) xs
    | _, _ => Raise RuntimeError
    end.

(** [x + y] and [x * y] on 2-D tensors. *)
Definition add2 (x y : tensor2) : result tensor2 :=
  broadcast (broadcast (fun a b => Ok (a + b))) x y.

Definition mul2 (x y : tensor2) : result tensor2 :=
  broadcast (broadcast (fun a b => Ok (a * b))) x y.

(** [x[:, :-1]] *)
Definition drop_last_column (x : tensor2) : tensor2 :=
  (fun row => removelast row) <$> x.

(** [x[:, -1].view(-1, 1)] *)
Definition last_column (x : tensor2) : result tensor2 :=
  mapM (fun row => v ← or_raise IndexError (last row); Ok [v]) x.

(** [torch.cat((x, y), dim=1)] *)
Definition cat1 (x y : tensor2) : result tensor2 :=
  if (length x =? length y)%nat then Ok (zip_with app x y)
  else Raise RuntimeError.

(** [torch.randn_like(t)]: a fresh sample for every entry of [t]; the
    generator is the field [noise], entry [(i, j)] receiving
    [noise i j]. *)
Definition randn_like (noise : nat -> nat -> R) (t : tensor2) : tensor2 :=
  imap (fun i row => imap (fun j _ => noise i j) row) t.

(** The model version as it is written in the configuration: 1, 2, 2.3. *)
Definition version : Type := Q.
Definition v2_3 : version := (23 # 10)%Q.

(** [age_disentanglement and old_experiment==False and model_version!=2.3],
    the test in [Model.__init__] and in [Model._reparameterize]. *)
Definition separate_age (age_disentanglement old_experiment : bool)
    (model_version : version) : bool :=
  age_disentanglement && negb old_experiment
  && negb (Qeq_bool model_version v2_3).

(** [Model._reparameterize] *)
Definition _reparameterize (noise : nat -> nat -> R) (mu logvar : tensor2)
    (age_disentanglement old_experiment : bool) (model_version : version)
  : result tensor2 :=
  let std : tensor2 :=
    (fun row : list R => (fun l => exp (0.5 * l)) <$> row) <$> logvar in
  let eps := randn_like noise std in
  if separate_age age_disentanglement old_experiment model_version
  then
    let mu_feat := drop_last_column mu in
    mu_age ← last_column mu;
    noisy ← mul2 eps std;
    z ← add2 mu_feat noisy;
    cat1 z mu_age
  else
    noisy ← mul2 eps std;
    add2 mu noisy.

(** [GradientReversalFn]: [ctx] keeps [alpha] between the two passes. *)
Record grl_ctx : Type := { ctx_alpha : R }.

Definition GradientReversalFn_forward (x : tensor2) (alpha : R)
  : grl_ctx * tensor2 :=
  ({| ctx_alpha := alpha |}, x).

(** Returns the gradient for [x]; the one for [alpha] is [None]. *)
Definition GradientReversalFn_backward (ctx : grl_ctx) (grad_output : tensor2)
  : tensor2 * option R :=
  ((fun row : list R => (fun g => - g * ctx_alpha ctx) <$> row) <$> grad_output,
   None).

(** A sparse COO matrix: [size(0)], [size(1)] and the stored
    (row, column, value) entries. *)
Record sparse : Type :=
  { sp_rows : nat; sp_cols : nat; sp_entries : list (nat * nat * R) }.

(** [scatter_add] of one batch element: [out[row] += src] for each
    gathered row, in order. *)
Definition scatter_row (e : nat * list R) (out : list (list R))
  : result (list (list R)) :=
  match out !! e.1 with
  | Some acc => Ok (<[e.1 := zip_with Rplus acc e.2]> out)
  | None => Raise RuntimeError
  end.

(** Channel count of a (vertices x channels) signal. *)
Definition width (x : list (list R)) : nat :=
  match x with [] => 0%nat | row :: _ => length row end.

(** [Pool] on one batch element [x] (vertices x channels):
    [index_select] the column vertex of every entry, scale it by the
    entry's value, and scatter-add it into the entry's row. *)
Definition pool_one (trans : sparse) (x : list (list R))
  : result (list (list R)) :=
  out ← mapM (fun e : nat * nat * R =>
                row ← getitem x e.1.2;
                Ok (e.1.1, (fun v => v * e.2) <$> (row : list R)))
          (sp_entries trans);
  for_each scatter_row out
    (replicate (sp_rows trans) (replicate (width x) 0)).

(** [Pool(x, trans)] with its default [dim=1] on a batched signal. *)
Definition Pool (x : tensor3) (trans : sparse) : result tensor3 :=
  mapM (pool_one trans) x.

(** Entry [(r, c)] of a matrix, and the sum of a list of terms. *)
Definition at2 (t : tensor2) (r c : nat) : R := nth c (nth r t []) 0.

Definition sum_list (l : list R) : R := foldr Rplus 0 l.

End Tensor.

(** ** model.py: the network at the level of tensor shapes

    Every layer is followed through the shape of the tensor it receives
    and returns, with the index checks of [index_select], [scatter_add],
    [view] and [nn.Linear]. Signals are batched (batch x vertices x
    channels), the form for which [Pool]'s default [dim=1] is the vertex
    axis. *)

Module Shapes.

Import Tensor.

Abbreviation shape2 := (nat * nat)%type.
Abbreviation shape3 := (nat * nat * nat)%type.

(** A 2-D [LongTensor] of indices: its two sizes and [view(-1)]. *)
Record LongTensor2 : Type := { size0 : nat; size1 : nat; flat : list nat }.

(** The size a [-1] stands for in [view], the other sizes multiplying to
    [known], on a tensor of [numel] entries. *)
Definition view_infer (numel known : nat) : result nat :=
  if known =? 0 then Raise RuntimeError
  else if numel mod known =? 0 then Ok (numel / known)
  else Raise RuntimeError.

(** [torch.index_select(x, dim, index)] needs every index below the
    length [n] of that axis. *)
Definition index_select_check (n : nat) (index : list nat) : result unit :=
  if forallb (fun j => j <? n) index then Ok () else Raise IndexError.

Module Linear.
Record t : Type := { in_features : nat; out_features : nat }.

Definition forward2 (l : t) (x : shape2) : result shape2 :=
  if x.2 =? in_features l then Ok (x.1, out_features l)
  else Raise RuntimeError.

Definition forward3 (l : t) (x : shape3) : result shape3 :=
  if x.2 =? in_features l then Ok (x.1, out_features l)
  else Raise RuntimeError.
End Linear.

Module SpiralConv.
Record t : Type :=
  { dim : nat;
    indices : LongTensor2;
    in_channels : nat;
    out_channels : nat;
    seq_length : nat;
    layer : Linear.t }.

Definition __init__ (in_channels out_channels : nat) (indices : LongTensor2)
  : t :=
  {| dim := 1;
     indices := indices;
     in_channels := in_channels;
     out_channels := out_channels;
     seq_length := size1 indices;
     layer := {| Linear.in_features := in_channels * size1 indices;
                 Linear.out_features := out_channels |} |}.

(** The branch [x.dim() == 3]. *)
Definition forward (c : t) (x : shape3) : result shape3 :=
  let '(bs, n, ch) := x in
  let n_nodes := size0 (indices c) in
  _ ← index_select_check n (flat (indices c));
  let selected := length (flat (indices c)) in
  last ← view_infer (bs * selected * ch) (bs * n_nodes);
  Linear.forward3 (layer c) (bs, n_nodes, last).
End SpiralConv.

(** [Pool(x, trans)]: [index_select] along the vertex axis by the entry
    columns, then [scatter_add] by the entry rows into [trans.size(0)]
    vertices. *)
Definition Pool (x : shape3) (trans : sparse) : result shape3 :=
  let '(bs, n, ch) := x in
  _ ← index_select_check n ((fun e : nat * nat * R => e.1.2) <$> sp_entries trans);
  if forallb (fun e : nat * nat * R => e.1.1 <? sp_rows trans) (sp_entries trans)
  then Ok (bs, sp_rows trans, ch)
  else Raise RuntimeError.

(** [SpiralEnblock.forward]: convolution, [elu], pooling. *)
Definition SpiralEnblock_forward (conv : SpiralConv.t) (x : shape3)
    (down_transform : sparse) : result shape3 :=
  out ← SpiralConv.forward conv x;
  Pool out down_transform.

(** [SpiralDeblock.forward]: pooling, convolution, [elu]. *)
Definition SpiralDeblock_forward (conv : SpiralConv.t) (x : shape3)
    (up_transform : sparse) : result shape3 :=
  out ← Pool x up_transform;
  SpiralConv.forward conv out.

(** The modules held in a [ModuleList] or [Sequential]. *)
Inductive module : Type :=
| SpiralEnblock (conv : SpiralConv.t)
| SpiralDeblock (conv : SpiralConv.t)
| SpiralConvLayer (conv : SpiralConv.t)
| LinearLayer (l : Linear.t)
| ReLU
| BatchNorm1d (num_features : nat)
| Dropout
| GradientReversalLayer.

(** [layer(x, transform)] *)
Definition call_block (layer : module) (x : shape3) (transform : sparse)
  : result shape3 :=
  match layer with
  | SpiralEnblock conv => SpiralEnblock_forward conv x transform
  | SpiralDeblock conv => SpiralDeblock_forward conv x transform
  | _ => Raise TypeError
  end.

(** [layer(x)] on a signal. *)
Definition call3 (layer : module) (x : shape3) : result shape3 :=
  match layer with
  | SpiralConvLayer conv => SpiralConv.forward conv x
  | LinearLayer l => Linear.forward3 l x
  | ReLU | Dropout | GradientReversalLayer => Ok x
  | _ => Raise TypeError
  end.

(** [layer(x)] on a (batch x width) matrix. *)
Definition call2 (training : bool) (layer : module) (x : shape2)
  : result shape2 :=
  match layer with
  | LinearLayer l => Linear.forward2 l x
  | ReLU | Dropout | GradientReversalLayer => Ok x
  | BatchNorm1d n =>
      if negb (x.2 =? n) then Raise RuntimeError
      else if training && (x.1 =? 1) then Raise ValueError
      else Ok x
  | _ => Raise TypeError
  end.

(** [nn.Sequential.forward] *)
Definition Sequential (training : bool) (layers : list module) (x : shape2)
  : result shape2 :=
  for_each (call2 training) layers x.

(** *** class Model *)

(** The arguments of [Model.__init__]. *)
Record Config : Type :=
  { in_channels : nat;
    out_channels : list nat;
    latent_size : nat;
    age_disentanglement : bool;
    swap_features : bool;
    batch_diagonal_idx : list Z;
    old_experiment : bool;
    spiral_indices : list LongTensor2;
    down_transform : list sparse;
    up_transform : list sparse;
    mlp_dropout : Q;
    mlp_layer_2 : nat;
    mlp_layer_3 : nat;
    model_version : version;
    extra_layers : bool;
    detach_features : bool;
    is_vae : bool }.

(** The attributes of a constructed model: the arguments it stores and
    the layers built from them. [training] is [nn.Module]'s mode flag. *)
Record Model : Type :=
  { args : Config;
    num_vert : nat;
    en_layers : list module;
    mlp_feature_layers : list module;
    mlp_loss_layers : list module;
    de_layers : list module;
    training : bool }.

(** [nn.Module.train(mode)]; [eval()] is [train(False)]. [forward] reads
    the flag as [self.training]. *)
Definition train (mode : bool) (m : Model) : Model :=
  {| args := args m;
     num_vert := num_vert m;
     en_layers := en_layers m;
     mlp_feature_layers := mlp_feature_layers m;
     mlp_loss_layers := mlp_loss_layers m;
     de_layers := de_layers m;
     training := mode |}.

Definition mk_linear (i o : nat) : module :=
  LinearLayer {| Linear.in_features := i; Linear.out_features := o |}.

(** The body of the encoder loop [for idx in range(len(out_channels))]. *)
Definition encoder_block (a : Config) (idx : nat) : result module :=
  if idx =? 0 then
    oc ← getitem (out_channels a) idx;
    si ← getitem (spiral_indices a) idx;
    Ok (SpiralEnblock (SpiralConv.__init__ (in_channels a) oc si))
  else
    prev ← getitem (out_channels a) (idx - 1);
    oc ← getitem (out_channels a) idx;
    si ← getitem (spiral_indices a) idx;
    Ok (SpiralEnblock (SpiralConv.__init__ prev oc si)).

(** The body of the decoder loop, with its indices from the end. *)
Definition decoder_block (a : Config) (idx : nat) : result module :=
  let i := Z.of_nat idx in
  if idx =? 0 then
    oc ← getitem_int (out_channels a) (- i - 1);
    si ← getitem_int (spiral_indices a) (- i - 1);
    Ok (SpiralDeblock (SpiralConv.__init__ oc oc si))
  else
    prev ← getitem_int (out_channels a) (- i);
    oc ← getitem_int (out_channels a) (- i - 1);
    si ← getitem_int (spiral_indices a) (- i - 1);
    Ok (SpiralDeblock (SpiralConv.__init__ prev oc si)).

(** [Model.__init__]. The weights are not part of a model of shapes:
    the three [reset_parameters] calls that end the constructor draw
    them and change no shape, and are left out. ([xavier_uniform_]
    divides by [fan_in + fan_out]: on a layer with no input and no
    output feature the constructor of the code raises where this one
    returns; the statements below take the constructed model as given,
    or layers of positive width.) *)
Definition __init__ (a : Config) : result Model :=
  last_down ← getitem_int (down_transform a) (-1);
  let num_vert := sp_rows last_down in
  (* encoder *)
  en_blocks ← mapM (encoder_block a) (seq 0 (length (out_channels a)));
  oc_last ← getitem_int (out_channels a) (-1);
  (* a layer of [latent_size - 1] features needs [latent_size >= 1] *)
  if latent_size a =? 0 then Raise RuntimeError else
  let head :=
    if separate_age (age_disentanglement a) (old_experiment a) (model_version a)
    then mk_linear (num_vert * oc_last) (latent_size a - 1)
    else mk_linear (num_vert * oc_last) (latent_size a) in
  (* add another linear layer for logvar *)
  let en_layers :=
    en_blocks ++ [head]
    ++ (if is_vae a then [mk_linear (num_vert * oc_last) (latent_size a)]
        else []) in
  (* [nn.Dropout(p)] needs [0 <= p <= 1] *)
  if negb (Qle_bool 0 (mlp_dropout a) && Qle_bool (mlp_dropout a) 1)
  then Raise ValueError else
  let f := latent_size a - 1 in
  let mlp_feature_layers :=
    [mk_linear f f; ReLU; BatchNorm1d f; Dropout;
     mk_linear f f; ReLU; BatchNorm1d f; Dropout;
     mk_linear f f] in
  let mlp_loss_layers :=
    [GradientReversalLayer;
     mk_linear f (mlp_layer_2 a); ReLU; BatchNorm1d (mlp_layer_2 a); Dropout;
     mk_linear (mlp_layer_2 a) (mlp_layer_3 a); ReLU;
     BatchNorm1d (mlp_layer_3 a); Dropout;
     mk_linear (mlp_layer_3 a) 1] in
  (* decoder *)
  de_blocks ← mapM (decoder_block a) (seq 0 (length (out_channels a)));
  oc0 ← getitem (out_channels a) 0;
  si0 ← getitem (spiral_indices a) 0;
  Ok {| args := a;
        num_vert := num_vert;
        en_layers := en_layers;
        mlp_feature_layers := mlp_feature_layers;
        mlp_loss_layers := mlp_loss_layers;
        de_layers :=
          [mk_linear (latent_size a) (num_vert * oc_last)] ++ de_blocks
          ++ [SpiralConvLayer (SpiralConv.__init__ oc0 (in_channels a) si0)];
        training := true |}.

(** [layer.weight.size(1)] *)
Definition weight_size1 (layer : module) : result nat :=
  match layer with
  | LinearLayer l => Ok (Linear.in_features l)
  | _ => Raise TypeError
  end.

(** The loop of [encode], from iteration [i] on. *)
Fixpoint encode_layers (m : Model) (n_linear_layers i : nat)
    (layers : list module) (x : shape3) : result shape3 :=
  match layers with
  | [] => Ok x
  | layer :: rest =>
      x ← (if i <? length (en_layers m) - n_linear_layers then
             t ← getitem (down_transform (args m)) i;
             call_block layer x t
           else Ok x);
      encode_layers m n_linear_layers (S i) rest x
  end.

(** [encode]: the shapes of [mu] and of [logvar] ([None] when the model
    is not variational). *)
Definition encode (m : Model) (x : shape3) : result (shape2 * option shape2) :=
  let n_linear_layers := if is_vae (args m) then 2 else 1 in
  x ← encode_layers m n_linear_layers 0 (en_layers m) x;
  last_layer ← getitem_int (en_layers m) (-1);
  width ← weight_size1 last_layer;
  rows ← view_infer (x.1.1 * x.1.2 * x.2) width;
  let x : shape2 := (rows, width) in
  mu ← call2 (training m) last_layer x;
  if is_vae (args m) then
    before_last ← getitem_int (en_layers m) (-2);
    logvar ← call2 (training m) before_last x;
    Ok (mu, Some logvar)
  else Ok (mu, None).

Definition mlp_feature (m : Model) (features : shape2) : result shape2 :=
  Sequential (training m) (mlp_feature_layers m) features.

Definition mlp_loss (m : Model) (features : shape2) : result shape2 :=
  features ←
    (if swap_features (args m) then
       _ ← mapM (np_index features.1) (batch_diagonal_idx (args m));
       Ok (length (batch_diagonal_idx (args m)), features.2)
     else Ok features);
  Sequential (training m) (mlp_loss_layers m) features.

(** The loop of [decode] past its first iteration. *)
Fixpoint decode_layers (m : Model) (num_layers num_features i : nat)
    (layers : list module) (x : shape3) : result shape3 :=
  match layers with
  | [] => Ok x
  | layer :: rest =>
      x ← (if negb (i =? num_layers - 1) then
             t ← getitem (up_transform (args m)) (num_features - i);
             call_block layer x t
           else call3 layer x);
      decode_layers m num_layers num_features (S i) rest x
  end.

(** [decode]. [de_layers] starts with the dense layer; were it empty the
    loop would hand back the latent matrix itself, which has no shape
    here. *)
Definition decode (m : Model) (x : shape2) : result shape3 :=
  let num_layers := length (de_layers m) in
  let num_features := num_layers - 2 in
  match de_layers m with
  | [] => Raise TypeError
  | layer :: rest =>
      x ← call2 (training m) layer x;
      oc_last ← getitem_int (out_channels (args m)) (-1);
      bs ← view_infer (x.1 * x.2) (num_vert m * oc_last);
      decode_layers m num_layers num_features 1 rest (bs, num_vert m, oc_last)
  end.

(** [z[:, :-1]] *)
Definition features_of (z : shape2) : shape2 := (z.1, z.2 - 1).

(** [z[:, -1]], then [.unsqueeze(1)] or [.view(-1, 1)] *)
Definition age_of (z : shape2) : result shape2 :=
  if z.2 =? 0 then Raise IndexError else Ok (z.1, 1).

(** [torch.cat((a, b), dim=1)] *)
Definition cat1 (a b : shape2) : result shape2 :=
  if a.1 =? b.1 then Ok (a.1, a.2 + b.2) else Raise RuntimeError.

Definition broadcast_dim (a b : nat) : result nat :=
  if a =? b then Ok a
  else if a =? 1 then Ok b
  else if b =? 1 then Ok a
  else Raise RuntimeError.

(** [a + b] *)
Definition add2 (a b : shape2) : result shape2 :=
  r ← broadcast_dim a.1 b.1; c ← broadcast_dim a.2 b.2; Ok (r, c).

Definition _reparameterize (mu : shape2) (logvar : option shape2)
    (age_disentanglement old_experiment : bool) (model_version : version)
  : result shape2 :=
  std ← or_raise TypeError logvar;
  let eps := std in
  if separate_age age_disentanglement old_experiment model_version then
    let mu_feat := features_of mu in
    mu_age ← age_of mu;
    z ← add2 mu_feat eps;
    cat1 z mu_age
  else add2 mu eps.

(** What [forward] returns; [mlp_output] is a tensor or the integer 0. *)
Record outputs : Type :=
  { out : shape3;
    z : shape2;
    mu : shape2;
    logvar : option shape2;
    mlp_output : shape2 + Z }.

Definition sample (m : Model) (mu : shape2) (logvar : option shape2)
  : result shape2 :=
  if is_vae (args m) && training m then
    _reparameterize mu logvar (age_disentanglement (args m))
      (old_experiment (args m)) (model_version (args m))
  else Ok mu.

Definition regress (m : Model) (features : shape2) : result (shape2 + Z) :=
  if age_disentanglement (args m) then inl <$> mlp_loss m features
  else Ok (inr 0%Z).

Definition forward (m : Model) (x : shape3) : result outputs :=
  let a := args m in
  (* MODEL 1 - AGE & MLP losses *)
  if Qeq_bool (model_version a) 1 && negb (extra_layers a)
     && negb (detach_features a) then
    '(mu, logvar) ← encode m x;
    z ← sample m mu logvar;
    let z_features := features_of z in
    mlp_output ← regress m z_features;
    out ← decode m z;
    Ok {| out := out; z := z; mu := mu; logvar := logvar;
          mlp_output := mlp_output |}
  (* MODEL 2 - AGE & MLP losses *)
  else if Qeq_bool (model_version a) 2 && negb (extra_layers a)
          && negb (detach_features a) then
    '(mu, logvar) ← encode m x;
    let mu_features := features_of mu in
    mlp_output ← regress m mu_features;
    z ← sample m mu logvar;
    out ← decode m z;
    Ok {| out := out; z := z; mu := mu; logvar := logvar;
          mlp_output := mlp_output |}
  (* MODEL 1.1 - Add linear layers *)
  else if Qeq_bool (model_version a) 1 && extra_layers a
          && negb (detach_features a) then
    '(mu, logvar) ← encode m x;
    z1 ← sample m mu logvar;
    let z1_features := features_of z1 in
    z1_age ← age_of z1;
    z2_features ← mlp_feature m z1_features;
    mlp_output ← regress m z2_features;
    z2 ← cat1 z2_features z1_age;
    out ← decode m z2;
    Ok {| out := out; z := z2; mu := mu; logvar := logvar;
          mlp_output := mlp_output |}
  (* MODEL 2.1 - Add linear layers *)
  else if (Qeq_bool (model_version a) 2 || Qeq_bool (model_version a) v2_3)
          && extra_layers a && negb (detach_features a) then
    '(mu1, logvar) ← encode m x;
    let mu1_features := features_of mu1 in
    mu1_age ← age_of mu1;
    mu2_features ← mlp_feature m mu1_features;
    mlp_output ← regress m mu2_features;
    mu2 ← cat1 mu2_features mu1_age;
    z ← sample m mu2 logvar;
    out ← decode m z;
    Ok {| out := out; z := z; mu := mu2; logvar := logvar;
          mlp_output := mlp_output |}
  (* MODEL 2.2 - .clone().detach() features *)
  else if Qeq_bool (model_version a) 2 && extra_layers a
          && detach_features a then
    '(mu1, logvar) ← encode m x;
    let mu1_features := features_of mu1 in
    let mu1_features_detached := features_of mu1 in
    mu1_age ← age_of mu1;
    mu2_features ← mlp_feature m mu1_features;
    mu1_features_detached ← mlp_feature m mu1_features_detached;
    mlp_output ← regress m mu1_features_detached;
    mu2 ← cat1 mu2_features mu1_age;
    z ← sample m mu2 logvar;
    out ← decode m z;
    Ok {| out := out; z := z; mu := mu2; logvar := logvar;
          mlp_output := mlp_output |}
  (* no branch taken: [return out, z, mu, logvar, mlp_output] reads
     names that were never bound *)
  else Raise UnboundLocalError.

End Shapes.

(** ** utils.py: the batched sparse product *)

Module TensorUtils.

Import Tensor Shapes.
#[local] Open Scope R_scope.

(** [x.transpose(0, 1)] of a 3-D tensor. *)
Definition transpose01 (x : tensor3) : tensor3 :=
  (fun j => (fun xi : tensor2 => nth j xi []) <$> x)
    <$> seq 0 (length (hd [] x)).

(** The entries in row-major order, as [reshape] reads them. *)
Definition flatten2 (x : tensor2) : list R := concat x.
Definition flatten3 (x : tensor3) : list R := concat (concat x).

(** [t.reshape(d0, -1)] and [t.reshape(d0, d1, -1)] of a tensor with
    entries [flat]. *)
Definition reshape2 (flat : list R) (d0 : nat) : result tensor2 :=
  d1 ← view_infer (length flat) d0;
  Ok ((fun i => take d1 (drop (i * d1) flat)) <$> seq 0 d0).

Definition reshape3 (flat : list R) (d0 d1 : nat) : result tensor3 :=
  d2 ← view_infer (length flat) (d0 * d1);
  Ok ((fun r =>
         (fun i => take d2 (drop ((r * d1 + i) * d2) flat)) <$> seq 0 d1)
        <$> seq 0 d0).

(** [sparse.mm(matrix)]: the product of a sparse matrix, given by its
    entries, with a dense one of [sparse.shape[1]] rows. Entries outside
    the shape are not found in a tensor built from a scipy matrix; they
    are refused here. *)
Definition mm (sparse : sparse) (matrix : tensor2) : result tensor2 :=
  if negb (length matrix =? sp_cols sparse)%nat then Raise RuntimeError
  else if negb (forallb (fun e : nat * nat * R =>
                           (e.1.1 <? sp_rows sparse)%nat
                           && (e.1.2 <? sp_cols sparse)%nat)
                  (sp_entries sparse))
  then Raise RuntimeError
  else
    Ok ((fun r =>
           (fun c =>
              sum_list ((fun e : nat * nat * R => e.2 * at2 matrix e.1.2 c)
                          <$> filter (fun e : nat * nat * R => e.1.1 = r)
                                (sp_entries sparse)))
             <$> seq 0 (width matrix))
          <$> seq 0 (sp_rows sparse)).

Definition batch_mm (sparse : sparse) (matrix_batch : tensor3)
  : result tensor3 :=
  let batch_size := length matrix_batch in
  (* Stack the vector batch into columns (b, n, k) -> (n, b, k) -> (n, b*k) *)
  matrix ← reshape2 (flatten3 (transpose01 matrix_batch)) (sp_cols sparse);
  (* And then reverse the reshaping. *)
  product ← mm sparse matrix;
  out ← reshape3 (flatten2 product) (sp_rows sparse) batch_size;
  Ok (transpose01 out).

End TensorUtils.

(** ** Notions the statements use *)

Module Spec.

Import Tensor.
#[local] Open Scope R_scope.

(** [a * x + b * y] on batched signals, entry by entry. *)
Definition lincomb1 (a b : R) (x y : list R) : list R :=
  zip_with (fun u v => a * u + b * v) x y.

Definition lincomb2 (a b : R) (x y : tensor2) : tensor2 :=
  zip_with (lincomb1 a b) x y.

Definition lincomb (a b : R) (x y : tensor3) : tensor3 :=
  zip_with (lincomb2 a b) x y.

(** Three runs that all return, with results related by [P], or all
    raise the same exception. *)
Inductive aligned {A} (P : A -> A -> A -> Prop)
  : result A -> result A -> result A -> Prop :=
| aligned_ok (x y z : A) : P x y z -> aligned P (Ok x) (Ok y) (Ok z)
| aligned_raise (e : exn) : aligned P (Raise e) (Raise e) (Raise e).

(** A gathered row of the three signals: same target row, scaled
    source rows combined. *)
Definition gathered_rel (a b : R) (p q z : nat * list R) : Prop :=
  p.1 = q.1 /\ z = (p.1, lincomb1 a b p.2 q.2).

(** [r] does not raise [UnboundLocalError]. *)
Definition bound {A} (r : result A) : Prop := r <> Raise UnboundLocalError.

(** The selector combinations the branches of [forward] list: MODEL 1,
    MODEL 2, MODEL 1.1, MODEL 2.1 (version 2 or 2.3) and MODEL 2.2. *)
Definition listed_variant (a : Shapes.Config) : bool :=
  let v := Shapes.model_version a in
  let extra := Shapes.extra_layers a in
  let detach := Shapes.detach_features a in
  (Qeq_bool v 1 && negb extra && negb detach)
  || (Qeq_bool v 2 && negb extra && negb detach)
  || (Qeq_bool v 1 && extra && negb detach)
  || ((Qeq_bool v 2 || Qeq_bool v v2_3) && extra && negb detach)
  || (Qeq_bool v 2 && extra && detach).

(** Every one-ring neighbour of vertex [idx] has colour [key]. *)
Definition uniform_ring (colors : list colour)
    (one_rings_indices : list (list nat)) (key : colour) (idx : nat) : Prop :=
  exists ring,
    one_rings_indices !! idx = Some ring
    /\ Forall (fun ri => colors !! ri = Some key) ring.

(** Every feature vertex of every bucket has a ring of the bucket's
    colour. *)
Definition features_uniform (colors : list colour)
    (one_rings_indices : list (list nat)) (features : dict colour bucket)
  : Prop :=
  forall key b,
    dict_get colour_eqb features key = Some b ->
    Forall (uniform_ring colors one_rings_indices key) (feature b).

(** [r] is a neighbour of [i] in the mesh: some edge joins them. *)
Definition adjacent (edges : list (nat * nat)) (i r : nat) : Prop :=
  (i, r) ∈ edges \/ (r, i) ∈ edges.

(** Every neighbour of [i] has colour [c]. *)
Definition same_around (colors : list colour) (edges : list (nat * nat))
    (c : colour) (i : nat) : bool :=
  forallb (fun e : nat * nat =>
             implb (e.1 =? i)%nat (bool_decide (colors !! e.2 = Some c))
             && implb (e.2 =? i)%nat (bool_decide (colors !! e.1 = Some c)))
    edges.

(** Vertex [i] has colour [c], and so has every neighbour / and some
    neighbour has not. *)
Definition interior (colors : list colour) (edges : list (nat * nat))
    (c : colour) (i : nat) : bool :=
  bool_decide (colors !! i = Some c) && same_around colors edges c i.

Definition border (colors : list colour) (edges : list (nat * nat))
    (c : colour) (i : nat) : bool :=
  bool_decide (colors !! i = Some c) && negb (same_around colors edges c i).

(** The region of colour [c] among the first [j] vertices: its interior
    and its border, in increasing order. *)
Definition region_upto (colors : list colour) (edges : list (nat * nat))
    (c : colour) (j : nat) : bucket :=
  Bucket (List.filter (interior colors edges c) (seq 0 j))
         (List.filter (border colors edges c) (seq 0 j)).

Definition region (colors : list colour) (edges : list (nat * nat))
    (c : colour) : bucket :=
  region_upto colors edges c (length colors).

(** The bucket the first pass holds for colour [c] after [j] vertices:
    none while no vertex of that colour has been seen. *)
Definition bucket_upto (colors : list colour) (edges : list (nat * nat))
    (j : nat) (c : colour) : option bucket :=
  let b := region_upto colors edges c j in
  match feature b ++ contour b with
  | [] => None
  | _ => Some b
  end.

(** The first pass after [j] vertices. *)
Definition first_pass (colors : list colour) (edges : list (nat * nat))
    (j : nat) (features : dict colour bucket) : Prop :=
  NoDup (dict_keys features)
  /\ forall c, dict_get colour_eqb features c = bucket_upto colors edges j c.

(** A bucket with fewer than three feature vertices. *)
Definition small (features : dict colour bucket) (key : colour) : bool :=
  match dict_get colour_eqb features key with
  | Some b => (length (feature b) <? 3)%nat
  | None => false
  end.

(** Node [w] of an adjacency, and the neighbours it lists. *)
Definition node (g : graph) (w : nat) : Prop :=
  exists nbrs, dict_get Nat.eqb g w = Some nbrs.

Definition listed (g : graph) (w r : nat) : Prop :=
  exists nbrs, dict_get Nat.eqb g w = Some nbrs /\ r ∈ nbrs.

(** The edges of the faces, each once, in order of first occurrence:
    one function [Trimesh.edges_unique] can be. *)
Definition edges_of_faces (fs : list face) : list (nat * nat) :=
  let pair (a b : Z) : nat * nat :=
    (Z.to_nat (Z.min a b), Z.to_nat (Z.max a b)) in
  fold_left
    (fun acc e =>
       if existsb (fun e' : nat * nat =>
                     (e'.1 =? e.1)%nat && (e'.2 =? e.2)%nat) acc
       then acc else acc ++ [e])
    (fs ≫= fun f : face =>
             [pair f.1.1 f.1.2; pair f.1.2 f.2; pair f.1.1 f.2])
    [].

(** Two tetrahedra, one blue and one red, that share nothing. *)
Definition two_tetrahedra : mesh nat :=
  Mesh [0; 1; 2; 3; 4; 5; 6; 7]%nat
    [(0, 1, 2); (0, 1, 3); (0, 2, 3); (1, 2, 3);
     (4, 5, 6); (4, 5, 7); (4, 6, 7); (5, 6, 7)]%Z
    (replicate 4 [0; 0; 255; 255]%Z ++ replicate 4 [255; 0; 0; 255]%Z).

(** The faces none of whose corners is to be removed. *)
Definition surviving_faces (v_idxs_to_remove : list Z)
    (f_original : list face) : list face :=
  filter (fun g => Forall (fun c => c ∉ v_idxs_to_remove) (face_cells g))
    f_original.

(** [x] is a (rows x columns) matrix. *)
Definition has_shape2 (x : list (list R)) (s : Shapes.shape2) : Prop :=
  length x = s.1 /\ Forall (fun row => length row = s.2) x.

(** [x] is a (batch x vertices x channels) signal. *)
Definition has_shape3 (x : list (list (list R))) (s : Shapes.shape3) : Prop :=
  length x = s.1.1 /\ Forall (fun m => has_shape2 m (s.1.2, s.2)) x.

(** Entry [(b, r, c)] of a batched signal. *)
Definition entry (t : tensor3) (b r c : nat) : R :=
  nth c (nth r (nth b t []) []) 0.

(** Entry [(r, c)] of the product of the sparse matrix [trans] with
    element [b] of the batch [x]: the entries of row [r], each times the
    row of [x] its column names. *)
Definition product_entry (trans : sparse) (x : tensor3) (b r c : nat) : R :=
  sum_list ((fun e : nat * nat * R => e.2 * entry x b e.1.2 c)
              <$> filter (fun e : nat * nat * R => e.1.1 = r)
                    (sp_entries trans)).

(** A run on values and a run on shapes agree: both return, the value
    having the shape, or both raise the same exception. *)
Definition agree {X S} (has_shape : X -> S -> Prop) (value : result X)
    (shape : result S) : Prop :=
  match value, shape with
  | Ok x, Ok s => has_shape x s
  | Raise e, Raise e' => e = e'
  | _, _ => False
  end.

End Spec.

(** ** Hierarchies that fit a mesh *)

Module Hierarchy.

Import Tensor.

(** [indices] is a table for a mesh of [n] vertices: one row per vertex,
    [view(-1)] of the right length, every entry a vertex. *)
Definition table_ok (n : nat) (indices : Shapes.LongTensor2) : bool :=
  (Shapes.size0 indices =? n)
  && (length (Shapes.flat indices)
      =? Shapes.size0 indices * Shapes.size1 indices)
  && forallb (fun j => j <? n) (Shapes.flat indices).

(** [trans] maps signals over [n_in] vertices to signals over [n_out]. *)
Definition operator_ok (n_out n_in : nat) (trans : sparse) : bool :=
  (sp_rows trans =? n_out)
  && forallb (fun e : nat * nat * R => (e.1.1 <? n_out) && (e.1.2 <? n_in))
       (sp_entries trans).

(** Vertex count of level [i] of the hierarchy of [a] over a finest mesh
    of [V] vertices: every down-transform gives the count of the next
    level. *)
Definition size_at (a : Shapes.Config) (V i : nat) : nat :=
  match i with
  | 0 => V
  | S j => from_option sp_rows 0 (Shapes.down_transform a !! j)
  end.

Definition level_ok (a : Shapes.Config) (V i : nat) : bool :=
  match Shapes.out_channels a !! i, Shapes.spiral_indices a !! i,
        Shapes.down_transform a !! i, Shapes.up_transform a !! i with
  | Some oc, Some indices, Some down, Some up =>
      (0 <? oc) && (0 <? size_at a V i) && (0 <? size_at a V (S i))
      && table_ok (size_at a V i) indices
      && operator_ok (size_at a V (S i)) (size_at a V i) down
      && operator_ok (size_at a V i) (size_at a V (S i)) up
  | _, _, _, _ => false
  end.

(** A configuration the constructor accepts, over a hierarchy that fits
    a finest mesh of [V] vertices: one spiral table, one down- and one
    up-transform per entry of [out_channels], consistent from level to
    level. *)
Definition valid_config (a : Shapes.Config) (V : nat) : bool :=
  let k := length (Shapes.out_channels a) in
  (0 <? k)
  && (length (Shapes.spiral_indices a) =? k)
  && (length (Shapes.down_transform a) =? k)
  && (length (Shapes.up_transform a) =? k)
  && (0 <? Shapes.latent_size a)
  && Qle_bool 0 (Shapes.mlp_dropout a) && Qle_bool (Shapes.mlp_dropout a) 1
  && forallb (level_ok a V) (seq 0 k).

(** A hierarchy of two levels, a mesh of two vertices pooled onto one,
    with spirals of length two. *)
Definition two_vertex_table : Shapes.LongTensor2 :=
  {| Shapes.size0 := 2; Shapes.size1 := 2; Shapes.flat := [0; 1; 1; 0] |}.

Definition two_to_one : sparse :=
  {| sp_rows := 1; sp_cols := 2; sp_entries := [(0, 0, 1%R); (0, 1, 1%R)] |}.

Definition one_to_two : sparse :=
  {| sp_rows := 2; sp_cols := 1; sp_entries := [(0, 0, 1%R); (1, 0, 1%R)] |}.

(** A model over it: three input channels, four channels at the coarse
    level, latent size five. *)
Definition small_config (age_disentanglement is_vae : bool)
  : Shapes.Config :=
  {| Shapes.in_channels := 3;
     Shapes.out_channels := [4];
     Shapes.latent_size := 5;
     Shapes.age_disentanglement := age_disentanglement;
     Shapes.swap_features := false;
     Shapes.batch_diagonal_idx := [];
     Shapes.old_experiment := false;
     Shapes.spiral_indices := [two_vertex_table];
     Shapes.down_transform := [two_to_one];
     Shapes.up_transform := [one_to_two];
     Shapes.mlp_dropout := (1 # 10)%Q;
     Shapes.mlp_layer_2 := 8;
     Shapes.mlp_layer_3 := 6;
     Shapes.model_version := 1%Q;
     Shapes.extra_layers := false;
     Shapes.detach_features := false;
     Shapes.is_vae := is_vae |}.

End Hierarchy.

(** ** A directory of checkpoints *)

Module Checkpoints.

Import String.StringSyntax.
#[local] Open Scope string_scope.

Definition dir : str := "checkpoints".

Definition names : list str :=
  ["model_0002.pt"; "model_0010.pt"; "notes.txt"; "model_0005.pt"].

(** A file system with that one directory, holding regular files. *)
Definition disk : os :=
  {| os_path_exists := fun d => String.eqb d dir;
     os_listdir := fun d => if String.eqb d dir then Ok names
                            else Raise RuntimeError;
     os_path_isfile := fun _ => true |}.

Definition model_key : str := "model".
Definition other_key : str := "optimizer".

End Checkpoints.

(** * Properties *)

(** ** The result monad *)

Section ResultLemmas.
Context {A B : Type}.

Lemma bind_ok (m : result A) (f : A -> result B) (a : A) :
  m = Ok a -> m ≫= f = f a.
Proof. intros ->. reflexivity. Qed.

Lemma bind_raise (m : result A) (f : A -> result B) (e : exn) :
  m = Raise e -> m ≫= f = Raise e.
Proof. intros ->. reflexivity. Qed.

Lemma bind_ok_inv (m : result A) (f : A -> result B) (b : B) :
  m ≫= f = Ok b -> exists a, m = Ok a /\ f a = Ok b.
Proof. destruct m as [a|e]; [eauto | discriminate]. Qed.

(** [mapM] succeeds with [ys] when [f] does so entry by entry. *)
Lemma mapM_ok (f : A -> result B) (xs : list A) (ys : list B) :
  Forall2 (fun x y => f x = Ok y) xs ys -> mapM f xs = Ok ys.
Proof.
  induction 1 as [|x y xs ys Hxy _ IH]; [reflexivity|].
  cbn. rewrite Hxy. cbn. rewrite IH. reflexivity.
Qed.

Lemma mapM_ok_fmap (f : A -> result B) (g : A -> B) (xs : list A) :
  Forall (fun x => f x = Ok (g x)) xs -> mapM f xs = Ok (g <$> xs).
Proof.
  intros H. apply mapM_ok. induction H; constructor; auto.
Qed.

Lemma mapM_ok_inv (f : A -> result B) (xs : list A) (ys : list B) :
  mapM f xs = Ok ys -> Forall2 (fun x y => f x = Ok y) xs ys.
Proof.
  revert ys. induction xs as [|x xs IH]; intros ys H; cbn in H.
  - injection H as <-. constructor.
  - destruct (f x) as [y|] eqn:Hy; [|discriminate]. cbn in H.
    destruct (mapM f xs) as [k|] eqn:Hk; [|discriminate]. cbn in H.
    injection H as <-. constructor; auto.
Qed.

(** [mapM] raises what the first failing entry raises. *)
Lemma mapM_raise (f : A -> result B) (xs : list A) (e : exn) :
  Forall (fun x => is_ok (f x) = true \/ f x = Raise e) xs ->
  Exists (fun x => f x = Raise e) xs ->
  mapM f xs = Raise e.
Proof.
  induction 1 as [|x xs Hx _ IH]; intros Hex; [inversion Hex|].
  cbn. destruct (f x) as [y|e'] eqn:Hy.
  - cbn. rewrite IH; [reflexivity|].
    inversion Hex as [? ? Hh|]; subst; [rewrite Hy in Hh; discriminate | assumption].
  - destruct Hx as [Hx|Hx]; [discriminate Hx | injection Hx as ->; reflexivity].
Qed.
Lemma getitem_ok_iff (l : list A) (i : nat) :
  is_ok (getitem l i) = true <-> i < length l.
Proof.
  unfold getitem. split.
  - destruct (l !! i) eqn:E; [|discriminate]. intros _.
    apply lookup_lt_Some in E. exact E.
  - intros Hi. destruct (lookup_lt_is_Some_2 l i Hi) as [x ->]. reflexivity.
Qed.

Lemma getitem_int_ok_iff (l : list A) (i : Z) :
  is_ok (getitem_int l i) = true
  <-> (- Z.of_nat (length l) <= i < Z.of_nat (length l))%Z.
Proof.
  unfold getitem_int, np_index.
  destruct ((0 <=? i) && (i <? Z.of_nat (length l)))%Z eqn:Hpos.
  - cbn [mbind result_bind]. rewrite getitem_ok_iff. lia.
  - destruct ((- Z.of_nat (length l) <=? i) && (i <? 0))%Z eqn:Hneg.
    + cbn [mbind result_bind]. rewrite getitem_ok_iff. lia.
    + cbn. split; [discriminate|lia].
Qed.

Lemma is_ok_bind (r : result A) (f : A -> result B) :
  is_ok (r ≫= f) = true <-> exists x, r = Ok x /\ is_ok (f x) = true.
Proof.
  destruct r as [x|e]; cbn.
  - split; [eauto|]. intros (y & [= <-] & H). exact H.
  - split; [discriminate|]. intros (y & H & _). discriminate.
Qed.

Lemma is_ok_true (r : result A) : is_ok r = true <-> exists x, r = Ok x.
Proof.
  destruct r; cbn; split; eauto; try discriminate. intros [x H]. discriminate.
Qed.

Lemma mapM_is_ok (f : A -> result B) (xs : list A) :
  is_ok (mapM f xs) = true <-> Forall (fun x => is_ok (f x) = true) xs.
Proof.
  induction xs as [|x xs IH]; cbn [mapM].
  - split; [constructor|reflexivity].
  - rewrite Forall_cons_iff, <- IH. destruct (f x) as [y|]; cbn.
    + destruct (mapM f xs); cbn; tauto.
    + split; [discriminate|tauto].
Qed.

Lemma mapM_length (f : A -> result B) (xs : list A) (ys : list B) :
  mapM f xs = Ok ys -> length ys = length xs.
Proof.
  intros H. apply mapM_ok_inv, Forall2_length in H. symmetry. exact H.
Qed.

End ResultLemmas.

(** ** Region segmentation *)

Section Segmentation.
Import Utils.

(** C4 (the code at the failing input). On the strip, vertex 0 is the
    only vertex of its colour and both its neighbours are blue: its
    bucket has no feature vertex and one contour vertex. The bucket is
    removed, and vertex 0 is appended to no list of the blue bucket: the
    absorption loop visits only the feature vertices of a small bucket,
    never its contour vertices. *)
Theorem absorption_skips_contour_vertex :
  extract_feature_and_contour_from_colour
    (Trimesh
       ([9; 9; 9; 255] :: replicate 7 [0; 0; 255; 255])%Z
       [(0, 1); (0, 2); (1, 2); (1, 3); (2, 3); (2, 4); (3, 4); (3, 5);
        (4, 5); (4, 6); (5, 6); (5, 7); (6, 7)])
  = Ok [([0; 0; 255; 255]%Z, Bucket [3; 4; 5; 6; 7] [1; 2])].
Proof. vm_compute. reflexivity. Qed.

End Segmentation.

(** *** What absorption does to the buckets *)

Section Absorption.
Import Utils Spec.

Lemma colour_eqb_eq (a b : colour) : colour_eqb a b = true <-> a = b.
Proof. unfold colour_eqb. apply bool_decide_eq_true. Qed.

Lemma colour_eqb_refl (a : colour) : colour_eqb a a = true.
Proof. apply colour_eqb_eq. reflexivity. Qed.

Lemma colour_eqb_neq (a b : colour) : a <> b -> colour_eqb a b = false.
Proof. unfold colour_eqb. apply bool_decide_eq_false_2. Qed.

Lemma dict_get_set_eq {V} (d : dict colour V) (k : colour) (v : V) :
  dict_get colour_eqb (dict_set colour_eqb d k v) k = Some v.
Proof.
  induction d as [|[k' v'] d IH]; cbn.
  - rewrite colour_eqb_refl. reflexivity.
  - destruct (colour_eqb k' k) eqn:E; cbn; rewrite E; [reflexivity | exact IH].
Qed.

Lemma dict_get_set_ne {V} (d : dict colour V) (k k' : colour) (v : V) :
  k <> k' ->
  dict_get colour_eqb (dict_set colour_eqb d k v) k'
  = dict_get colour_eqb d k'.
Proof.
  intros Hne. induction d as [|[k0 v0] d IH]; cbn.
  - rewrite colour_eqb_neq by exact Hne. reflexivity.
  - destruct (colour_eqb k0 k) eqn:E; cbn.
    + apply colour_eqb_eq in E. subst k0.
      rewrite colour_eqb_neq by exact Hne. reflexivity.
    + destruct (colour_eqb k0 k'); [reflexivity | exact IH].
Qed.

Lemma dict_get_snoc {V} (d : dict colour V) (k k' : colour) (v : V) :
  dict_get colour_eqb d k = None ->
  dict_get colour_eqb (d ++ [(k, v)]) k'
  = if colour_eqb k k' then Some v else dict_get colour_eqb d k'.
Proof.
  intros Hnone. induction d as [|[k0 v0] d IH]; cbn in *; [reflexivity|].
  destruct (colour_eqb k0 k) eqn:E; [discriminate|].
  destruct (colour_eqb k0 k') eqn:E'.
  - destruct (colour_eqb k k') eqn:E''; [|reflexivity].
    apply colour_eqb_eq in E', E''. subst.
    rewrite colour_eqb_refl in E. discriminate.
  - apply IH, Hnone.
Qed.

Lemma Counter_same (key : colour) (n m : nat) :
  fold_left counter_add (replicate n key) [(key, S m)] = [(key, S m + n)].
Proof.
  revert m. induction n as [|n IH]; intros m; cbn [replicate fold_left].
  - rewrite Nat.add_0_r. reflexivity.
  - replace (counter_add [(key, S m)] key) with [(key, S (S m))].
    + rewrite (IH (S m)). do 2 f_equal. lia.
    + unfold counter_add. cbn [dict_get dict_set].
      rewrite colour_eqb_refl. cbn [dict_set]. rewrite ?colour_eqb_refl.
      reflexivity.
Qed.

Lemma most_common_same (key : colour) (n : nat) :
  most_common_key (Counter (replicate (S n) key)) = Ok key.
Proof.
  unfold Counter. cbn [replicate fold_left].
  change (counter_add [] key) with [(key, 1)].
  rewrite Counter_same. reflexivity.
Qed.

Section FixedMesh.
Variables (colors : list colour) (one_rings_indices : list (list nat)).

Lemma is_contour_false (index : nat) (v_col : colour) (i_ring : list nat) :
  colors !! index = Some v_col ->
  is_contour colors index i_ring = Ok false ->
  Forall (fun ri => colors !! ri = Some v_col) i_ring.
Proof.
  intros Hcol H. unfold is_contour in H.
  assert (Hc : getitem colors index = Ok v_col)
    by (unfold getitem; rewrite Hcol; reflexivity).
  rewrite Hc in H. cbn [mbind result_bind] in H.
  destruct (mapM (getitem colors) i_ring) as [ring_colors|] eqn:Hmap;
    [|discriminate].
  cbn [mbind result_bind] in H. injection H as Hex. apply mapM_ok_inv in Hmap.
  induction Hmap as [|ri rc ring rcs Hri _ IH]; [constructor|].
  cbn [existsb] in Hex. apply orb_false_elim in Hex as [Hrc Hex].
  apply negb_false_iff, colour_eqb_eq in Hrc. subst rc.
  constructor; [|apply IH, Hex].
  unfold getitem in Hri. destruct (colors !! ri); [|discriminate].
  cbn in Hri. congruence.
Qed.

Lemma classify_uniform (index : nat) (v_col : colour) (i_ring : list nat)
    (features features' : dict colour bucket) :
  colors !! index = Some v_col ->
  one_rings_indices !! index = Some i_ring ->
  features_uniform colors one_rings_indices features ->
  classify colors index v_col i_ring features = Ok features' ->
  features_uniform colors one_rings_indices features'.
Proof.
  intros Hcol Hring Hinv Hcl. unfold classify in Hcl.
  set (F0 := match dict_get colour_eqb features v_col with
             | Some _ => features
             | None => features ++ [(v_col, Bucket [] [])]
             end) in Hcl.
  assert (Hinv0 : features_uniform colors one_rings_indices F0).
  { subst F0. destruct (dict_get colour_eqb features v_col) eqn:Hget;
      [exact Hinv|].
    intros key b Hb. rewrite dict_get_snoc in Hb by exact Hget.
    destruct (colour_eqb v_col key); [|apply (Hinv key b Hb)].
    injection Hb as <-. constructor. }
  destruct (is_contour colors index i_ring) as [c|] eqn:Hc; [|discriminate].
  cbn [mbind result_bind] in Hcl.
  destruct (dict_get colour_eqb F0 v_col) as [b|] eqn:Hb; [|discriminate].
  cbn [or_raise mbind result_bind] in Hcl. injection Hcl as <-.
  intros key b' Hb'. destruct (decide (v_col = key)) as [<-|Hne].
  - rewrite dict_get_set_eq in Hb'. injection Hb' as <-.
    pose proof (Hinv0 v_col b Hb) as Hold.
    destruct c; cbn [feature]; [exact Hold|].
    apply Forall_app. split; [exact Hold|]. constructor; [|constructor].
    exists i_ring. split; [exact Hring|]. apply (is_contour_false index); auto.
  - rewrite dict_get_set_ne in Hb' by exact Hne. apply (Hinv0 key b' Hb').
Qed.

Lemma classify_all_uniform (todo : list (colour * list nat)) (index : nat)
    (features features' : dict colour bucket) :
  (forall j p, todo !! j = Some p ->
     colors !! (index + j) = Some p.1
     /\ one_rings_indices !! (index + j) = Some p.2) ->
  features_uniform colors one_rings_indices features ->
  classify_all colors index todo features = Ok features' ->
  features_uniform colors one_rings_indices features'.
Proof.
  revert index features.
  induction todo as [|[v_col i_ring] todo IH]; intros index features Htodo Hinv Hcl.
  - cbn in Hcl. injection Hcl as <-. exact Hinv.
  - cbn [classify_all] in Hcl.
    destruct (classify colors index v_col i_ring features) as [F1|] eqn:H1;
      [|discriminate].
    cbn [mbind result_bind] in Hcl.
    destruct (Htodo 0 (v_col, i_ring) eq_refl) as [Hc Hr].
    rewrite Nat.add_0_r in Hc, Hr.
    apply (IH (S index) F1); [| |exact Hcl].
    + intros j p Hj. specialize (Htodo (S j) p Hj).
      replace (S index + j) with (index + S j) by lia. exact Htodo.
    + apply (classify_uniform index v_col i_ring features); assumption.
Qed.

(** The inner loop of the absorption pass stops at its first vertex: the
    most frequent colour around a feature vertex is the vertex's own. *)
Lemma absorb_vertices_unchanged (key : colour) (idxs : list nat)
    (features features' : dict colour bucket) :
  Forall (uniform_ring colors one_rings_indices key) idxs ->
  absorb_vertices colors one_rings_indices key idxs features = Ok features' ->
  features' = features.
Proof.
  intros Hall Habs. destruct idxs as [|idx rest]; cbn [absorb_vertices] in Habs.
  - congruence.
  - inversion Hall as [|? ? (ring & Hring & Hcols) _]; subst.
    assert (Hr : getitem one_rings_indices idx = Ok ring)
      by (unfold getitem; rewrite Hring; reflexivity).
    rewrite Hr in Habs. cbn [mbind result_bind] in Habs.
    rewrite (mapM_ok_fmap (getitem colors) (fun _ => key)) in Habs.
    2:{ eapply Forall_impl; [exact Hcols|]. intros ri Hri. cbn beta.
        unfold getitem. rewrite Hri. reflexivity. }
    cbn [mbind result_bind] in Habs.
    rewrite (const_fmap (fun _ => key) ring key) in Habs by reflexivity.
    destruct (length ring) as [|n]; [discriminate|].
    rewrite most_common_same in Habs. cbn [mbind result_bind] in Habs.
    rewrite colour_eqb_refl in Habs. congruence.
Qed.

Lemma absorb_bucket_unchanged (key : colour)
    (features features' : dict colour bucket) (el el' : list colour) :
  features_uniform colors one_rings_indices features ->
  absorb_bucket colors one_rings_indices key (features, el)
  = Ok (features', el') ->
  features' = features.
Proof.
  intros Hinv Habs. unfold absorb_bucket in Habs.
  destruct (dict_get colour_eqb features key) as [feat|] eqn:Hget;
    [|discriminate].
  cbn [or_raise mbind result_bind] in Habs.
  destruct (length (feature feat) <? 3); [|congruence].
  destruct (absorb_vertices colors one_rings_indices key (feature feat) features)
    as [F1|] eqn:H1; [|discriminate].
  cbn [mbind result_bind] in Habs. injection Habs as <- _.
  apply (absorb_vertices_unchanged key (feature feat)); [|exact H1].
  apply (Hinv key feat Hget).
Qed.

Lemma absorb_all_unchanged (keys : list colour)
    (features features' : dict colour bucket) (el el' : list colour) :
  features_uniform colors one_rings_indices features ->
  for_each (absorb_bucket colors one_rings_indices) keys (features, el)
  = Ok (features', el') ->
  features' = features.
Proof.
  intros Hinv. revert el.
  induction keys as [|key keys IH]; intros el Hloop; cbn [for_each] in Hloop.
  - congruence.
  - destruct (absorb_bucket colors one_rings_indices key (features, el))
      as [[F1 el1]|] eqn:H1; [|discriminate].
    cbn [mbind result_bind] in Hloop.
    apply absorb_bucket_unchanged in H1; [|exact Hinv]. subst F1.
    apply (IH el1 Hloop).
Qed.

End FixedMesh.

(** Whenever segmentation returns, its buckets are buckets of the first
    pass, with the lists the first pass gave them: the absorption pass
    removes buckets and appends nothing to any list. *)
Lemma segment_appends_nothing (colors : list colour)
    (edges_unique : list (nat * nat)) (result : dict colour bucket) :
  segment colors edges_unique = Ok result ->
  exists one_rings_indices features elem_to_remove,
    mapM (one_ring (from_edgelist edges_unique)) (seq 0 (length colors))
    = Ok one_rings_indices
    /\ classify_all colors 0 (zip colors one_rings_indices) [] = Ok features
    /\ result = fold_left (dict_pop colour_eqb) elem_to_remove features.
Proof.
  unfold segment. intros Hseg.
  destruct (mapM (one_ring (from_edgelist edges_unique))
              (seq 0 (length colors))) as [rings|] eqn:Hrings; [|discriminate].
  cbn [mbind result_bind] in Hseg.
  destruct (classify_all colors 0 (zip colors rings) []) as [F|] eqn:HF;
    [|discriminate].
  cbn [mbind result_bind] in Hseg.
  destruct (for_each (absorb_bucket colors rings) (dict_keys F) (F, []))
    as [[F' el]|] eqn:Hloop; [|discriminate].
  cbn [mbind result_bind] in Hseg. injection Hseg as <-.
  exists rings, F, el. split; [reflexivity|]. split; [exact HF|].
  assert (Hinv : features_uniform colors rings F).
  { apply (classify_all_uniform colors rings (zip colors rings) 0 [] F);
      [| |exact HF].
    - intros j [c r] Hj. apply lookup_zip_with_Some in Hj
        as (c' & r' & [= -> ->] & Hc & Hr). cbn. auto.
    - intros key b Hb. discriminate. }
  apply absorb_all_unchanged in Hloop; [|exact Hinv]. subst F'. reflexivity.
Qed.

End Absorption.

(** ** Regions by colour *)

Section DictLemmas.
Import Utils.
Context {K V : Type} (eqb : K -> K -> bool).
Hypothesis eqb_eq : forall a b, eqb a b = true <-> a = b.

Lemma eqb_same (a : K) : eqb a a = true.
Proof. apply eqb_eq. reflexivity. Qed.

Lemma eqb_diff (a b : K) : a <> b -> eqb a b = false.
Proof. intros H. apply not_true_is_false. rewrite eqb_eq. exact H. Qed.

Lemma get_set_eq (d : dict K V) (k : K) (v : V) :
  dict_get eqb (dict_set eqb d k v) k = Some v.
Proof.
  induction d as [|[k' v'] d IH]; cbn.
  - rewrite eqb_same. reflexivity.
  - destruct (eqb k' k) eqn:E; cbn; rewrite E; [reflexivity | exact IH].
Qed.

Lemma get_set_ne (d : dict K V) (k k' : K) (v : V) :
  k <> k' -> dict_get eqb (dict_set eqb d k v) k' = dict_get eqb d k'.
Proof.
  intros Hne. induction d as [|[k0 v0] d IH]; cbn.
  - rewrite eqb_diff by exact Hne. reflexivity.
  - destruct (eqb k0 k) eqn:E; cbn.
    + apply eqb_eq in E. subst k0. rewrite eqb_diff by exact Hne. reflexivity.
    + destruct (eqb k0 k'); [reflexivity | exact IH].
Qed.

Lemma get_snoc (d : dict K V) (k k' : K) (v : V) :
  dict_get eqb d k = None ->
  dict_get eqb (d ++ [(k, v)]) k'
  = if eqb k k' then Some v else dict_get eqb d k'.
Proof.
  intros Hnone. induction d as [|[k0 v0] d IH]; cbn in *; [reflexivity|].
  destruct (eqb k0 k) eqn:E; [discriminate|].
  destruct (eqb k0 k') eqn:E'.
  - destruct (eqb k k') eqn:E''; [|reflexivity].
    apply eqb_eq in E', E''. subst. rewrite eqb_same in E. discriminate.
  - apply IH, Hnone.
Qed.

Lemma get_None (d : dict K V) (k : K) :
  dict_get eqb d k = None <-> k ∉ dict_keys d.
Proof.
  unfold dict_keys. induction d as [|[k0 v0] d IH]; cbn.
  - split; [intros _; apply not_elem_of_nil | reflexivity].
  - rewrite not_elem_of_cons. destruct (eqb k0 k) eqn:E.
    + apply eqb_eq in E. split; [discriminate|]. intros [H _]. congruence.
    + rewrite IH. split; [|tauto]. intros H. split; [|exact H].
      intros ->. rewrite eqb_same in E. discriminate.
Qed.

Lemma keys_set (d : dict K V) (k : K) (v : V) :
  k ∈ dict_keys d -> dict_keys (dict_set eqb d k v) = dict_keys d.
Proof.
  unfold dict_keys. induction d as [|[k0 v0] d IH]; cbn; intros Hin.
  - apply elem_of_nil in Hin. destruct Hin.
  - destruct (eqb k0 k) eqn:E; cbn; [reflexivity|]. f_equal. apply IH.
    apply elem_of_cons in Hin as [->|Hin]; [|exact Hin].
    rewrite eqb_same in E. discriminate.
Qed.

Lemma get_pop (d : dict K V) (k k' : K) :
  NoDup (dict_keys d) ->
  dict_get eqb (dict_pop eqb d k) k'
  = if eqb k k' then None else dict_get eqb d k'.
Proof.
  unfold dict_keys. induction d as [|[k0 v0] d IH]; cbn; intros Hnd.
  - destruct (eqb k k'); reflexivity.
  - inversion Hnd as [|? ? Hni Hnd']; subst.
    destruct (eqb k0 k) eqn:E.
    + apply eqb_eq in E. subst k0. destruct (eqb k k') eqn:E'.
      * apply eqb_eq in E'. subst k'. apply get_None. exact Hni.
      * reflexivity.
    + cbn. destruct (eqb k0 k') eqn:E'.
      * destruct (eqb k k') eqn:E''; [|reflexivity].
        apply eqb_eq in E', E''. subst. rewrite eqb_same in E. discriminate.
      * apply IH, Hnd'.
Qed.

Lemma keys_pop_NoDup (d : dict K V) (k : K) :
  NoDup (dict_keys d) -> NoDup (dict_keys (dict_pop eqb d k)).
Proof.
  unfold dict_keys. induction d as [|[k0 v0] d IH]; cbn; intros Hnd;
    [constructor|].
  inversion Hnd as [|? ? Hni Hnd']; subst.
  destruct (eqb k0 k); [exact Hnd'|]. cbn. constructor; [|apply IH, Hnd'].
  intros Hin. apply Hni. clear -Hin.
  induction d as [|[k1 v1] d IH]; cbn in *; [exact Hin|].
  destruct (eqb k1 k); cbn in *.
  - apply elem_of_cons. right. exact Hin.
  - apply elem_of_cons in Hin as [->|Hin]; apply elem_of_cons; auto.
Qed.

Lemma get_pops (el : list K) (d : dict K V) (k' : K) :
  NoDup (dict_keys d) ->
  NoDup (dict_keys (fold_left (dict_pop eqb) el d))
  /\ dict_get eqb (fold_left (dict_pop eqb) el d) k'
     = if bool_decide (Exists (fun k => eqb k k' = true) el) then None
       else dict_get eqb d k'.
Proof.
  revert d. induction el as [|k el IH]; intros d Hnd; cbn [fold_left].
  - split; [exact Hnd|].
    rewrite bool_decide_eq_false_2; [reflexivity|]. intros H. inversion H.
  - destruct (IH (dict_pop eqb d k) (keys_pop_NoDup d k Hnd)) as [Hnd' Hget].
    split; [exact Hnd'|]. rewrite Hget, get_pop by exact Hnd.
    destruct (eqb k k') eqn:E.
    + rewrite (bool_decide_eq_true_2 (Exists _ (k :: el)))
        by (constructor; exact E).
      destruct (bool_decide _); reflexivity.
    + rewrite (bool_decide_ext (Exists (fun k0 => eqb k0 k' = true) (k :: el))
                 (Exists (fun k0 => eqb k0 k' = true) el)); [reflexivity|].
      rewrite Exists_cons. split; [|tauto].
      intros [H|H]; [congruence|exact H].
Qed.

End DictLemmas.

Section GraphLemmas.
Import Utils Spec.

Lemma nat_eqb_eq (a b : nat) : Nat.eqb a b = true <-> a = b.
Proof. apply Nat.eqb_eq. Qed.

Lemma add_node_get (g : graph) (u w : nat) :
  dict_get Nat.eqb (add_node g u) w
  = if decide (w = u) then Some (default [] (dict_get Nat.eqb g u))
    else dict_get Nat.eqb g w.
Proof.
  unfold add_node. destruct (dict_get Nat.eqb g u) as [l|] eqn:Hu.
  - destruct (decide (w = u)) as [->|]; [exact Hu | reflexivity].
  - rewrite (get_snoc Nat.eqb nat_eqb_eq) by exact Hu.
    destruct (decide (w = u)) as [->|Hne].
    + rewrite Nat.eqb_refl. reflexivity.
    + rewrite (proj2 (Nat.eqb_neq u w)) by congruence. reflexivity.
Qed.

Lemma add_neighbour_get (g : graph) (u v w : nat) :
  dict_get Nat.eqb (add_neighbour g u v) w
  = if decide (w = u)
    then (fun nbrs => if existsb (Nat.eqb v) nbrs then nbrs else nbrs ++ [v])
           <$> dict_get Nat.eqb g u
    else dict_get Nat.eqb g w.
Proof.
  unfold add_neighbour. destruct (dict_get Nat.eqb g u) as [l|] eqn:Hu.
  - cbn [fmap option_fmap option_map].
    destruct (existsb (Nat.eqb v) l) eqn:Hex.
    + destruct (decide (w = u)) as [->|]; [exact Hu | reflexivity].
    + destruct (decide (w = u)) as [->|Hne].
      * apply (get_set_eq Nat.eqb nat_eqb_eq).
      * apply (get_set_ne Nat.eqb nat_eqb_eq). congruence.
  - destruct (decide (w = u)) as [->|]; [exact Hu | reflexivity].
Qed.

Lemma elem_of_added (v : nat) (l : list nat) (r : nat) :
  r ∈ (if existsb (Nat.eqb v) l then l else l ++ [v]) <-> r ∈ l \/ r = v.
Proof.
  destruct (existsb (Nat.eqb v) l) eqn:Hex.
  - split; [auto|]. intros [H| ->]; [exact H|].
    apply existsb_exists in Hex as (x & Hx & E). apply Nat.eqb_eq in E.
    subst x. apply list_elem_of_In, Hx.
  - rewrite elem_of_app, list_elem_of_singleton. reflexivity.
Qed.

Lemma add_node_node (g : graph) (u w : nat) :
  node (add_node g u) w <-> node g w \/ w = u.
Proof.
  unfold node. rewrite add_node_get.
  destruct (decide (w = u)) as [->|Hne]; split; eauto.
  intros [H|H]; [exact H | contradiction].
Qed.

Lemma add_node_listed (g : graph) (u w r : nat) :
  listed (add_node g u) w r <-> listed g w r.
Proof.
  unfold listed. rewrite add_node_get.
  destruct (decide (w = u)) as [->|Hne]; [|reflexivity].
  destruct (dict_get Nat.eqb g u) as [l|]; cbn; split.
  - intros (nbrs & [= <-] & Hr). eauto.
  - intros (nbrs & [= <-] & Hr). eauto.
  - intros (nbrs & [= <-] & Hr). apply elem_of_nil in Hr. destruct Hr.
  - intros (nbrs & Hg & _). discriminate.
Qed.

Lemma add_neighbour_node (g : graph) (u v w : nat) :
  node (add_neighbour g u v) w <-> node g w.
Proof.
  unfold node. rewrite add_neighbour_get.
  destruct (decide (w = u)) as [->|Hne]; [|reflexivity].
  destruct (dict_get Nat.eqb g u) as [l|]; cbn; split; eauto;
    intros [nbrs H]; discriminate.
Qed.

Lemma add_neighbour_listed (g : graph) (u v w r : nat) :
  listed (add_neighbour g u v) w r
  <-> listed g w r \/ (w = u /\ r = v /\ node g u).
Proof.
  unfold listed, node. rewrite add_neighbour_get.
  destruct (decide (w = u)) as [->|Hne].
  - destruct (dict_get Nat.eqb g u) as [l|]; cbn; split.
    + intros (nbrs & [= <-] & Hr). apply elem_of_added in Hr as [Hr| ->];
        eauto 7.
    + intros [(nbrs & [= <-] & Hr)|(_ & -> & _)];
        (eexists; split; [reflexivity|]; apply elem_of_added; auto).
    + intros (nbrs & Hg & _). discriminate.
    + intros [(nbrs & Hg & _)|(_ & _ & nbrs & Hg)]; discriminate.
  - split; [auto|]. intros [H|(Hw & _)]; [exact H | contradiction].
Qed.

Lemma add_edge_node (g : graph) (u v w : nat) :
  node (add_edge g (u, v)) w <-> node g w \/ w = u \/ w = v.
Proof.
  unfold add_edge. rewrite !add_neighbour_node, !add_node_node. tauto.
Qed.

Lemma add_edge_listed (g : graph) (u v w r : nat) :
  listed (add_edge g (u, v)) w r
  <-> listed g w r \/ (w = u /\ r = v) \/ (w = v /\ r = u).
Proof.
  unfold add_edge.
  rewrite !add_neighbour_listed, !add_neighbour_node, !add_node_node,
    !add_node_listed.
  intuition auto.
Qed.

(** The adjacency [nx.from_edgelist] builds: a vertex is a node when it
    is on an edge, and its neighbours are the vertices its edges join it
    to. *)
Lemma from_edgelist_spec (edges : list (nat * nat)) (w : nat) :
  (node (from_edgelist edges) w <-> exists r, adjacent edges w r)
  /\ forall r, listed (from_edgelist edges) w r <-> adjacent edges w r.
Proof.
  unfold from_edgelist.
  assert (H : forall g seen,
             ((node g w <-> exists r, adjacent seen w r)
              /\ forall r, listed g w r <-> adjacent seen w r) ->
             (node (fold_left add_edge edges g) w
              <-> exists r, adjacent (seen ++ edges) w r)
             /\ forall r, listed (fold_left add_edge edges g) w r
                          <-> adjacent (seen ++ edges) w r).
  { induction edges as [|[u v] edges IH]; intros g seen Hinv.
    - rewrite app_nil_r. exact Hinv.
    - cbn [fold_left]. replace (seen ++ (u, v) :: edges)
        with ((seen ++ [(u, v)]) ++ edges) by (rewrite <- app_assoc; reflexivity).
      apply IH. destruct Hinv as [Hnode Hlisted].
      assert (Hadj : forall r, adjacent (seen ++ [(u, v)]) w r
                <-> adjacent seen w r \/ (w = u /\ r = v) \/ (w = v /\ r = u)).
      { intros r. unfold adjacent.
        rewrite !elem_of_app, !list_elem_of_singleton.
        split.
        - intros [[H|[= -> ->]]|[H|[= -> ->]]]; auto.
        - intros [[H|H]|[[-> ->]|[-> ->]]]; auto. }
      split.
      + rewrite add_edge_node, Hnode. setoid_rewrite Hadj. split.
        * intros [[r Hr]|[->| ->]]; eauto 6.
        * intros [r [Hr|[[-> _]|[-> _]]]]; eauto.
      + intros r. rewrite add_edge_listed, Hlisted, Hadj. reflexivity. }
  apply (H [] []). split.
  - split.
    + intros [nbrs Hg]. discriminate.
    + intros [r [Hr|Hr]]; apply elem_of_nil in Hr; destruct Hr.
  - intros r. split.
    + intros (nbrs & Hg & _). discriminate.
    + intros [Hr|Hr]; apply elem_of_nil in Hr; destruct Hr.
Qed.

End GraphLemmas.

Section Regions.
Import Utils Spec.

Variables (colors : list colour) (edges : list (nat * nat)).

Lemma same_around_spec (c : colour) (i : nat) :
  same_around colors edges c i = true
  <-> forall r, adjacent edges i r -> colors !! r = Some c.
Proof.
  unfold same_around, adjacent. rewrite forallb_forall. split.
  - intros H r [Hr|Hr]; apply list_elem_of_In in Hr; apply H in Hr;
      cbn [fst snd] in Hr; rewrite Nat.eqb_refl in Hr; cbn [implb] in Hr.
    + apply andb_prop in Hr as [Hr _]. apply bool_decide_eq_true in Hr.
      exact Hr.
    + apply andb_prop in Hr as [_ Hr]. apply bool_decide_eq_true in Hr.
      exact Hr.
  - intros H [u v] He. apply list_elem_of_In in He. cbn [fst snd].
    apply andb_true_intro. split.
    + destruct (Nat.eqb_spec u i) as [->|]; [|reflexivity]. cbn.
      apply bool_decide_eq_true, H. left. exact He.
    + destruct (Nat.eqb_spec v i) as [->|]; [|reflexivity]. cbn.
      apply bool_decide_eq_true, H. right. exact He.
Qed.

(** What [is_contour] returns for a vertex and its ring of neighbours. *)
Lemma is_contour_spec (index : nat) (v_col : colour) (i_ring : list nat)
    (c : bool) :
  colors !! index = Some v_col ->
  (forall r, r ∈ i_ring <-> adjacent edges index r) ->
  is_contour colors index i_ring = Ok c ->
  c = negb (same_around colors edges v_col index).
Proof.
  intros Hcol Hring H. destruct c.
  - symmetry. apply negb_true_iff, not_true_is_false. intros Hsame.
    rewrite same_around_spec in Hsame. unfold is_contour in H.
    assert (Hc : getitem colors index = Ok v_col)
      by (unfold getitem; rewrite Hcol; reflexivity).
    rewrite Hc in H. cbn [mbind result_bind] in H.
    destruct (mapM (getitem colors) i_ring) as [ring_colors|] eqn:Hmap;
      [|discriminate].
    cbn [mbind result_bind] in H. injection H as Hex.
    apply mapM_ok_inv in Hmap. apply existsb_exists in Hex as (rc & Hin & Hne).
    apply list_elem_of_In, list_elem_of_lookup in Hin as [j Hj].
    destruct (Forall2_lookup_r _ _ _ _ _ Hmap Hj) as (r & Hr & Hget).
    apply list_elem_of_lookup_2, Hring, Hsame in Hr.
    unfold getitem in Hget. rewrite Hr in Hget. cbn in Hget.
    injection Hget as <-. rewrite colour_eqb_refl in Hne. discriminate.
  - symmetry. apply negb_false_iff, same_around_spec. intros r Hr.
    apply Hring in Hr.
    pose proof (is_contour_false colors index v_col i_ring Hcol H) as Hall.
    apply (proj1 (Forall_forall _ _) Hall r Hr).
Qed.

Lemma region_upto_S (c : colour) (j : nat) :
  region_upto colors edges c (S j)
  = Bucket (feature (region_upto colors edges c j)
            ++ (if interior colors edges c j then [j] else []))
           (contour (region_upto colors edges c j)
            ++ (if border colors edges c j then [j] else [])).
Proof.
  unfold region_upto. cbn [feature contour].
  rewrite seq_S, !List.filter_app. cbn [List.filter Nat.add]. reflexivity.
Qed.

Lemma bucket_upto_other (c v_col : colour) (j : nat) :
  colors !! j = Some v_col -> v_col <> c ->
  bucket_upto colors edges (S j) c = bucket_upto colors edges j c.
Proof.
  intros Hcol Hne. unfold bucket_upto. cbv zeta. rewrite region_upto_S.
  unfold interior, border.
  rewrite bool_decide_eq_false_2 by (rewrite Hcol; congruence).
  cbn [andb feature contour]. rewrite !app_nil_r.
  destruct (region_upto colors edges c j); reflexivity.
Qed.

Lemma bucket_upto_own (v_col : colour) (j : nat) :
  colors !! j = Some v_col ->
  bucket_upto colors edges (S j) v_col
  = Some (let b := region_upto colors edges v_col j in
          if negb (same_around colors edges v_col j)
          then Bucket (feature b) (contour b ++ [j])
          else Bucket (feature b ++ [j]) (contour b)).
Proof.
  intros Hcol. unfold bucket_upto. cbv zeta. rewrite region_upto_S.
  unfold interior, border. rewrite bool_decide_eq_true_2 by exact Hcol.
  cbn [andb]. destruct (same_around colors edges v_col j);
    cbn [negb feature contour]; rewrite ?app_nil_r.
  - destruct (feature (region_upto colors edges v_col j)); reflexivity.
  - destruct (feature (region_upto colors edges v_col j)) as [|x l];
      [|reflexivity].
    cbn [app]. destruct (contour (region_upto colors edges v_col j));
      reflexivity.
Qed.

Lemma bucket_upto_None (c : colour) (j : nat) :
  bucket_upto colors edges j c = None ->
  region_upto colors edges c j = Bucket [] [].
Proof.
  unfold bucket_upto. cbv zeta.
  destruct (region_upto colors edges c j) as [f k]. cbn [feature contour].
  destruct f; [|discriminate]. destruct k; [reflexivity|discriminate].
Qed.

Lemma bucket_upto_Some (c : colour) (j : nat) (b : bucket) :
  bucket_upto colors edges j c = Some b ->
  region_upto colors edges c j = b.
Proof.
  unfold bucket_upto. cbv zeta.
  destruct (feature _ ++ contour _); [discriminate|]. congruence.
Qed.

Lemma classify_first_pass (index : nat) (v_col : colour) (i_ring : list nat)
    (features features' : dict colour bucket) :
  colors !! index = Some v_col ->
  (forall r, r ∈ i_ring <-> adjacent edges index r) ->
  first_pass colors edges index features ->
  classify colors index v_col i_ring features = Ok features' ->
  first_pass colors edges (S index) features'.
Proof.
  intros Hcol Hring [Hnd Hget] Hcl. unfold classify in Hcl.
  set (F0 := match dict_get colour_eqb features v_col with
             | Some _ => features
             | None => features ++ [(v_col, Bucket [] [])]
             end) in Hcl.
  assert (H0 : NoDup (dict_keys F0)
               /\ dict_get colour_eqb F0 v_col
                  = Some (region_upto colors edges v_col index)
               /\ forall c, v_col <> c ->
                    dict_get colour_eqb F0 c = dict_get colour_eqb features c).
  { subst F0. destruct (dict_get colour_eqb features v_col) as [b|] eqn:Hb.
    - split; [exact Hnd|]. split; [|reflexivity].
      rewrite Hb. f_equal. symmetry. apply bucket_upto_Some.
      rewrite <- Hget. exact Hb.
    - split; [|split].
      + unfold dict_keys. rewrite fmap_app. apply NoDup_app.
        split; [exact Hnd|]. split; [|apply NoDup_singleton].
        intros k Hk Hk'. apply list_elem_of_singleton in Hk'. subst k.
        apply (get_None colour_eqb colour_eqb_eq) in Hb. apply Hb, Hk.
      + rewrite (get_snoc colour_eqb colour_eqb_eq) by exact Hb.
        rewrite colour_eqb_refl. rewrite Hget in Hb.
        apply bucket_upto_None in Hb. rewrite Hb. reflexivity.
      + intros c Hne. rewrite (get_snoc colour_eqb colour_eqb_eq) by exact Hb.
        rewrite colour_eqb_neq by exact Hne. reflexivity. }
  destruct H0 as (Hnd0 & Hown & Hother).
  destruct (is_contour colors index i_ring) as [c|] eqn:Hc; [|discriminate].
  cbn [mbind result_bind] in Hcl. rewrite Hown in Hcl.
  cbn [or_raise mbind result_bind] in Hcl. injection Hcl as <-.
  apply (is_contour_spec index v_col i_ring c Hcol Hring) in Hc. subst c.
  split.
  - rewrite (keys_set colour_eqb colour_eqb_eq); [exact Hnd0|].
    destruct (decide (v_col ∈ dict_keys F0)) as [Hin|Hni]; [exact Hin|].
    apply (get_None colour_eqb colour_eqb_eq) in Hni. congruence.
  - intros c. destruct (decide (v_col = c)) as [<-|Hne].
    + rewrite (get_set_eq colour_eqb colour_eqb_eq).
      rewrite (bucket_upto_own v_col index Hcol). reflexivity.
    + rewrite (get_set_ne colour_eqb colour_eqb_eq) by exact Hne.
      rewrite (Hother c Hne), Hget.
      symmetry. apply (bucket_upto_other c v_col index Hcol Hne).
Qed.

Lemma classify_all_first_pass (todo : list (colour * list nat)) (index : nat)
    (features features' : dict colour bucket) :
  (forall j p, todo !! j = Some p ->
     colors !! (index + j) = Some p.1
     /\ forall r, r ∈ p.2 <-> adjacent edges (index + j) r) ->
  first_pass colors edges index features ->
  classify_all colors index todo features = Ok features' ->
  first_pass colors edges (index + length todo) features'.
Proof.
  revert index features.
  induction todo as [|[v_col i_ring] todo IH]; intros index features Htodo Hinv Hcl.
  - cbn in Hcl. injection Hcl as <-. cbn. rewrite Nat.add_0_r. exact Hinv.
  - cbn [classify_all] in Hcl.
    destruct (classify colors index v_col i_ring features) as [F1|] eqn:H1;
      [|discriminate].
    cbn [mbind result_bind] in Hcl.
    destruct (Htodo 0 (v_col, i_ring) eq_refl) as [Hc Hr].
    rewrite Nat.add_0_r in Hc, Hr. cbn [fst snd] in Hc, Hr.
    cbn [length]. replace (index + S (length todo))
      with (S index + length todo) by lia.
    apply (IH (S index) F1); [| |exact Hcl].
    + intros j p Hj. specialize (Htodo (S j) p Hj).
      replace (S index + j) with (index + S j) by lia. exact Htodo.
    + apply (classify_first_pass index v_col i_ring features); assumption.
Qed.

End Regions.

Section RegionsOfSegment.
Import Utils Spec.

Variables (colors : list colour) (edges : list (nat * nat)).

Let n : nat := length colors.

(** The inner loop of the absorption pass returns at its first vertex
    with the buckets as they were. *)
Lemma absorb_vertices_returns (rings : list (list nat)) (key : colour)
    (idxs : list nat) (features : dict colour bucket) :
  Forall (uniform_ring colors rings key) idxs ->
  (forall idx ring, rings !! idx = Some ring -> ring <> []) ->
  absorb_vertices colors rings key idxs features = Ok features.
Proof.
  intros Hall Hne. destruct idxs as [|idx rest]; cbn [absorb_vertices];
    [reflexivity|].
  inversion Hall as [|? ? (ring & Hring & Hcols) _]; subst.
  assert (Hr : getitem rings idx = Ok ring)
    by (unfold getitem; rewrite Hring; reflexivity).
  rewrite Hr. cbn [mbind result_bind].
  rewrite (mapM_ok_fmap (getitem colors) (fun _ => key)).
  2:{ eapply Forall_impl; [exact Hcols|]. intros ri Hri. cbn beta.
      unfold getitem. rewrite Hri. reflexivity. }
  cbn [mbind result_bind].
  rewrite (const_fmap (fun _ => key) ring key) by reflexivity.
  specialize (Hne idx ring Hring).
  destruct ring as [|r0 ring]; [congruence|]. cbn [length].
  rewrite most_common_same. cbn [mbind result_bind].
  rewrite colour_eqb_refl. reflexivity.
Qed.

Lemma absorb_bucket_returns (rings : list (list nat)) (key : colour)
    (features : dict colour bucket) (el : list colour) :
  features_uniform colors rings features ->
  (forall idx ring, rings !! idx = Some ring -> ring <> []) ->
  is_Some (dict_get colour_eqb features key) ->
  absorb_bucket colors rings key (features, el)
  = Ok (features, if small features key then el ++ [key] else el).
Proof.
  intros Hinv Hne [feat Hfeat]. unfold absorb_bucket, small. rewrite Hfeat.
  cbn [or_raise mbind result_bind].
  destruct (length (feature feat) <? 3); [|reflexivity].
  rewrite absorb_vertices_returns by (auto; apply (Hinv key feat Hfeat)).
  reflexivity.
Qed.

Lemma absorb_all_returns (rings : list (list nat)) (keys : list colour)
    (features : dict colour bucket) (el : list colour) :
  features_uniform colors rings features ->
  (forall idx ring, rings !! idx = Some ring -> ring <> []) ->
  Forall (fun key => is_Some (dict_get colour_eqb features key)) keys ->
  for_each (absorb_bucket colors rings) keys (features, el)
  = Ok (features, el ++ List.filter (small features) keys).
Proof.
  intros Hinv Hne Hkeys. revert el.
  induction Hkeys as [|key keys Hkey _ IH]; intros el.
  - cbn. rewrite app_nil_r. reflexivity.
  - cbn [for_each List.filter].
    rewrite (absorb_bucket_returns rings key features el Hinv Hne Hkey).
    cbn [mbind result_bind]. rewrite IH.
    destruct (small features key); [rewrite <- app_assoc|]; reflexivity.
Qed.

Section Rings.
Variable rings : list (list nat).
Hypothesis Hrings :
  mapM (one_ring (from_edgelist edges)) (seq 0 n) = Ok rings.

Lemma rings_length : length rings = n.
Proof.
  apply mapM_ok_inv, Forall2_length in Hrings.
  rewrite length_seq in Hrings. congruence.
Qed.

Lemma rings_adjacent (j : nat) (ring : list nat) :
  rings !! j = Some ring ->
  ring <> [] /\ forall r, r ∈ ring <-> adjacent edges j r.
Proof.
  intros Hj. pose proof (mapM_ok_inv _ _ _ Hrings) as Hall.
  destruct (Forall2_lookup_r _ _ _ _ _ Hall Hj) as (i & Hi & Hone).
  apply lookup_seq in Hi as [-> _]. cbn [Nat.add] in Hone.
  unfold one_ring in Hone.
  destruct (dict_get Nat.eqb (from_edgelist edges) j) as [nbrs|] eqn:Hg;
    [|discriminate].
  cbn in Hone. injection Hone as ->.
  destruct (from_edgelist_spec edges j) as [Hnode Hlisted].
  assert (Hmem : forall r, r ∈ ring <-> adjacent edges j r).
  { intros r. rewrite <- Hlisted. unfold listed. rewrite Hg. split.
    - intros Hr. eauto.
    - intros (nbrs & [= <-] & Hr). exact Hr. }
  split; [|exact Hmem].
  destruct (proj1 Hnode) as [r Hr]; [exists ring; exact Hg|].
  apply Hmem in Hr. intros ->. apply elem_of_nil in Hr. exact Hr.
Qed.

Lemma todo_spec (index : nat) (j : nat) (p : colour * list nat) :
  zip colors rings !! j = Some p ->
  colors !! j = Some p.1 /\ rings !! j = Some p.2.
Proof.
  intros Hj. apply lookup_zip_with_Some in Hj as (c & r & -> & Hc & Hr).
  auto.
Qed.

(** Once the rings are at hand and the first pass has returned, the
    function returns: the absorption pass changes no bucket and removes
    the small ones. *)
Lemma segment_core (features : dict colour bucket) :
  classify_all colors 0 (zip colors rings) [] = Ok features ->
  first_pass colors edges n features
  /\ segment colors edges
     = Ok (fold_left (dict_pop colour_eqb)
             (List.filter (small features) (dict_keys features)) features).
Proof.
  intros HF.
  assert (Hfirst : first_pass colors edges n features).
  { replace n with (0 + length (zip colors rings))
      by (rewrite length_zip, rings_length; unfold n; lia).
    apply (classify_all_first_pass colors edges (zip colors rings) 0 []);
      [| |exact HF].
    - intros j p Hj. apply (todo_spec 0) in Hj as [Hc Hr]. cbn [Nat.add].
      split; [exact Hc|]. apply (rings_adjacent j p.2 Hr).
    - split; [constructor|]. intros c. reflexivity. }
  split; [exact Hfirst|].
  assert (Hinv : features_uniform colors rings features).
  { apply (classify_all_uniform colors rings (zip colors rings) 0 [] features);
      [| |exact HF].
    - intros j p Hj. apply (todo_spec 0) in Hj. exact Hj.
    - intros key b Hb. discriminate. }
  unfold segment. fold n. rewrite Hrings. cbn [mbind result_bind].
  rewrite HF. cbn [mbind result_bind].
  rewrite (absorb_all_returns rings (dict_keys features) features []).
  - reflexivity.
  - exact Hinv.
  - intros idx ring Hr. apply (rings_adjacent idx ring Hr).
  - apply Forall_forall. intros key Hkey.
    destruct (dict_get colour_eqb features key) eqn:E; [eauto|].
    apply (get_None colour_eqb colour_eqb_eq) in E. contradiction.
Qed.

End Rings.

(** The buckets left once the small ones are popped. *)
Lemma popped_small (features : dict colour bucket) (c : colour) :
  first_pass colors edges n features ->
  let result :=
    fold_left (dict_pop colour_eqb)
      (List.filter (small features) (dict_keys features)) features in
  NoDup (dict_keys result)
  /\ dict_get colour_eqb result c
     = (let b := region colors edges c in
        if 3 <=? length (feature b) then Some b else None).
Proof.
  intros [Hnd Hget]. cbv zeta.
  destruct (get_pops colour_eqb colour_eqb_eq
              (List.filter (small features) (dict_keys features)) features c
              Hnd) as [Hnd' Hpop].
  split; [exact Hnd'|]. rewrite Hpop.
  assert (Hex : Exists (fun k => colour_eqb k c = true)
                  (List.filter (small features) (dict_keys features))
                <-> small features c = true).
  { rewrite Exists_exists. split.
    - intros (k & Hk & E). apply colour_eqb_eq in E. subst k.
      apply list_elem_of_In, filter_In in Hk as [_ Hk]. exact Hk.
    - intros Hs. exists c. split; [|apply colour_eqb_refl].
      apply list_elem_of_In, filter_In. split; [|exact Hs].
      apply list_elem_of_In. unfold small in Hs.
      destruct (dict_get colour_eqb features c) eqn:E; [|discriminate].
      destruct (decide (c ∈ dict_keys features)) as [Hin|Hni]; [exact Hin|].
      apply (get_None colour_eqb colour_eqb_eq) in Hni. congruence. }
  rewrite (bool_decide_ext _ _ Hex). unfold small. rewrite Hget.
  unfold region. fold n.
  destruct (bucket_upto colors edges n c) as [b|] eqn:Hb.
  - apply (bucket_upto_Some colors edges) in Hb. rewrite Hb. cbv zeta.
    rewrite Nat.ltb_antisym.
    destruct (3 <=? length (feature b)); reflexivity.
  - apply (bucket_upto_None colors edges) in Hb. rewrite Hb. reflexivity.
Qed.

Lemma segment_inv (result : dict colour bucket) :
  segment colors edges = Ok result ->
  exists rings features,
    mapM (one_ring (from_edgelist edges)) (seq 0 n) = Ok rings
    /\ classify_all colors 0 (zip colors rings) [] = Ok features.
Proof.
  unfold segment. fold n. intros H.
  destruct (mapM (one_ring (from_edgelist edges)) (seq 0 n)) as [rings|]
    eqn:Hr; [|discriminate].
  cbn [mbind result_bind] in H.
  destruct (classify_all colors 0 (zip colors rings) []) as [features|]
    eqn:HF; [|discriminate].
  exists rings, features. split; [reflexivity | exact HF].
Qed.

(** Whenever the function returns, the dictionary holds, for every
    colour with at least three interior vertices, the region of that
    colour, and nothing else. *)
Lemma segment_regions (result : dict colour bucket) :
  segment colors edges = Ok result ->
  NoDup (dict_keys result)
  /\ forall c,
       dict_get colour_eqb result c
       = (let b := region colors edges c in
          if 3 <=? length (feature b) then Some b else None).
Proof.
  intros H. destruct (segment_inv result H) as (rings & features & Hr & HF).
  destruct (segment_core rings Hr features HF) as [Hfirst Hseg].
  rewrite Hseg in H. injection H as <-.
  split; [apply (popped_small features [] Hfirst) |].
  intros c. apply (popped_small features c Hfirst).
Qed.

End RegionsOfSegment.

Section SegmentationReturns.
Import Utils Spec.

Variables (colors : list colour) (edges_unique : list (nat * nat)).

Let n : nat := length colors.

Lemma classify_all_returns (todo : list (colour * list nat)) (index : nat)
    (features : dict colour bucket) :
  (forall j p, todo !! j = Some p ->
     index + j < n /\ Forall (fun r => r < n) p.2) ->
  exists features', classify_all colors index todo features = Ok features'.
Proof.
  revert index features.
  induction todo as [|[v_col i_ring] todo IH]; intros index features Htodo;
    [eexists; reflexivity|].
  destruct (Htodo 0 (v_col, i_ring) eq_refl) as [Hi Hring].
  rewrite Nat.add_0_r in Hi. cbn [snd] in Hring.
  cbn [classify_all]. unfold classify.
  set (F0 := match dict_get colour_eqb features v_col with
             | Some _ => features
             | None => features ++ [(v_col, Bucket [] [])]
             end).
  assert (Hown : exists b, dict_get colour_eqb F0 v_col = Some b).
  { subst F0. destruct (dict_get colour_eqb features v_col) as [b|] eqn:Hb;
      [eauto|].
    rewrite (get_snoc colour_eqb colour_eqb_eq) by exact Hb.
    rewrite colour_eqb_refl. eauto. }
  destruct Hown as [b Hb].
  assert (Hc : exists c, is_contour colors index i_ring = Ok c).
  { unfold is_contour.
    destruct (lookup_lt_is_Some_2 colors index Hi) as [ci Hci].
    assert (Hg : getitem colors index = Ok ci)
      by (unfold getitem; rewrite Hci; reflexivity).
    rewrite Hg. cbn [mbind result_bind].
    destruct (mapM (getitem colors) i_ring) as [rcs|] eqn:Hmap;
      [eexists; reflexivity|].
    assert (Hok : is_ok (mapM (getitem colors) i_ring) = true).
    { apply mapM_is_ok. eapply Forall_impl; [exact Hring|].
      intros r Hr. apply getitem_ok_iff. exact Hr. }
    rewrite Hmap in Hok. discriminate. }
  destruct Hc as [c Hc]. rewrite Hc. cbn [mbind result_bind].
  rewrite Hb. cbn [or_raise mbind result_bind].
  apply IH. intros j p Hj. specialize (Htodo (S j) p Hj).
  replace (S index + j) with (index + S j) by lia. exact Htodo.
Qed.

(** X1. On a mesh whose unique edges join
    vertices of the mesh and leave no vertex alone, the segmentation
    returns, and what it returns is read off the colours: a colour has a
    bucket exactly when at least three of its vertices have neighbours of
    that colour only; the bucket's feature list holds those vertices, its
    contour list the vertices of the colour with a neighbour of another
    colour, both in increasing order; no colour has two buckets. (The
    colours of fewer than three interior vertices lose their bucket, and
    their vertices with it: no vertex is moved to another bucket.) *)
Theorem segmentation_regions :
  Forall (fun e : nat * nat => e.1 < n /\ e.2 < n) edges_unique ->
  (forall i, i < n -> exists r, adjacent edges_unique i r) ->
  exists result,
    extract_feature_and_contour_from_colour (Trimesh colors edges_unique)
    = Ok result
    /\ NoDup (dict_keys result)
    /\ forall c,
         dict_get colour_eqb result c
         = (let b := region colors edges_unique c in
            if 3 <=? length (feature b) then Some b else None).
Proof.
  intros Hedges Hnodes. cbn [extract_feature_and_contour_from_colour].
  assert (Hrings : exists rings,
             mapM (one_ring (from_edgelist edges_unique)) (seq 0 n)
             = Ok rings).
  { apply is_ok_true, mapM_is_ok, Forall_forall. intros i Hi.
    apply elem_of_seq in Hi.
    destruct (proj2 (proj1 (from_edgelist_spec edges_unique i)))
      as [nbrs Hg]; [apply Hnodes; lia|].
    unfold one_ring. rewrite Hg. reflexivity. }
  destruct Hrings as [rings Hrings].
  destruct (classify_all_returns (zip colors rings) 0 []) as [features HF].
  { intros j p Hj.
    apply (todo_spec colors rings 0) in Hj as [Hc Hr].
    apply lookup_lt_Some in Hc. split; [exact Hc|].
    destruct (rings_adjacent colors edges_unique rings Hrings j p.2 Hr)
      as [_ Hmem].
    apply Forall_forall. intros r Hin. apply Hmem in Hin.
    destruct Hin as [Hin|Hin];
      apply (proj1 (Forall_forall _ _) Hedges) in Hin; cbn in Hin; lia. }
  destruct (segment_core colors edges_unique rings Hrings features HF)
    as [Hfirst Hseg].
  eexists. split; [exact Hseg|].
  split; [apply (popped_small colors edges_unique features [] Hfirst)|].
  intros c. apply (popped_small colors edges_unique features c Hfirst).
Qed.

(** X2. A vertex that is on no edge is not
    a node of the graph built from the edges: looking up its one-ring
    raises [KeyError], before any vertex is classified. *)
Theorem segmentation_isolated_vertex (i : nat) :
  i < n -> (forall r, ~ adjacent edges_unique i r) ->
  extract_feature_and_contour_from_colour (Trimesh colors edges_unique)
  = Raise KeyError.
Proof.
  intros Hi Halone. cbn [extract_feature_and_contour_from_colour].
  unfold segment. fold n.
  rewrite (mapM_raise _ _ KeyError); [reflexivity| |].
  - apply Forall_forall. intros j _. unfold one_ring.
    destruct (dict_get Nat.eqb (from_edgelist edges_unique) j); cbn; auto.
  - apply Exists_exists. exists i. split; [apply elem_of_seq; lia|].
    unfold one_ring.
    destruct (dict_get Nat.eqb (from_edgelist edges_unique) i) as [nbrs|]
      eqn:Hg; [|reflexivity].
    destruct (proj1 (proj1 (from_edgelist_spec edges_unique i)))
      as [r Hr]; [exists nbrs; exact Hg|].
    destruct (Halone r Hr).
Qed.

End SegmentationReturns.

(** A tetrahedron of one colour: one bucket, four feature vertices. *)
Lemma segmentation_regions_witness :
  exists result,
    Utils.extract_feature_and_contour_from_colour
      (Utils.Trimesh (replicate 4 [0; 0; 255; 255]%Z)
         [(0, 1); (0, 2); (1, 2); (1, 3); (2, 3); (0, 3)])
    = Ok result
    /\ NoDup (Utils.dict_keys result)
    /\ forall c,
         Utils.dict_get Utils.colour_eqb result c
         = (let b :=
              Spec.region (replicate 4 [0; 0; 255; 255]%Z)
                [(0, 1); (0, 2); (1, 2); (1, 3); (2, 3); (0, 3)] c in
            if 3 <=? length (Utils.feature b) then Some b else None).
Proof.
  apply segmentation_regions.
  - repeat constructor; cbn; lia.
  - intros i Hi. cbn in Hi. unfold Spec.adjacent.
    destruct i as [|[|[|[|i]]]];
      [exists 1; left|exists 0; right|exists 0; right|exists 0; right|lia];
      apply list_elem_of_In; cbn; tauto.
Defined.

(** A triangle and a fourth vertex on no edge. *)
Lemma segmentation_isolated_vertex_witness :
  Utils.extract_feature_and_contour_from_colour
    (Utils.Trimesh (replicate 4 [0; 0; 255; 255]%Z) [(0, 1); (0, 2); (1, 2)])
  = Raise KeyError.
Proof.
  apply (segmentation_isolated_vertex _ _ 3).
  - cbn. lia.
  - intros r [H|H]; apply list_elem_of_In in H; cbn in H;
      intuition congruence.
Defined.

(** *** Two runs on one mesh *)

Section Determinism.
Import Utils Spec.

(** A loop whose body raises nothing but [e] raises [e] or returns. *)
Lemma mapM_only {A B} (f : A -> result B) (xs : list A) (e : exn) :
  Forall (fun x => is_ok (f x) = true \/ f x = Raise e) xs ->
  is_ok (mapM f xs) = false -> mapM f xs = Raise e.
Proof.
  induction 1 as [|x xs Hx _ IH]; cbn [mapM]; [discriminate|].
  destruct (f x) as [y|e'] eqn:Hy; cbn [mbind result_bind].
  - destruct (mapM f xs) as [ys|e'] eqn:Hys; cbn; [discriminate|].
    intros _. rewrite IH by reflexivity. reflexivity.
  - intros _. destruct Hx as [Hx|Hx]; [discriminate Hx|].
    injection Hx as ->. reflexivity.
Qed.

Lemma mapM_same_ok {A B C} (f : A -> result B) (g : A -> result C)
    (xs ys : list A) :
  (Forall (fun x => is_ok (f x) = true) xs
   <-> Forall (fun y => is_ok (g y) = true) ys) ->
  is_ok (mapM f xs) = is_ok (mapM g ys).
Proof.
  intros H. apply eq_true_iff_eq. rewrite !mapM_is_ok. exact H.
Qed.

Variable colors : list colour.

(** Whether a vertex is on a contour depends on the members of its
    ring, not on the order they are listed in. *)
Lemma is_contour_members (center_index : nat) (ring1 ring2 : list nat) :
  (forall r, r ∈ ring1 <-> r ∈ ring2) ->
  is_contour colors center_index ring1 = is_contour colors center_index ring2.
Proof.
  intros Hmem. unfold is_contour.
  destruct (getitem colors center_index) as [center_color|e];
    [|reflexivity].
  cbn [mbind result_bind].
  assert (Hok : is_ok (mapM (getitem colors) ring1)
                = is_ok (mapM (getitem colors) ring2)).
  { apply mapM_same_ok. rewrite !Forall_forall. split; intros H r Hr;
      apply H, Hmem, Hr. }
  assert (Hraise : forall ring,
             Forall (fun r => is_ok (getitem colors r) = true
                              \/ getitem colors r = Raise IndexError) ring).
  { intros ring. apply Forall_forall. intros r _. unfold getitem.
    destruct (colors !! r); cbn; auto. }
  assert (Hval : forall ring rcs,
             mapM (getitem colors) ring = Ok rcs ->
             rcs = (fun r => nth r colors []) <$> ring).
  { intros ring rcs Hrcs.
    assert (Hall : Forall (fun r => getitem colors r = Ok (nth r colors []))
                     ring).
    { apply Forall_forall. intros r Hr.
      assert (Hin : is_ok (getitem colors r) = true).
      { apply (proj1 (Forall_forall _ _)
                 (proj1 (mapM_is_ok (getitem colors) ring)
                    (proj2 (is_ok_true _) (ex_intro _ rcs Hrcs))) r Hr). }
      unfold getitem in Hin |- *. rewrite nth_lookup.
      destruct (colors !! r); [reflexivity|discriminate Hin]. }
    rewrite (mapM_ok_fmap _ _ _ Hall) in Hrcs. congruence. }
  destruct (mapM (getitem colors) ring1) as [rcs1|e1] eqn:H1;
    destruct (mapM (getitem colors) ring2) as [rcs2|e2] eqn:H2;
    try discriminate Hok; cbn [mbind result_bind].
  - f_equal. rewrite (Hval ring1 rcs1 H1), (Hval ring2 rcs2 H2).
    apply eq_true_iff_eq. rewrite !existsb_exists. split.
    + intros (c & Hc & Hneq). apply list_elem_of_In in Hc.
      apply list_elem_of_fmap in Hc as (r & -> & Hr). eexists. split; [|exact Hneq].
      apply list_elem_of_In, list_elem_of_fmap. exists r.
      split; [reflexivity|]. apply Hmem, Hr.
    + intros (c & Hc & Hneq). apply list_elem_of_In in Hc.
      apply list_elem_of_fmap in Hc as (r & -> & Hr). eexists. split; [|exact Hneq].
      apply list_elem_of_In, list_elem_of_fmap. exists r.
      split; [reflexivity|]. apply Hmem, Hr.
  - pose proof (mapM_only _ ring1 IndexError (Hraise ring1)) as E1.
    pose proof (mapM_only _ ring2 IndexError (Hraise ring2)) as E2.
    rewrite H1 in E1. rewrite H2 in E2.
    specialize (E1 eq_refl). specialize (E2 eq_refl).
    injection E1 as ->. injection E2 as ->. reflexivity.
Qed.

Lemma classify_all_members (rings1 rings2 : list (list nat)) :
  Forall2 (fun ring1 ring2 => forall r, r ∈ ring1 <-> r ∈ ring2)
    rings1 rings2 ->
  forall (cs : list colour) (index : nat) (features : dict colour bucket),
    classify_all colors index (zip cs rings1) features
    = classify_all colors index (zip cs rings2) features.
Proof.
  induction 1 as [|ring1 ring2 rings1 rings2 Hmem _ IH];
    intros cs index features; destruct cs as [|c cs]; try reflexivity.
  cbn [zip zip_with classify_all]. unfold classify.
  rewrite (is_contour_members index ring1 ring2 Hmem).
  destruct (is_contour colors index ring2) as [b|e]; [|reflexivity].
  cbn [mbind result_bind].
  destruct (or_raise KeyError _) as [bk|e]; [|reflexivity].
  cbn [mbind result_bind]. apply IH.
Qed.

Variables edges1 edges2 : list (nat * nat).
Hypothesis Hadjacent : forall i r, adjacent edges1 i r <-> adjacent edges2 i r.

Lemma one_ring_same_ok (i : nat) :
  is_ok (one_ring (from_edgelist edges1) i) = true
  <-> is_ok (one_ring (from_edgelist edges2) i) = true.
Proof.
  assert (H : forall edges,
             is_ok (one_ring (from_edgelist edges) i) = true
             <-> exists r, adjacent edges i r).
  { intros edges. rewrite <- (proj1 (from_edgelist_spec edges i)).
    unfold one_ring, node.
    destruct (dict_get Nat.eqb (from_edgelist edges) i) as [nbrs|]; cbn.
    - split; eauto.
    - split; [discriminate|]. intros [nbrs Hn]. discriminate Hn. }
  rewrite !H. split; intros [r Hr]; exists r; apply Hadjacent, Hr.
Qed.

Lemma one_ring_raises (edges : list (nat * nat)) (xs : list nat) :
  Forall (fun i => is_ok (one_ring (from_edgelist edges) i) = true
                   \/ one_ring (from_edgelist edges) i = Raise KeyError) xs.
Proof.
  apply Forall_forall. intros i _. unfold one_ring.
  destruct (dict_get Nat.eqb (from_edgelist edges) i); cbn; auto.
Qed.

Lemma segment_adjacency : segment colors edges1 = segment colors edges2.
Proof.
  set (n := length colors).
  assert (Hok : is_ok (mapM (one_ring (from_edgelist edges1)) (seq 0 n))
                = is_ok (mapM (one_ring (from_edgelist edges2)) (seq 0 n))).
  { apply mapM_same_ok. rewrite !Forall_forall.
    split; intros H i Hi; apply one_ring_same_ok, H, Hi. }
  destruct (mapM (one_ring (from_edgelist edges1)) (seq 0 n))
    as [rings1|e1] eqn:H1;
    destruct (mapM (one_ring (from_edgelist edges2)) (seq 0 n))
      as [rings2|e2] eqn:H2;
    try discriminate Hok.
  - assert (Hmem : Forall2 (fun ring1 ring2 =>
                              forall r, r ∈ ring1 <-> r ∈ ring2)
                     rings1 rings2).
    { apply Forall2_same_length_lookup_2.
      - rewrite (rings_length colors edges1 rings1 H1).
        rewrite (rings_length colors edges2 rings2 H2). reflexivity.
      - intros i ring1 ring2 Hr1 Hr2 r.
        destruct (rings_adjacent colors edges1 rings1 H1 i ring1 Hr1)
          as [_ Hm1].
        destruct (rings_adjacent colors edges2 rings2 H2 i ring2 Hr2)
          as [_ Hm2].
        rewrite Hm1, Hm2. apply Hadjacent. }
    pose proof (classify_all_members rings1 rings2 Hmem colors 0 [])
      as Hsame.
    destruct (classify_all colors 0 (zip colors rings1) [])
      as [features|e] eqn:HF.
    + symmetry in Hsame.
      destruct (segment_core colors edges1 rings1 H1 features HF)
        as [_ ->].
      destruct (segment_core colors edges2 rings2 H2 features Hsame)
        as [_ ->].
      reflexivity.
    + unfold segment. fold n. rewrite H1, H2. cbn [mbind result_bind].
      rewrite HF, <- Hsame. reflexivity.
  - pose proof (mapM_only _ _ KeyError (one_ring_raises edges1 (seq 0 n)))
      as E1.
    pose proof (mapM_only _ _ KeyError (one_ring_raises edges2 (seq 0 n)))
      as E2.
    rewrite H1 in E1. rewrite H2 in E2.
    specialize (E1 eq_refl). specialize (E2 eq_refl).
    injection E1 as ->. injection E2 as ->.
    unfold segment. fold n. rewrite H1, H2. reflexivity.
Qed.

(** C9. Region segmentation is deterministic: on one colouring and one
    adjacency, however the unique edges that describe it are listed (in
    any order, with either end first), two runs give the same outcome:
    the same colour keys in the same order with the same feature and
    contour lists, absorption and removal of small buckets included, or
    the same exception. The order in which a vertex meets its
    neighbours, and with it the tie between colour counts, has no say. *)
Theorem segmentation_deterministic :
  extract_feature_and_contour_from_colour (Trimesh colors edges1)
  = extract_feature_and_contour_from_colour (Trimesh colors edges2)
  /\ extract_feature_and_contour_from_colour (PygData colors edges1)
     = extract_feature_and_contour_from_colour (PygData colors edges2).
Proof. split; apply segment_adjacency. Qed.

End Determinism.

(** The theorem on a blue tetrahedron whose edges are listed in two
    ways. *)
Lemma segmentation_deterministic_witness :
  Utils.extract_feature_and_contour_from_colour
    (Utils.Trimesh (replicate 4 [0; 0; 255; 255]%Z)
       [(0, 1); (0, 2); (0, 3); (1, 2); (1, 3); (2, 3)])
  = Utils.extract_feature_and_contour_from_colour
      (Utils.Trimesh (replicate 4 [0; 0; 255; 255]%Z)
         [(3, 2); (3, 1); (2, 1); (3, 0); (2, 0); (1, 0)])
  /\ Utils.extract_feature_and_contour_from_colour
       (Utils.PygData (replicate 4 [0; 0; 255; 255]%Z)
          [(0, 1); (0, 2); (0, 3); (1, 2); (1, 3); (2, 3)])
     = Utils.extract_feature_and_contour_from_colour
         (Utils.PygData (replicate 4 [0; 0; 255; 255]%Z)
            [(3, 2); (3, 1); (2, 1); (3, 0); (2, 0); (1, 0)]).
Proof.
  apply (segmentation_deterministic (replicate 4 [0; 0; 255; 255]%Z)
           [(0, 1); (0, 2); (0, 3); (1, 2); (1, 3); (2, 3)]
           [(3, 2); (3, 1); (2, 1); (3, 0); (2, 0); (1, 0)]).
  intros i r. unfold Spec.adjacent.
  rewrite !elem_of_cons, !elem_of_nil.
  split; intros H; repeat (destruct H as [H|H]);
    first [contradiction | injection H as -> ->; intuition reflexivity].
Defined.

(** ** Vertex pruning *)

Section Pruning.
Import Utils.

(** C5 (the code at the failing input). Five vertices, the faces
    (0, 1, 2) and (2, 3, 4), vertex 3 to remove: the surviving face
    refers to vertices up to 2 only, the remap table gets three cells,
    and writing the new index of the surviving vertex 4 into it raises
    [IndexError]. *)
Theorem remove_mesh_vertices_unreferenced_survivor {A} (junk : nat -> Z)
    (p0 p1 p2 p3 p4 : A) :
  remove_mesh_vertices junk [p0; p1; p2; p3; p4]
    [(0, 1, 2); (2, 3, 4)]%Z [3%Z]
  = Raise IndexError.
Proof. reflexivity. Qed.


Lemma np_index_out_of_range (n : nat) (i : Z) :
  (i < - Z.of_nat n \/ Z.of_nat n <= i)%Z -> np_index n i = Raise IndexError.
Proof.
  intros H. unfold np_index.
  destruct ((0 <=? i) && (i <? Z.of_nat n))%Z eqn:Hpos; [lia|].
  destruct ((- Z.of_nat n <=? i) && (i <? 0))%Z eqn:Hneg; [lia|]. reflexivity.
Qed.

Lemma np_index_raises (n : nat) (i : Z) (e : exn) :
  np_index n i = Raise e -> e = IndexError.
Proof.
  unfold np_index.
  destruct ((0 <=? i) && (i <? Z.of_nat n))%Z; [discriminate|].
  destruct ((- Z.of_nat n <=? i) && (i <? 0))%Z; [discriminate|]. congruence.
Qed.

Lemma clear_at_out_of_range (mask : list bool) (idxs : list Z) :
  Exists (fun i => (i < - Z.of_nat (length mask) \/ Z.of_nat (length mask) <= i)%Z)
    idxs ->
  clear_at mask idxs = Raise IndexError.
Proof.
  unfold clear_at. revert mask.
  induction idxs as [|i idxs IH]; intros mask Hex; [inversion Hex|].
  cbn [for_each].
  destruct (np_index (length mask) i) as [p|e] eqn:Hp; cbn.
  - apply IH. rewrite length_insert.
    inversion Hex as [? ? Hi|]; subst; [|assumption].
    rewrite np_index_out_of_range in Hp by assumption. discriminate.
  - f_equal. eapply np_index_raises, Hp.
Qed.

Lemma mask_select_all {A} (a : list A) :
  mask_select a (replicate (length a) true) = a.
Proof.
  unfold mask_select. induction a as [|x a IH]; cbn; [reflexivity|].
  f_equal. exact IH.
Qed.

Lemma true_positions_all (n : nat) :
  true_positions (replicate n true) = seq 0 n.
Proof.
  unfold true_positions.
  enough (H : forall (f : nat -> nat),
             concat (imap (fun i (b : bool) => if b then [f i] else [])
                       (replicate n true))
             = f <$> seq 0 n).
  { rewrite (H (fun i => i)). apply list_fmap_id. }
  induction n as [|n IH]; intros f; cbn; [reflexivity|].
  f_equal. rewrite <- fmap_S_seq, <- list_fmap_compose.
  apply (IH (fun i => f (S i))).
Qed.

Lemma count_true_all (n : nat) : count_true (replicate n true) = n.
Proof.
  unfold count_true. induction n as [|n IH]; cbn; [reflexivity|].
  f_equal. exact IH.
Qed.

Lemma fold_max_reaches (top : Z) (cells : list Z) (c : Z) :
  (c <= top)%Z -> Forall (fun x => (x <= top)%Z) cells ->
  c = top \/ top ∈ cells ->
  fold_left Z.max cells c = top.
Proof.
  revert c. induction cells as [|x cells IH]; intros c Hc Hall Hin; cbn.
  - destruct Hin as [Hin|Hin]; [exact Hin | inversion Hin].
  - inversion Hall as [|? ? Hx Hall']; subst. apply IH; [lia | assumption |].
    destruct Hin as [->|Hin]; [left; lia|].
    apply elem_of_cons in Hin as [->|Hin]; [left; lia | right; exact Hin].
Qed.

Lemma array_max_reaches (top : Z) (cells : list Z) :
  Forall (fun x => (x <= top)%Z) cells -> top ∈ cells ->
  array_max cells = Ok top.
Proof.
  intros Hall Hin. destruct cells as [|c cells]; [inversion Hin|]. cbn.
  f_equal. inversion Hall; subst. apply fold_max_reaches; [assumption..|].
  apply elem_of_cons in Hin as [->|Hin]; auto.
Qed.

(** [arr[k:k+d] = arange(k, k+d)] written cell by cell. *)
Lemma assign_at_range (d k : nat) (arr : list Z) :
  k + d <= length arr ->
  exists r,
    assign_at arr (seq k d) (Z.of_nat <$> seq k d) = Ok r
    /\ length r = length arr
    /\ forall i, r !! i = if decide (k <= i < k + d) then Some (Z.of_nat i)
                          else arr !! i.
Proof.
  unfold assign_at. revert k arr.
  induction d as [|d IH]; intros k arr Hlen.
  - exists arr. split; [reflexivity|]. split; [reflexivity|].
    intros i. case_decide; [lia | reflexivity].
  - cbn [seq fmap list_fmap zip_with for_each]. cbv beta iota.
    destruct (Nat.ltb_spec k (length arr)) as [_|]; [|lia].
    cbn [mbind result_bind].
    destruct (IH (S k) (<[k := Z.of_nat k]> arr)) as (r & Hr & Hlr & Hi).
    { rewrite length_insert. lia. }
    exists r. split; [exact Hr|]. split.
    { rewrite Hlr. apply length_insert. }
    intros i. rewrite Hi. repeat case_decide; try lia; try reflexivity.
    + destruct (decide (i = k)) as [->|Hne].
      * apply list_lookup_insert_eq. lia.
      * lia.
    + apply list_lookup_insert_ne. lia.
Qed.

Lemma assign_at_all (arr : list Z) :
  assign_at arr (seq 0 (length arr)) (Z.of_nat <$> seq 0 (length arr))
  = Ok (Z.of_nat <$> seq 0 (length arr)).
Proof.
  destruct (assign_at_range (length arr) 0 arr) as (r & -> & Hlr & Hi); [lia|].
  f_equal. apply list_eq. intros i. rewrite Hi, list_lookup_fmap.
  case_decide as Hin.
  - rewrite lookup_seq_lt by lia. reflexivity.
  - rewrite lookup_seq_ge by lia. cbn. apply lookup_ge_None. lia.
Qed.

Lemma take_at_identity (n : nat) (c : Z) :
  (0 <= c < Z.of_nat n)%Z -> take_at (Z.of_nat <$> seq 0 n) c = Ok c.
Proof.
  intros Hc. unfold take_at, np_index. rewrite length_fmap, length_seq.
  destruct ((0 <=? c) && (c <? Z.of_nat n))%Z eqn:E; [|lia]. cbn.
  unfold getitem. rewrite list_lookup_fmap, lookup_seq_lt by lia. cbn.
  f_equal. lia.
Qed.

Lemma remap_face_identity (n : nat) (f : face) :
  Forall (fun c => (0 <= c < Z.of_nat n)%Z) (face_cells f) ->
  remap_face (Z.of_nat <$> seq 0 n) f = Ok f.
Proof.
  destruct f as [[a b] c]. cbn. intros H.
  inversion H as [|? ? Ha H1]; subst. inversion H1 as [|? ? Hb H2]; subst.
  inversion H2 as [|? ? Hc _]; subst.
  rewrite !take_at_identity by assumption. reflexivity.
Qed.

(** [mask[idxs] = 0] for indices counted from the end. *)
Lemma clear_at_from_end (idxs : list Z) (mask : list bool) :
  Forall (fun i => (- Z.of_nat (length mask) <= i < 0)%Z) idxs ->
  exists mask',
    clear_at mask idxs = Ok mask'
    /\ length mask' = length mask
    /\ forall c,
         mask' !! c
         = (fun b : bool =>
              b && negb (bool_decide
                           ((Z.of_nat c - Z.of_nat (length mask))%Z ∈ idxs)))
             <$> mask !! c.
Proof.
  unfold clear_at. revert mask.
  induction idxs as [|i idxs IH]; intros mask Hin.
  - exists mask. split; [reflexivity|]. split; [reflexivity|].
    intros c. destruct (mask !! c) as [b|]; cbn; [|reflexivity].
    rewrite bool_decide_eq_false_2 by apply not_elem_of_nil.
    rewrite andb_true_r. reflexivity.
  - inversion Hin as [|? ? Hi Hrest]; subst. cbn [for_each].
    unfold np_index.
    destruct ((0 <=? i) && (i <? Z.of_nat (length mask)))%Z eqn:E; [lia|].
    destruct ((- Z.of_nat (length mask) <=? i) && (i <? 0))%Z eqn:E';
      [|lia].
    cbn [mbind result_bind].
    set (p := Z.to_nat (Z.of_nat (length mask) + i)).
    destruct (IH (<[p := false]> mask)) as (m' & Hm' & Hlen & Hspec).
    { rewrite length_insert. exact Hrest. }
    exists m'. split; [exact Hm'|]. split.
    { rewrite Hlen. apply length_insert. }
    intros c. rewrite Hspec, length_insert.
    destruct (decide (c = p)) as [->|Hne].
    + assert (Hp : (p < length mask)%nat) by (subst p; lia).
      rewrite list_lookup_insert_eq by exact Hp.
      destruct (lookup_lt_is_Some_2 mask p Hp) as [b0 Hb0]. rewrite Hb0.
      cbn.
      rewrite (bool_decide_eq_true_2
                 ((Z.of_nat p - Z.of_nat (length mask))%Z ∈ i :: idxs)).
      * rewrite andb_false_r. reflexivity.
      * replace (Z.of_nat p - Z.of_nat (length mask))%Z with i
          by (subst p; lia).
        apply elem_of_cons. left. reflexivity.
    + rewrite list_lookup_insert_ne by congruence.
      destruct (mask !! c) as [b0|] eqn:Hc; cbn; [|reflexivity].
      do 3 f_equal. apply bool_decide_ext. rewrite elem_of_cons.
      apply lookup_lt_Some in Hc.
      split; [auto|]. intros [Heq|Hin']; [|exact Hin'].
      exfalso. apply Hne. subst p. lia.
Qed.

(** [np.argwhere(f_original == v_idx)] finds nothing when no cell has
    the value. *)
Lemma argwhere_rows_absent (f_original : list face) (v_idx : Z) :
  Forall (fun c => c <> v_idx) (f_original ≫= face_cells) ->
  argwhere_rows f_original v_idx = [].
Proof.
  unfold argwhere_rows.
  assert (H : forall (h : nat -> nat) (fs : list face),
             Forall (fun c => c <> v_idx) (fs ≫= face_cells) ->
             concat (imap (fun i f => (fun _ : Z => h i)
                                        <$> List.filter (Z.eqb v_idx)
                                              (face_cells f)) fs) = []).
  { intros h fs. revert h.
    induction fs as [|f fs IH]; intros h Hall; [reflexivity|].
    cbn [mbind list_bind] in Hall.
    apply Forall_app in Hall as [Hf Hfs].
    cbn [imap concat]. pose proof (IH (h ∘ S) Hfs) as IH'.
    unfold compose in IH' |- *. rewrite IH', app_nil_r.
    assert (Hnone : List.filter (Z.eqb v_idx) (face_cells f) = []).
    { clear -Hf. induction Hf as [|c cs Hc _ IHc]; [reflexivity|]. cbn.
      destruct (Z.eqb_spec v_idx c) as [->|_]; [congruence|]. exact IHc. }
    rewrite Hnone. reflexivity. }
  apply (H (fun i => i)).
Qed.

(** C8 (as amended). On a mesh whose faces refer to existing vertices
    only and to the last vertex at least once, pruning with an empty
    removal list returns the vertices and the faces as they were and a
    keep-mask that is true everywhere. On any mesh, a removal list holding
    an index at or above the vertex count [V], or below [-V], makes the
    call raise [IndexError]. An index from [-V] to [-1] is not outside
    numpy's bounds, it counts from the end: for a removal list of such
    indices and faces without negative entries, whenever the call
    returns, the keep-mask is false exactly at the vertices [V + i] of
    the listed [i], and no face has been removed. *)
Theorem pruning_empty_list_and_out_of_range {A} (junk : nat -> Z)
    (v_original : list A) (f_original : list face) :
  (Forall (fun c => (0 <= c < Z.of_nat (length v_original))%Z)
     (f_original ≫= face_cells) ->
   (Z.of_nat (length v_original) - 1)%Z ∈ f_original ≫= face_cells ->
   remove_mesh_vertices junk v_original f_original []
   = Ok (v_original, f_original, replicate (length v_original) true))
  /\ (forall v_idxs_to_remove : list Z,
        Exists (fun i => (i < - Z.of_nat (length v_original)
                          \/ Z.of_nat (length v_original) <= i)%Z)
          v_idxs_to_remove ->
        remove_mesh_vertices junk v_original f_original v_idxs_to_remove
        = Raise IndexError)
  /\ (forall (v_idxs_to_remove : list Z) (new_vertices : list A)
        (new_faces : list face) (keep_v_mask : list bool),
        Forall (fun i => (- Z.of_nat (length v_original) <= i < 0)%Z)
          v_idxs_to_remove ->
        Forall (fun c => (0 <= c)%Z) (f_original ≫= face_cells) ->
        remove_mesh_vertices junk v_original f_original v_idxs_to_remove
        = Ok (new_vertices, new_faces, keep_v_mask) ->
        length new_faces = length f_original
        /\ length keep_v_mask = length v_original
        /\ forall c,
             c < length v_original ->
             keep_v_mask !! c
             = Some (negb (bool_decide
                             ((Z.of_nat c - Z.of_nat (length v_original))%Z
                              ∈ v_idxs_to_remove)))).
Proof.
  split; [|split].
  - intros Hrange Hlast. unfold remove_mesh_vertices.
    cbn [clear_at for_each mbind result_bind fmap list_fmap concat fromkeys
         sorted foldr].
    rewrite !mask_select_all, true_positions_all, count_true_all.
    rewrite (array_max_reaches (Z.of_nat (length v_original) - 1)); cycle 1.
    { eapply Forall_impl; [exact Hrange|]. cbn. lia. }
    { exact Hlast. }
    cbn [mbind result_bind]. unfold np_empty.
    destruct (Z.ltb_spec (Z.of_nat (length v_original) - 1 + 1) 0) as [|_];
      [lia|].
    cbn [mbind result_bind].
    replace (Z.to_nat (Z.of_nat (length v_original) - 1 + 1))
      with (length v_original) by lia.
    pose proof (assign_at_all (junk <$> seq 0 (length v_original))) as Hassign.
    rewrite length_fmap, length_seq in Hassign. rewrite Hassign.
    cbn [mbind result_bind].
    rewrite (mapM_ok _ f_original f_original); [reflexivity|].
    apply Forall_Forall2_diag, Forall_forall. intros f Hf.
    apply remap_face_identity. apply Forall_forall. intros c Hc.
    apply (proj1 (Forall_forall _ _) Hrange).
    apply list_elem_of_bind. exists f. split; assumption.
  - intros idxs Hex. unfold remove_mesh_vertices.
    rewrite (clear_at_out_of_range (replicate (length v_original) true) idxs);
      [reflexivity|].
    rewrite length_replicate. exact Hex.
  - intros idxs new_vertices new_faces keep_v_mask Hneg Hcells Hret.
    destruct (clear_at_from_end idxs (replicate (length v_original) true))
      as (mask & Hmask & Hlen & Hspec).
    { rewrite length_replicate. exact Hneg. }
    rewrite length_replicate in Hlen, Hspec.
    assert (Hnone : concat (argwhere_rows f_original <$> idxs) = []).
    { clear -Hneg Hcells. induction Hneg as [|i idxs Hi _ IH];
        [reflexivity|].
      cbn [fmap list_fmap concat]. rewrite IH, app_nil_r.
      apply argwhere_rows_absent. eapply Forall_impl; [exact Hcells|].
      cbn. lia. }
    unfold remove_mesh_vertices in Hret. rewrite Hmask, Hnone in Hret.
    cbn [mbind result_bind fromkeys sorted foldr fmap list_fmap clear_at
         for_each] in Hret.
    rewrite mask_select_all in Hret.
    apply bind_ok_inv in Hret as (top & _ & Hret).
    apply bind_ok_inv in Hret as (arr & _ & Hret).
    apply bind_ok_inv in Hret as (arr' & _ & Hret).
    apply bind_ok_inv in Hret as (faces' & Hfaces & Hret).
    injection Hret as _ <- <-.
    split; [apply (mapM_length _ _ _ Hfaces)|]. split; [exact Hlen|].
    intros c Hc. rewrite Hspec, lookup_replicate_2 by exact Hc. reflexivity.
Qed.

(** The theorem at a triangle and its three vertices: an empty removal
    list changes nothing, the index 3 raises, and the index -1 clears the
    mask entry of the last vertex and leaves the face. *)
Lemma pruning_empty_list_and_out_of_range_witness :
  remove_mesh_vertices (fun _ => 0%Z) [10; 11; 12] [(0, 1, 2)%Z] []
  = Ok ([10; 11; 12], [(0, 1, 2)%Z], [true; true; true])
  /\ remove_mesh_vertices (fun _ => 0%Z) [10; 11; 12] [(0, 1, 2)%Z] [3%Z]
     = Raise IndexError
  /\ length [(0, 1, 0)%Z] = length [(0, 1, 2)%Z]
  /\ [true; true; false] !! 2 = Some false.
Proof.
  destruct (pruning_empty_list_and_out_of_range (fun _ => 0%Z) [10; 11; 12]
              [(0, 1, 2)%Z]) as (Hempty & Hout & Hend).
  split; [|split].
  - apply Hempty.
    + cbn. repeat constructor; lia.
    + cbn. apply list_elem_of_In. cbn. auto.
  - apply Hout. constructor. cbn. lia.
  - destruct (Hend [(-1)%Z] [10; 11] [(0, 1, 0)%Z] [true; true; false])
      as (Hfaces & _ & Hmask).
    + repeat constructor; cbn; lia.
    + cbn. repeat constructor; lia.
    + reflexivity.
    + split; [exact Hfaces|]. apply (Hmask 2). cbn. lia.
Defined.

(** C8 (as stated) fails, in both halves. The index -1 lies outside the
    vertex range 0 .. V-1, yet the call raises nothing: it clears the mask
    entry of the last vertex, removes no face (no face cell equals -1),
    and returns a face whose third cell is whatever the uninitialised
    remap table held (77 here). And on four vertices of which the last is
    on no face, the empty removal list is no no-op: the call raises
    [IndexError]. *)
Lemma pruning_negative_index_is_silent :
  remove_mesh_vertices (fun _ => 77%Z) [10; 11; 12] [(0, 1, 2)%Z] [(-1)%Z]
  = Ok ([10; 11], [(0, 1, 77)%Z], [true; true; false])
  /\ remove_mesh_vertices (fun _ => 77%Z) [10; 11; 12; 13] [(0, 1, 2)%Z] []
     = Raise IndexError.
Proof. split; reflexivity. Qed.

End Pruning.

(** *** What pruning returns when it returns *)

Section PruningSound.
Import Utils.

Lemma clear_at_spec (idxs : list Z) (mask : list bool) :
  Forall (fun i => (0 <= i < Z.of_nat (length mask))%Z) idxs ->
  exists mask',
    clear_at mask idxs = Ok mask'
    /\ length mask' = length mask
    /\ forall c,
         mask' !! c
         = (fun b : bool => b && negb (bool_decide (Z.of_nat c ∈ idxs)))
             <$> mask !! c.
Proof.
  unfold clear_at. revert mask.
  induction idxs as [|i idxs IH]; intros mask Hin.
  - exists mask. split; [reflexivity|]. split; [reflexivity|].
    intros c. destruct (mask !! c) as [b|]; cbn; [|reflexivity].
    rewrite bool_decide_eq_false_2 by apply not_elem_of_nil.
    rewrite andb_true_r. reflexivity.
  - inversion Hin as [|? ? Hi Hrest]; subst. cbn [for_each].
    unfold np_index.
    destruct ((0 <=? i) && (i <? Z.of_nat (length mask)))%Z eqn:E; [|lia].
    cbn [mbind result_bind].
    destruct (IH (<[Z.to_nat i := false]> mask)) as (m' & Hm' & Hlen & Hspec).
    { rewrite length_insert. exact Hrest. }
    exists m'. split; [exact Hm'|]. split.
    { rewrite Hlen. apply length_insert. }
    intros c. rewrite Hspec.
    destruct (decide (c = Z.to_nat i)) as [->|Hne].
    + rewrite list_lookup_insert_eq by lia.
      destruct (lookup_lt_is_Some_2 mask (Z.to_nat i)) as [b ->]; [lia|].
      cbn. rewrite (bool_decide_eq_true_2 (_ ∈ i :: idxs)).
      * rewrite andb_false_r. reflexivity.
      * apply elem_of_cons. left. lia.
    + rewrite list_lookup_insert_ne by congruence.
      destruct (mask !! c) as [b|]; cbn; [|reflexivity]. do 2 f_equal.
      f_equal. apply bool_decide_ext. rewrite elem_of_cons.
      split; [tauto|]. intros [Hc|Hc]; [lia | exact Hc].
Qed.

Lemma count_true_clear_one (mask : list bool) (p : nat) :
  mask !! p = Some true ->
  count_true (<[p := false]> mask) + 1 = count_true mask.
Proof.
  unfold count_true. revert p.
  induction mask as [|b mask IH]; intros p Hp; [discriminate|].
  destruct p as [|p].
  - injection Hp as ->. cbn. lia.
  - specialize (IH p Hp). change (<[S p:=false]> (b :: mask))
      with (b :: <[p:=false]> mask).
    destruct b; cbn [List.filter length]; lia.
Qed.

Lemma count_true_clear_at (idxs : list Z) (mask mask' : list bool) :
  NoDup idxs ->
  Forall (fun i => (0 <= i)%Z /\ mask !! Z.to_nat i = Some true) idxs ->
  clear_at mask idxs = Ok mask' ->
  count_true mask' + length idxs = count_true mask.
Proof.
  unfold clear_at. revert mask.
  induction idxs as [|i idxs IH]; intros mask Hnd Hin Hclear.
  - cbn in Hclear. injection Hclear as <-. cbn. lia.
  - inversion Hnd as [|? ? Hni Hnd']; subst.
    inversion Hin as [|? ? [Hi0 Hi] Hrest]; subst.
    cbn [for_each] in Hclear. unfold np_index in Hclear.
    pose proof (lookup_lt_Some _ _ _ Hi) as Hlt.
    destruct ((0 <=? i) && (i <? Z.of_nat (length mask)))%Z eqn:E; [|lia].
    cbn [mbind result_bind] in Hclear.
    apply IH in Hclear; [|assumption|].
    + pose proof (count_true_clear_one mask (Z.to_nat i) Hi). cbn [length]. lia.
    + apply Forall_forall. intros j Hj.
      destruct (proj1 (Forall_forall _ _) Hrest j Hj) as [Hj0 Hjt].
      split; [exact Hj0|]. rewrite list_lookup_insert_ne; [exact Hjt|].
      intros Heq. apply Hni. replace i with j by lia. exact Hj.
Qed.

(** The positions of the true entries, counted from [k]. *)
Lemma true_positions_from (k : nat) (mask : list bool) :
  concat (imap (fun i (b : bool) => if b then [k + i] else []) mask)
  = List.filter (fun p => from_option (fun b : bool => b) false (mask !! (p - k)))
      (seq k (length mask)).
Proof.
  revert k. induction mask as [|b mask IH]; intros k; [reflexivity|].
  cbn [imap concat length seq List.filter].
  rewrite Nat.sub_diag. cbn [lookup list_lookup from_option].
  assert (Htail : concat (imap ((fun i (b0 : bool) => if b0 then [k + i] else [])
                                ∘ S) mask)
                  = List.filter
                      (fun p => from_option (fun b0 : bool => b0) false
                                  ((b :: mask) !! (p - k)))
                      (seq (S k) (length mask))).
  { erewrite imap_ext; [rewrite (IH (S k))|].
    - apply List.filter_ext_in. intros p Hp. apply in_seq in Hp.
      replace (p - k) with (S (p - S k)) by lia. reflexivity.
    - intros i x _. cbn. replace (k + S i) with (S k + i) by lia. reflexivity. }
  rewrite Htail. rewrite Nat.add_0_r. destruct b; reflexivity.
Qed.

Lemma true_positions_spec (mask : list bool) :
  true_positions mask
  = List.filter (fun p => from_option (fun b : bool => b) false (mask !! p))
      (seq 0 (length mask)).
Proof.
  unfold true_positions.
  transitivity (concat (imap (fun i (b : bool) => if b then [0 + i] else [])
                          mask)).
  { f_equal. }
  rewrite true_positions_from. apply List.filter_ext. intros p.
  rewrite Nat.sub_0_r. reflexivity.
Qed.

Lemma mask_select_positions_from {A} (a : list A) (mask : list bool) (k : nat) :
  length a = length mask ->
  Forall2 (fun x p => k <= p /\ a !! (p - k) = Some x)
    (mask_select a mask)
    (concat (imap (fun i (b : bool) => if b then [k + i] else []) mask)).
Proof.
  unfold mask_select. revert mask k.
  induction a as [|x a IH]; intros [|b mask] k Hlen; try discriminate;
    [constructor|].
  cbn [zip_with List.filter imap concat].
  assert (Htail : Forall2 (fun y p => k <= p /\ (x :: a) !! (p - k) = Some y)
                    (List.filter snd (zip a mask)).*1
                    (concat (imap ((fun i (b0 : bool) =>
                                      if b0 then [k + i] else []) ∘ S) mask))).
  { erewrite imap_ext.
    - eapply Forall2_impl; [apply (IH mask (S k)); cbn in Hlen; lia|].
      intros y p [Hp Hy]. split; [lia|].
      replace (p - k) with (S (p - S k)) by lia. exact Hy.
    - intros i b0 _. cbn. replace (k + S i) with (S k + i) by lia.
      reflexivity. }
  destruct b; cbn [snd fmap list_fmap fst app]; [|exact Htail].
  constructor; [|exact Htail]. split; [lia|].
  replace (k + 0 - k) with 0 by lia. reflexivity.
Qed.

Lemma mask_select_positions {A} (a : list A) (mask : list bool) :
  length a = length mask ->
  Forall2 (fun x p => a !! p = Some x) (mask_select a mask)
    (true_positions mask).
Proof.
  intros Hlen. unfold true_positions.
  eapply Forall2_impl; [apply (mask_select_positions_from a mask 0 Hlen)|].
  intros x p [_ Hx]. rewrite Nat.sub_0_r in Hx. exact Hx.
Qed.

Lemma length_true_positions (mask : list bool) :
  length (true_positions mask) = count_true mask.
Proof.
  pose proof (mask_select_positions mask mask eq_refl) as H.
  rewrite <- (Forall2_length _ _ _ H). unfold mask_select, count_true.
  rewrite length_fmap. clear H.
  induction mask as [|b mask IH]; [reflexivity|].
  cbn [zip_with List.filter]. destruct b; cbn [snd length]; lia.
Qed.

Lemma elem_of_true_positions (mask : list bool) (p : nat) :
  p ∈ true_positions mask <-> mask !! p = Some true.
Proof.
  rewrite true_positions_spec, list_elem_of_In, filter_In, in_seq.
  split.
  - intros [_ Hp]. destruct (mask !! p) as [[]|]; cbn in Hp; congruence.
  - intros Hp. split; [|rewrite Hp; reflexivity].
    apply lookup_lt_Some in Hp. lia.
Qed.

Lemma NoDup_true_positions (mask : list bool) : NoDup (true_positions mask).
Proof.
  rewrite true_positions_spec. apply NoDup_ListNoDup, List.NoDup_filter.
  apply NoDup_ListNoDup, NoDup_seq.
Qed.

(** [arr[idxs] = vals] for distinct indices: each lands in its cell, the
    other cells keep what they held. *)
Lemma assign_at_lookup (idxs : list nat) (vals arr r : list Z) :
  NoDup idxs -> length idxs = length vals ->
  assign_at arr idxs vals = Ok r ->
  length r = length arr
  /\ (forall j p, idxs !! j = Some p -> r !! p = vals !! j /\ p < length arr)
  /\ (forall p, p ∉ idxs -> r !! p = arr !! p).
Proof.
  unfold assign_at. revert vals arr.
  induction idxs as [|i idxs IH]; intros [|v vals] arr Hnd Hlen Hr;
    try discriminate.
  - cbn in Hr. injection Hr as <-. split; [reflexivity|].
    split; [intros j p Hj; discriminate | reflexivity].
  - inversion Hnd as [|? ? Hni Hnd']; subst.
    cbn [zip_with for_each] in Hr. cbv beta iota in Hr.
    destruct (Nat.ltb_spec i (length arr)) as [Hlt|]; [|discriminate].
    cbn [mbind result_bind] in Hr.
    destruct (IH vals (<[i := v]> arr)) as (Hlr & Hset & Hkeep);
      [assumption | cbn in Hlen; lia | exact Hr |].
    rewrite length_insert in Hlr. split; [exact Hlr|]. split.
    + intros [|j] p Hj; cbn in Hj.
      * injection Hj as <-. rewrite Hkeep by exact Hni.
        rewrite list_lookup_insert_eq by exact Hlt. cbn. auto.
      * destruct (Hset j p Hj) as [Hv Hp]. rewrite length_insert in Hp.
        cbn. auto.
    + intros p Hp. apply not_elem_of_cons in Hp as [Hne Hp].
      rewrite Hkeep by exact Hp. apply list_lookup_insert_ne. congruence.
Qed.

Lemma elem_of_insert_sorted (x y : nat) (xs : list nat) :
  x ∈ insert_sorted y xs <-> x = y \/ x ∈ xs.
Proof.
  induction xs as [|z xs IH]; cbn.
  - rewrite list_elem_of_singleton, elem_of_nil. tauto.
  - destruct (y <=? z); rewrite !elem_of_cons; [tauto|].
    rewrite IH. tauto.
Qed.

Lemma elem_of_sorted (x : nat) (xs : list nat) : x ∈ sorted xs <-> x ∈ xs.
Proof.
  unfold sorted. induction xs as [|z xs IH]; cbn; [reflexivity|].
  rewrite elem_of_insert_sorted, IH, elem_of_cons. reflexivity.
Qed.

Lemma elem_of_fromkeys (x : nat) (seen xs : list nat) :
  x ∈ fromkeys seen xs <-> x ∈ seen \/ x ∈ xs.
Proof.
  revert seen. induction xs as [|z xs IH]; intros seen; cbn.
  - rewrite elem_of_nil. tauto.
  - destruct (existsb (Nat.eqb z) seen) eqn:E; rewrite IH, elem_of_cons.
    + apply existsb_exists in E as (w & Hw & Hzw).
      apply Nat.eqb_eq in Hzw. subst w. apply list_elem_of_In in Hw.
      split; [tauto|]. intros [H|[->|H]]; auto.
    + rewrite elem_of_app, list_elem_of_singleton. tauto.
Qed.

Lemma elem_of_argwhere_rows (f_original : list face) (v_idx : Z) (r : nat) :
  r ∈ argwhere_rows f_original v_idx
  <-> exists g, f_original !! r = Some g /\ v_idx ∈ face_cells g.
Proof.
  unfold argwhere_rows. rewrite list_elem_of_In, in_concat. split.
  - intros (l & Hl & Hr). apply list_elem_of_In in Hl.
    apply elem_of_lookup_imap in Hl as (i & g & -> & Hg).
    apply list_elem_of_In, list_elem_of_fmap in Hr as (c & -> & Hc).
    apply list_elem_of_In, filter_In in Hc as [Hc Heq].
    apply Z.eqb_eq in Heq. subst c. exists g. split; [exact Hg|].
    apply list_elem_of_In, Hc.
  - intros (g & Hg & Hc).
    exists ((fun _ => r) <$> List.filter (Z.eqb v_idx) (face_cells g)). split.
    + apply list_elem_of_In.
      apply (elem_of_lookup_imap_2
               (fun i f => (fun _ => i) <$> List.filter (Z.eqb v_idx)
                                             (face_cells f)) _ _ _ Hg).
    + apply list_elem_of_In, list_elem_of_fmap. exists v_idx. split; [reflexivity|].
      apply list_elem_of_In, filter_In. split; [apply list_elem_of_In, Hc|].
      apply Z.eqb_refl.
Qed.

Lemma fold_max_ge (cells : list Z) (c : Z) :
  (c <= fold_left Z.max cells c)%Z
  /\ Forall (fun x => (x <= fold_left Z.max cells c)%Z) cells.
Proof.
  revert c. induction cells as [|x cells IH]; intros c; cbn.
  - split; [lia | constructor].
  - destruct (IH (Z.max c x)) as [Hc Hall]. split; [lia|].
    constructor; [lia | exact Hall].
Qed.

Lemma array_max_ge (cells : list Z) (top : Z) :
  array_max cells = Ok top -> Forall (fun x => (x <= top)%Z) cells.
Proof.
  destruct cells as [|c cells]; [discriminate|]. cbn. intros [= <-].
  destruct (fold_max_ge cells c) as [Hc Hall]. constructor; assumption.
Qed.

Lemma mask_select_filter {A} (P : A -> Prop) `{!forall x, Decision (P x)}
    (a : list A) (mask : list bool) :
  length a = length mask ->
  (forall r x, a !! r = Some x -> mask !! r = Some (bool_decide (P x))) ->
  mask_select a mask = filter P a.
Proof.
  unfold mask_select. revert mask.
  induction a as [|x a IH]; intros [|b mask] Hlen Hspec; try discriminate;
    [reflexivity|].
  cbn [zip_with List.filter]. rewrite filter_cons.
  pose proof (Hspec 0 x eq_refl) as H0. cbn in H0. injection H0 as ->.
  rewrite <- (IH mask).
  - cbn [snd]. destruct (decide (P x)) as [Hp|Hp].
    + rewrite bool_decide_eq_true_2 by exact Hp. reflexivity.
    + rewrite bool_decide_eq_false_2 by exact Hp. reflexivity.
  - cbn in Hlen. lia.
  - intros r y Hy. apply (Hspec (S r) y Hy).
Qed.

(** X3. With removal indices in range and
    distinct, on a mesh whose faces refer to existing vertices, a call of
    [remove_mesh_vertices] that returns has removed the listed vertices and nothing else, kept the
    faces none of whose corners was removed, and renumbered their corners
    so that each still names the vertex it named. *)
Lemma remove_mesh_vertices_sound {A} (junk : nat -> Z) (v_original : list A)
    (f_original : list face) (v_idxs_to_remove : list Z)
    (new_vertices : list A) (new_faces : list face) (keep_v_mask : list bool) :
  Forall (fun i => (0 <= i < Z.of_nat (length v_original))%Z) v_idxs_to_remove ->
  NoDup v_idxs_to_remove ->
  Forall (fun c => (0 <= c < Z.of_nat (length v_original))%Z)
    (f_original ≫= face_cells) ->
  remove_mesh_vertices junk v_original f_original v_idxs_to_remove
  = Ok (new_vertices, new_faces, keep_v_mask) ->
  length new_vertices = length v_original - length v_idxs_to_remove
  /\ length keep_v_mask = length v_original
  /\ (forall c, c < length v_original ->
        keep_v_mask !! c
        = Some (negb (bool_decide (Z.of_nat c ∈ v_idxs_to_remove))))
  /\ Forall (fun c => (0 <= c < Z.of_nat (length new_vertices))%Z)
       (new_faces ≫= face_cells)
  /\ Forall2
       (fun old new =>
          Forall2 (fun c c' => v_original !! Z.to_nat c
                               = new_vertices !! Z.to_nat c')
            (face_cells old) (face_cells new))
       (filter (fun g => Forall (fun c => c ∉ v_idxs_to_remove) (face_cells g))
          f_original)
       new_faces.
Proof.
  intros Hin Hnd Hfaces Hret. unfold remove_mesh_vertices in Hret.
  (* the vertex mask *)
  destruct (clear_at_spec v_idxs_to_remove
              (replicate (length v_original) true))
    as (mask & Hmask & Hmlen & Hmspec).
  { rewrite length_replicate. exact Hin. }
  rewrite length_replicate in Hmlen.
  rewrite Hmask in Hret. cbn [mbind result_bind] in Hret.
  assert (Hkeep : forall c, c < length v_original ->
            mask !! c
            = Some (negb (bool_decide (Z.of_nat c ∈ v_idxs_to_remove)))).
  { intros c Hc. rewrite Hmspec, lookup_replicate_2 by exact Hc. reflexivity. }
  (* the face mask *)
  set (rf := sorted (fromkeys [] (concat (argwhere_rows f_original
                                           <$> v_idxs_to_remove)))) in Hret.
  assert (Hrf : forall r, r ∈ rf <->
            exists g idx, f_original !! r = Some g
                          /\ idx ∈ v_idxs_to_remove /\ idx ∈ face_cells g).
  { intros r. subst rf. rewrite elem_of_sorted, elem_of_fromkeys.
    rewrite (list_elem_of_In (concat _)), in_concat. split.
    - intros [Hnil|(l & Hl & Hr)]; [inversion Hnil|].
      apply list_elem_of_In, list_elem_of_fmap in Hl as (idx & -> & Hidx).
      apply list_elem_of_In, elem_of_argwhere_rows in Hr as (g & Hg & Hc).
      eauto.
    - intros (g & idx & Hg & Hidx & Hc). right.
      exists (argwhere_rows f_original idx). split.
      + apply list_elem_of_In, list_elem_of_fmap. eauto.
      + apply list_elem_of_In, elem_of_argwhere_rows. eauto. }
  destruct (clear_at_spec (Z.of_nat <$> rf)
              (replicate (length f_original) true))
    as (fmask & Hfmask & Hflen & Hfspec).
  { rewrite length_replicate. apply Forall_fmap, Forall_forall. intros r Hr.
    apply Hrf in Hr as (g & _ & Hg & _). apply lookup_lt_Some in Hg.
    cbn. lia. }
  rewrite length_replicate in Hflen.
  rewrite Hfmask in Hret. cbn [mbind result_bind] in Hret.
  set (kept_if := fun g => Forall (fun c => c ∉ v_idxs_to_remove) (face_cells g)).
  assert (Hupd : mask_select f_original fmask = filter kept_if f_original).
  { apply mask_select_filter; [congruence|]. intros r g Hg.
    rewrite Hfspec, lookup_replicate_2 by (eapply lookup_lt_Some, Hg).
    cbn [fmap option_fmap option_map]. f_equal. rewrite andb_true_l.
    destruct (decide (kept_if g)) as [Hk|Hk].
    - rewrite (bool_decide_eq_true_2 _ Hk).
      rewrite bool_decide_eq_false_2; [reflexivity|].
      intros Hr. apply list_elem_of_fmap in Hr as (r' & Heq & Hr').
      apply Nat2Z.inj in Heq. subst r'.
      apply Hrf in Hr' as (g' & idx & Hg' & Hidx & Hc).
      rewrite Hg in Hg'. injection Hg' as <-.
      apply (proj1 (Forall_forall _ _) Hk idx Hc Hidx).
    - rewrite (bool_decide_eq_false_2 _ Hk).
      rewrite bool_decide_eq_true_2; [reflexivity|].
      apply list_elem_of_fmap. exists r. split; [reflexivity|]. apply Hrf.
      apply not_Forall_Exists in Hk; [|intros c; apply _].
      apply Exists_exists in Hk as (c & Hc & Hcin).
      exists g, c. split; [exact Hg|]. split; [|exact Hc].
      destruct (decide (c ∈ v_idxs_to_remove)) as [Hy|Hn];
        [exact Hy | destruct (Hcin Hn)]. }
  rewrite Hupd in Hret.
  (* the remap table *)
  destruct (array_max (filter kept_if f_original ≫= face_cells))
    as [top|] eqn:Htop; [|discriminate].
  cbn [mbind result_bind] in Hret. unfold np_empty in Hret.
  destruct (Z.ltb_spec (top + 1) 0) as [|Htop0]; [discriminate|].
  cbn [mbind result_bind] in Hret.
  destruct (assign_at (junk <$> seq 0 (Z.to_nat (top + 1)))
              (true_positions mask)
              (Z.of_nat <$> seq 0 (count_true mask)))
    as [arr|] eqn:Harr; [|discriminate].
  cbn [mbind result_bind] in Hret.
  destruct (mapM (remap_face arr) (filter kept_if f_original))
    as [faces|] eqn:Hmap; [|discriminate].
  injection Hret as <- <- <-.
  apply assign_at_lookup in Harr as (Halen & Hset & _);
    [|apply NoDup_true_positions
     |rewrite length_fmap, length_seq; apply length_true_positions].
  apply mapM_ok_inv in Hmap.
  pose proof (mask_select_positions v_original mask (eq_sym Hmlen)) as Hsel.
  assert (Hcount : count_true mask + length v_idxs_to_remove
                   = length v_original).
  { pose proof (count_true_clear_at v_idxs_to_remove
                  (replicate (length v_original) true) mask Hnd) as Hc.
    rewrite count_true_all in Hc. apply Hc; [|exact Hmask].
    eapply Forall_impl; [exact Hin|]. intros i Hi. cbn beta in Hi |- *.
    split; [lia|]. apply lookup_replicate_2. lia. }
  assert (Hnewlen : length (mask_select v_original mask) = count_true mask).
  { rewrite (Forall2_length _ _ _ Hsel). apply length_true_positions. }
  (* one corner *)
  assert (Hcorner : forall c c',
            (0 <= c < Z.of_nat (length v_original))%Z ->
            c ∉ v_idxs_to_remove -> take_at arr c = Ok c' ->
            (0 <= c' < Z.of_nat (count_true mask))%Z
            /\ v_original !! Z.to_nat c
               = mask_select v_original mask !! Z.to_nat c').
  { intros c c' Hc Hnot Htake.
    assert (Htrue : mask !! Z.to_nat c = Some true).
    { rewrite Hkeep by lia. rewrite Z2Nat.id by lia.
      rewrite bool_decide_eq_false_2 by exact Hnot. reflexivity. }
    apply elem_of_true_positions, list_elem_of_lookup in Htrue as [j Hj].
    destruct (Hset j _ Hj) as [Hval Hlt].
    pose proof (lookup_lt_Some _ _ _ Hj) as Hjlt.
    rewrite length_true_positions in Hjlt.
    rewrite list_lookup_fmap, lookup_seq_lt in Hval by exact Hjlt.
    cbn in Hval. unfold take_at, np_index in Htake.
    rewrite Halen in Htake.
    destruct ((0 <=? c)
              && (c <? Z.of_nat (length (junk <$> seq 0 (Z.to_nat (top + 1))))))%Z
      eqn:E; [|lia].
    cbn [mbind result_bind] in Htake. unfold getitem in Htake.
    rewrite Hval in Htake. cbn in Htake. injection Htake as <-.
    split; [lia|]. rewrite Nat2Z.id.
    destruct (Forall2_lookup_r _ _ _ _ _ Hsel Hj) as (x & Hx & Hvx).
    rewrite Hx, Hvx. reflexivity. }
  assert (Hface : forall g g',
            g ∈ filter kept_if f_original -> remap_face arr g = Ok g' ->
            Forall (fun c' => (0 <= c' < Z.of_nat (count_true mask))%Z)
              (face_cells g')
            /\ Forall2 (fun c c' => v_original !! Z.to_nat c
                                    = mask_select v_original mask !! Z.to_nat c')
                 (face_cells g) (face_cells g')).
  { intros [[a b] c] g' Hg Hremap.
    apply list_elem_of_filter in Hg as [Hk Hg].
    assert (Hrange : Forall (fun x => (0 <= x < Z.of_nat (length v_original))%Z)
                       (face_cells (a, b, c))).
    { apply Forall_forall. intros x Hx.
      apply (proj1 (Forall_forall _ _) Hfaces). apply list_elem_of_bind. eauto. }
    unfold kept_if in Hk. cbn [face_cells] in Hk, Hrange.
    cbn [remap_face] in Hremap.
    destruct (take_at arr a) as [a'|] eqn:Ha; [|discriminate].
    destruct (take_at arr b) as [b'|] eqn:Hb; [|discriminate].
    destruct (take_at arr c) as [c'|] eqn:Hc; [|discriminate].
    cbn in Hremap. injection Hremap as <-.
    inversion Hk as [|? ? Hka Hk1]; subst. inversion Hk1 as [|? ? Hkb Hk2]; subst.
    inversion Hk2 as [|? ? Hkc _]; subst.
    inversion Hrange as [|? ? Hra Hr1]; subst.
    inversion Hr1 as [|? ? Hrb Hr2]; subst.
    inversion Hr2 as [|? ? Hrc _]; subst.
    destruct (Hcorner a a' Hra Hka Ha) as [Ha1 Ha2].
    destruct (Hcorner b b' Hrb Hkb Hb) as [Hb1 Hb2].
    destruct (Hcorner c c' Hrc Hkc Hc) as [Hc1 Hc2].
    cbn [face_cells]. split.
    - repeat (constructor; [assumption|]). constructor.
    - repeat (constructor; [assumption|]). constructor. }
  split; [lia|]. split; [exact Hmlen|]. split; [exact Hkeep|]. split.
  - rewrite Hnewlen. apply Forall_forall. intros c' Hc'.
    apply list_elem_of_bind in Hc' as (g' & Hc' & Hg').
    apply list_elem_of_lookup in Hg' as [r Hr].
    destruct (Forall2_lookup_r _ _ _ _ _ Hmap Hr) as (g & Hg & Hremap).
    destruct (Hface g g') as [Hb _];
      [eapply list_elem_of_lookup_2, Hg | exact Hremap |].
    apply (proj1 (Forall_forall _ _) Hb c' Hc').
  - apply Forall2_same_length_lookup_2; [apply (Forall2_length _ _ _ Hmap)|].
    intros r g g' Hg Hg'.
    destruct (Forall2_lookup_l _ _ _ _ _ Hmap Hg) as (g'' & Hg'' & Hremap).
    rewrite Hg' in Hg''. injection Hg'' as <-.
    apply (Hface g g'); [eapply list_elem_of_lookup_2, Hg | exact Hremap].
Qed.

End PruningSound.

(** *** When pruning returns *)

Section PruningReturns.
Import Utils Spec.

Lemma array_max_in (cs : list Z) (top : Z) :
  array_max cs = Ok top -> top ∈ cs.
Proof.
  destruct cs as [|c cs]; [discriminate|]. cbn. intros [= <-].
  assert (H : forall c0, fold_left Z.max cs c0 = c0
                         \/ fold_left Z.max cs c0 ∈ cs).
  { induction cs as [|x cs IH]; intros c0; cbn; [auto|].
    destruct (IH (Z.max c0 x)) as [H|H].
    - rewrite H. destruct (Z.max_spec c0 x) as [[_ ->]|[_ ->]];
        [right; apply elem_of_cons; auto | auto].
    - right. apply elem_of_cons. auto. }
  destruct (H c) as [->|Hin]; apply elem_of_cons; auto.
Qed.

Lemma assign_at_returns (arr : list Z) (idxs : list nat) (vals : list Z) :
  Forall (fun i => i < length arr) idxs ->
  exists r, assign_at arr idxs vals = Ok r /\ length r = length arr.
Proof.
  unfold assign_at. revert vals arr.
  induction idxs as [|i idxs IH]; intros [|v vals] arr Hall;
    try (eexists; split; reflexivity).
  inversion Hall as [|? ? Hi Hrest]; subst.
  cbn [zip_with for_each]. cbv beta iota.
  destruct (Nat.ltb_spec i (length arr)) as [_|]; [|lia].
  cbn [mbind result_bind].
  destruct (IH vals (<[i := v]> arr)) as (r & Hr & Hlen).
  { rewrite length_insert. exact Hrest. }
  exists r. split; [exact Hr|]. rewrite Hlen. apply length_insert.
Qed.

Lemma assign_at_raises (arr : list Z) (idxs : list nat) (vals : list Z) :
  length idxs = length vals ->
  Exists (fun i => length arr <= i) idxs ->
  assign_at arr idxs vals = Raise IndexError.
Proof.
  unfold assign_at. revert vals arr.
  induction idxs as [|i idxs IH]; intros [|v vals] arr Hlen Hex;
    try discriminate; [inversion Hex|].
  cbn [zip_with for_each]. cbv beta iota.
  destruct (Nat.ltb_spec i (length arr)) as [Hlt|Hge]; [|reflexivity].
  cbn [mbind result_bind]. apply IH; [cbn in Hlen; lia|].
  rewrite length_insert. inversion Hex as [? ? Hi|? ? Hrest]; subst;
    [lia | exact Hrest].
Qed.

Lemma take_at_returns (arr : list Z) (c : Z) :
  (0 <= c < Z.of_nat (length arr))%Z -> exists c', take_at arr c = Ok c'.
Proof.
  intros Hc. unfold take_at, np_index.
  destruct ((0 <=? c) && (c <? Z.of_nat (length arr)))%Z eqn:E; [|lia].
  cbn [mbind result_bind]. apply is_ok_true, getitem_ok_iff. lia.
Qed.

Context {A : Type}.
Variables (junk : nat -> Z) (v_original : list A) (f_original : list face)
  (v_idxs_to_remove : list Z).

Let n : nat := length v_original.
Let cells : list Z := surviving_faces v_idxs_to_remove f_original ≫= face_cells.

Hypothesis Hin :
  Forall (fun i => (0 <= i < Z.of_nat n)%Z) v_idxs_to_remove.

(** The masks, once computed: what is left of the function. *)
Lemma remove_mesh_vertices_masks :
  exists keep_v_mask,
    length keep_v_mask = n
    /\ (forall c, c < n ->
          keep_v_mask !! c
          = Some (negb (bool_decide (Z.of_nat c ∈ v_idxs_to_remove))))
    /\ remove_mesh_vertices junk v_original f_original v_idxs_to_remove
       = (top ← array_max cells;
          arr ← np_empty junk (top + 1);
          arr ← assign_at arr (true_positions keep_v_mask)
                  (Z.of_nat <$> seq 0 (count_true keep_v_mask));
          new_faces ← mapM (remap_face arr)
                        (surviving_faces v_idxs_to_remove f_original);
          Ok (mask_select v_original keep_v_mask, new_faces, keep_v_mask)).
Proof.
  unfold remove_mesh_vertices.
  destruct (clear_at_spec v_idxs_to_remove
              (replicate (length v_original) true))
    as (mask & Hmask & Hmlen & Hmspec).
  { rewrite length_replicate. exact Hin. }
  rewrite length_replicate in Hmlen.
  exists mask. split; [exact Hmlen|]. split.
  { intros c Hc. rewrite Hmspec, lookup_replicate_2 by exact Hc. reflexivity. }
  rewrite Hmask. cbn [mbind result_bind].
  set (rf := sorted (fromkeys [] (concat (argwhere_rows f_original
                                           <$> v_idxs_to_remove)))).
  assert (Hrf : forall r, r ∈ rf <->
            exists g idx, f_original !! r = Some g
                          /\ idx ∈ v_idxs_to_remove /\ idx ∈ face_cells g).
  { intros r. subst rf. rewrite elem_of_sorted, elem_of_fromkeys.
    rewrite (list_elem_of_In (concat _)), in_concat. split.
    - intros [Hnil|(l & Hl & Hr)]; [inversion Hnil|].
      apply list_elem_of_In, list_elem_of_fmap in Hl as (idx & -> & Hidx).
      apply list_elem_of_In, elem_of_argwhere_rows in Hr as (g & Hg & Hc).
      eauto.
    - intros (g & idx & Hg & Hidx & Hc). right.
      exists (argwhere_rows f_original idx). split.
      + apply list_elem_of_In, list_elem_of_fmap. eauto.
      + apply list_elem_of_In, elem_of_argwhere_rows. eauto. }
  destruct (clear_at_spec (Z.of_nat <$> rf)
              (replicate (length f_original) true))
    as (fmask & Hfmask & Hflen & Hfspec).
  { rewrite length_replicate. apply Forall_fmap, Forall_forall. intros r Hr.
    apply Hrf in Hr as (g & _ & Hg & _). apply lookup_lt_Some in Hg.
    cbn. lia. }
  rewrite length_replicate in Hflen.
  rewrite Hfmask. cbn [mbind result_bind].
  set (kept_if := fun g => Forall (fun c => c ∉ v_idxs_to_remove) (face_cells g)).
  assert (Hupd : mask_select f_original fmask
                 = surviving_faces v_idxs_to_remove f_original).
  { unfold surviving_faces. fold kept_if.
    apply mask_select_filter; [congruence|]. intros r g Hg.
    rewrite Hfspec, lookup_replicate_2 by (eapply lookup_lt_Some, Hg).
    cbn [fmap option_fmap option_map]. f_equal. rewrite andb_true_l.
    destruct (decide (kept_if g)) as [Hk|Hk].
    - rewrite (bool_decide_eq_true_2 _ Hk).
      rewrite bool_decide_eq_false_2; [reflexivity|].
      intros Hr. apply list_elem_of_fmap in Hr as (r' & Heq & Hr').
      apply Nat2Z.inj in Heq. subst r'.
      apply Hrf in Hr' as (g' & idx & Hg' & Hidx & Hc).
      rewrite Hg in Hg'. injection Hg' as <-.
      apply (proj1 (Forall_forall _ _) Hk idx Hc Hidx).
    - rewrite (bool_decide_eq_false_2 _ Hk).
      rewrite bool_decide_eq_true_2; [reflexivity|].
      apply list_elem_of_fmap. exists r. split; [reflexivity|]. apply Hrf.
      apply not_Forall_Exists in Hk; [|intros c; apply _].
      apply Exists_exists in Hk as (c & Hc & Hcin).
      exists g, c. split; [exact Hg|]. split; [|exact Hc].
      destruct (decide (c ∈ v_idxs_to_remove)) as [Hy|Hn];
        [exact Hy | destruct (Hcin Hn)]. }
  rewrite Hupd. reflexivity.
Qed.

Hypothesis Hfaces :
  Forall (fun c => (0 <= c < Z.of_nat n)%Z) (f_original ≫= face_cells).

Lemma cells_in_range : Forall (fun c => (0 <= c < Z.of_nat n)%Z) cells.
Proof.
  apply Forall_forall. intros c Hc. unfold cells in Hc.
  apply list_elem_of_bind in Hc as (g & Hc & Hg).
  unfold surviving_faces in Hg. apply list_elem_of_filter in Hg as [_ Hg].
  apply (proj1 (Forall_forall _ _) Hfaces). apply list_elem_of_bind. eauto.
Qed.

(** X4. With removal indices from 0 to
    V-1 and faces over those vertices, pruning returns exactly when some
    face survives and every surviving vertex has an index not above the
    greatest index the surviving faces refer to: the renumbering table
    is as long as that index says. *)
Theorem remove_mesh_vertices_returns_iff :
  (exists out,
     remove_mesh_vertices junk v_original f_original v_idxs_to_remove
     = Ok out)
  <-> cells <> []
      /\ forall c, c < n -> Z.of_nat c ∉ v_idxs_to_remove ->
           exists x, x ∈ cells /\ (Z.of_nat c <= x)%Z.
Proof.
  destruct remove_mesh_vertices_masks as (mask & Hmlen & Hkeep & ->).
  pose proof cells_in_range as Hcells.
  split.
  - intros [out Hout].
    destruct (array_max cells) as [top|] eqn:Htop; [|discriminate].
    cbn [mbind result_bind] in Hout.
    split; [intros E; rewrite E in Htop; discriminate|].
    pose proof (array_max_in cells top Htop) as Htopin.
    unfold np_empty in Hout.
    destruct (Z.ltb_spec (top + 1) 0) as [|Htop0]; [discriminate|].
    cbn [mbind result_bind] in Hout.
    destruct (assign_at _ _ _) as [arr|] eqn:Harr; [|discriminate].
    intros c Hc Hnot. exists top. split; [exact Htopin|].
    apply assign_at_lookup in Harr as (_ & Hset & _);
      [|apply NoDup_true_positions
       |rewrite length_fmap, length_seq; apply length_true_positions].
    assert (Htrue : c ∈ true_positions mask).
    { apply elem_of_true_positions. rewrite Hkeep by exact Hc.
      rewrite bool_decide_eq_false_2 by exact Hnot. reflexivity. }
    apply list_elem_of_lookup in Htrue as [j Hj].
    destruct (Hset j c Hj) as [_ Hlt].
    rewrite length_fmap, length_seq in Hlt. lia.
  - intros [Hne Hcover].
    destruct (array_max cells) as [top|] eqn:Htop;
      [|destruct cells; [congruence | discriminate]].
    cbn [mbind result_bind].
    pose proof (array_max_in cells top Htop) as Htopin.
    pose proof (array_max_ge cells top Htop) as Htopge.
    pose proof (proj1 (Forall_forall _ _) Hcells top Htopin) as Htoprange.
    cbn beta in Htoprange. unfold np_empty.
    destruct (Z.ltb_spec (top + 1) 0) as [|_]; [lia|].
    cbn [mbind result_bind].
    destruct (assign_at_returns (junk <$> seq 0 (Z.to_nat (top + 1)))
                (true_positions mask) (Z.of_nat <$> seq 0 (count_true mask)))
      as (arr & -> & Halen).
    { apply Forall_forall. intros c Hc. rewrite length_fmap, length_seq.
      apply elem_of_true_positions in Hc.
      pose proof (lookup_lt_Some _ _ _ Hc) as Hclt. rewrite Hmlen in Hclt.
      rewrite Hkeep in Hc by exact Hclt. injection Hc as Hc.
      apply negb_true_iff, bool_decide_eq_false in Hc.
      destruct (Hcover c Hclt Hc) as (x & Hx & Hle).
      pose proof (proj1 (Forall_forall _ _) Htopge x Hx) as Hxt.
      cbn beta in Hxt. lia. }
    rewrite length_fmap, length_seq in Halen. cbn [mbind result_bind].
    assert (Hmap : exists faces,
               mapM (remap_face arr)
                 (surviving_faces v_idxs_to_remove f_original) = Ok faces).
    { apply is_ok_true, mapM_is_ok, Forall_forall. intros [[a b] c] Hg.
      assert (Hcs : forall x, x ∈ face_cells (a, b, c) ->
                exists x', take_at arr x = Ok x').
      { intros x Hx. apply take_at_returns.
        assert (Hxc : x ∈ cells)
          by (unfold cells; apply list_elem_of_bind; eauto).
        pose proof (proj1 (Forall_forall _ _) Hcells x Hxc) as H1.
        pose proof (proj1 (Forall_forall _ _) Htopge x Hxc) as H2.
        cbn beta in H1, H2. lia. }
      cbn [face_cells remap_face] in Hcs |- *.
      destruct (Hcs a) as [a' ->]; [apply elem_of_cons; auto|].
      destruct (Hcs b) as [b' ->];
        [apply elem_of_cons; right; apply elem_of_cons; auto|].
      destruct (Hcs c) as [c' ->];
        [do 2 (apply elem_of_cons; right); apply elem_of_cons; auto|].
      reflexivity. }
    destruct Hmap as [faces ->]. eexists. reflexivity.
Qed.

(** X5. With removal indices from 0 to V-1
    and faces over those vertices, pruning raises [ValueError] when no
    face survives (the maximum of an empty array), and [IndexError] when
    a face survives and some surviving vertex has an index above every
    index the surviving faces refer to. *)
Theorem remove_mesh_vertices_raises :
  (cells = [] ->
   remove_mesh_vertices junk v_original f_original v_idxs_to_remove
   = Raise ValueError)
  /\ (cells <> [] ->
      (exists c, c < n /\ (Z.of_nat c ∉ v_idxs_to_remove)
                 /\ Forall (fun x => (x < Z.of_nat c)%Z) cells) ->
      remove_mesh_vertices junk v_original f_original v_idxs_to_remove
      = Raise IndexError).
Proof.
  destruct remove_mesh_vertices_masks as (mask & Hmlen & Hkeep & ->).
  pose proof cells_in_range as Hcells.
  split.
  - intros ->. reflexivity.
  - intros Hne (c & Hc & Hnot & Habove).
    destruct (array_max cells) as [top|] eqn:Htop;
      [|destruct cells; [congruence | discriminate]].
    cbn [mbind result_bind].
    pose proof (array_max_in cells top Htop) as Htopin.
    pose proof (proj1 (Forall_forall _ _) Hcells top Htopin) as Htoprange.
    pose proof (proj1 (Forall_forall _ _) Habove top Htopin) as Htopc.
    cbn beta in Htoprange, Htopc. unfold np_empty.
    destruct (Z.ltb_spec (top + 1) 0) as [|_]; [lia|].
    cbn [mbind result_bind].
    rewrite assign_at_raises; [reflexivity| |].
    + rewrite length_fmap, length_seq. apply length_true_positions.
    + apply Exists_exists. exists c. split.
      * apply elem_of_true_positions. rewrite Hkeep by exact Hc.
        rewrite bool_decide_eq_false_2 by exact Hnot. reflexivity.
      * rewrite length_fmap, length_seq. lia.
Qed.

End PruningReturns.

(** Two triangles sharing vertex 2; removing vertices 3 and 4 leaves the first. *)
Lemma remove_mesh_vertices_returns_iff_witness :
  (exists out,
     Utils.remove_mesh_vertices (fun _ => 0%Z) [10; 11; 12; 13; 14]
       [(0, 1, 2); (2, 3, 4)]%Z [3; 4]%Z
     = Ok out)
  <-> (Spec.surviving_faces [3; 4]%Z [(0, 1, 2); (2, 3, 4)]%Z
       ≫= Utils.face_cells) <> []
      /\ forall c, c < 5 -> Z.of_nat c ∉ [3; 4]%Z ->
           exists x,
             x ∈ Spec.surviving_faces [3; 4]%Z [(0, 1, 2); (2, 3, 4)]%Z
                 ≫= Utils.face_cells
             /\ (Z.of_nat c <= x)%Z.
Proof.
  apply (remove_mesh_vertices_returns_iff (fun _ => 0%Z) [10; 11; 12; 13; 14]
           [(0, 1, 2); (2, 3, 4)]%Z [3; 4]%Z).
  - repeat constructor; cbn; lia.
  - repeat constructor; cbn; lia.
Defined.

(** Removing vertex 3 of the same mesh leaves vertex 4 above every
    corner of the surviving face; removing vertex 2 leaves no face. *)
Lemma remove_mesh_vertices_raises_witness :
  Utils.remove_mesh_vertices (fun _ => 0%Z) [10; 11; 12; 13; 14]
    [(0, 1, 2); (2, 3, 4)]%Z [2%Z]
  = Raise ValueError
  /\ Utils.remove_mesh_vertices (fun _ => 0%Z) [10; 11; 12; 13; 14]
       [(0, 1, 2); (2, 3, 4)]%Z [3%Z]
     = Raise IndexError.
Proof.
  split.
  - apply (remove_mesh_vertices_raises (fun _ => 0%Z) [10; 11; 12; 13; 14]
             [(0, 1, 2); (2, 3, 4)]%Z [2%Z]).
    + repeat constructor; cbn; lia.
    + repeat constructor; cbn; lia.
    + reflexivity.
  - apply (remove_mesh_vertices_raises (fun _ => 0%Z) [10; 11; 12; 13; 14]
             [(0, 1, 2); (2, 3, 4)]%Z [3%Z]).
    + repeat constructor; cbn; lia.
    + repeat constructor; cbn; lia.
    + discriminate.
    + exists 4. split; [cbn; lia|]. split.
      * intros H. apply list_elem_of_In in H. cbn in H. intuition lia.
      * repeat constructor.
Defined.


(** Two triangles sharing vertex 2, the last two vertices removed. *)
Lemma remove_mesh_vertices_sound_witness :
  length [10; 11; 12] = length [10; 11; 12; 13; 14] - length [3; 4]%Z
  /\ length [true; true; true; false; false] = length [10; 11; 12; 13; 14]
  /\ (forall c, c < length [10; 11; 12; 13; 14] ->
        [true; true; true; false; false] !! c
        = Some (negb (bool_decide (Z.of_nat c ∈ [3; 4]%Z))))
  /\ Forall (fun c => (0 <= c < Z.of_nat (length [10; 11; 12]))%Z)
       ([(0, 1, 2)%Z] ≫= Utils.face_cells)
  /\ Forall2
       (fun old new =>
          Forall2 (fun c c' => [10; 11; 12; 13; 14] !! Z.to_nat c
                               = [10; 11; 12] !! Z.to_nat c')
            (Utils.face_cells old) (Utils.face_cells new))
       (filter (fun g => Forall (fun c => c ∉ [3; 4]%Z) (Utils.face_cells g))
          [(0, 1, 2); (2, 3, 4)]%Z)
       [(0, 1, 2)%Z].
Proof.
  apply (remove_mesh_vertices_sound (fun _ => 0%Z) [10; 11; 12; 13; 14]
           [(0, 1, 2); (2, 3, 4)]%Z [3; 4]%Z [10; 11; 12] [(0, 1, 2)%Z]
           [true; true; true; false; false]).
  - repeat constructor; cbn; lia.
  - apply NoDup_cons. split; [|apply NoDup_singleton].
    intros H. apply list_elem_of_singleton in H. discriminate.
  - repeat constructor; cbn; lia.
  - reflexivity.
Defined.

(** ** Loading a template *)

Section LoadTemplate.
Import Utils Spec.

Lemma region_members (colors : list colour) (edges : list (nat * nat))
    (c : colour) (i : nat) :
  i ∈ feature (region colors edges c) ++ contour (region colors edges c)
  <-> colors !! i = Some c.
Proof.
  unfold region, region_upto. cbn [feature contour].
  rewrite elem_of_app, !list_elem_of_In, !filter_In, !in_seq.
  unfold interior, border. split.
  - intros [[_ H]|[_ H]]; apply andb_prop in H as [H _];
      apply bool_decide_eq_true in H; exact H.
  - intros Hc. pose proof (lookup_lt_Some _ _ _ Hc) as Hlt.
    rewrite (bool_decide_eq_true_2 _ Hc). cbn [andb].
    destruct (same_around colors edges c i); cbn [negb];
      [left | right]; (split; [lia | reflexivity]).
Qed.

Lemma region_absent (colors : list colour) (edges : list (nat * nat))
    (c : colour) :
  c ∉ colors -> feature (region colors edges c) = [].
Proof.
  intros Hc. unfold region, region_upto. cbn [feature].
  induction (seq 0 (length colors)) as [|i l IH]; [reflexivity|].
  cbn [List.filter]. unfold interior at 1.
  rewrite bool_decide_eq_false_2; [exact IH|].
  intros Hi. apply Hc. eapply list_elem_of_lookup_2, Hi.
Qed.

Context {A : Type}.
Variables (edges_unique : list face -> list (nat * nat)) (junk : nat -> Z).
Variable mesh : Utils.mesh A.

Let colors : list colour := vertex_colors mesh.
Let edges : list (nat * nat) := edges_unique (faces mesh).

(** X6. Any [attribute_to_remove] other
    than the string ['none'] is looked up in the segmentation: the
    default [None], a value that is no key, and the key of a colour with
    fewer than three interior vertices (its bucket was dropped) all raise
    [KeyError] on a mesh that segments. *)
Theorem load_template_unknown_attribute (attribute_to_remove : attribute)
    (feat_and_cont : dict colour bucket) :
  extract_feature_and_contour_from_colour (Trimesh colors edges)
  = Ok feat_and_cont ->
  attribute_to_remove <> attr_none_string ->
  (forall c, attribute_to_remove = attr_key c ->
     length (feature (region colors edges c)) < 3) ->
  load_template edges_unique junk mesh attribute_to_remove = Raise KeyError.
Proof.
  intros Hseg Hnone Hsmall. unfold load_template. fold colors edges.
  rewrite Hseg. cbn [mbind result_bind].
  cbn [extract_feature_and_contour_from_colour] in Hseg.
  destruct attribute_to_remove as [| |c|]; try reflexivity; [congruence|].
  cbn [lookup_attribute].
  destruct (segment_regions colors edges feat_and_cont Hseg) as [_ Hget].
  rewrite Hget. cbv zeta.
  destruct (Nat.leb_spec 3 (length (feature (region colors edges c))))
    as [Hge|_]; [|reflexivity].
  specialize (Hsmall c eq_refl). lia.
Qed.

(** X7. When [load_template] is asked to
    remove the region of colour [c] and returns, the mask it returns is
    false exactly at the vertices of colour [c] (interior and contour
    alike), the positions and colours it returns are those of the other
    vertices, in order, and the segmentation it returns has no bucket
    for [c]. *)
Theorem load_template_removes_colour (c : colour) (d : Data A) :
  length (vertices mesh) = length (vertex_colors mesh) ->
  load_template edges_unique junk mesh (attr_key c) = Ok d ->
  length (data_mask_verts d) = length (vertices mesh)
  /\ (forall i col, colors !! i = Some col ->
        data_mask_verts d !! i = Some (negb (bool_decide (col = c))))
  /\ data_pos d = mask_select (vertices mesh) (data_mask_verts d)
  /\ data_colors d = filter (fun col => col <> c) colors
  /\ dict_get colour_eqb (data_feat_and_cont d) c = None.
Proof.
  intros Hlen H. unfold load_template in H. fold colors edges in H.
  destruct (extract_feature_and_contour_from_colour (Trimesh colors edges))
    as [F|] eqn:Hseg; [|discriminate].
  cbn [mbind result_bind lookup_attribute] in H.
  cbn [extract_feature_and_contour_from_colour] in Hseg.
  destruct (segment_regions colors edges F Hseg) as [_ Hget].
  rewrite Hget in H. cbv zeta in H.
  destruct (3 <=? length (feature (region colors edges c)));
    [|discriminate].
  cbn [or_raise mbind result_bind] in H.
  set (b := region colors edges c) in H.
  set (removal := Z.of_nat <$> sorted (feature b ++ contour b)) in H.
  assert (Hmem : forall i, Z.of_nat i ∈ removal <-> colors !! i = Some c).
  { intros i. subst removal. rewrite list_elem_of_fmap. split.
    - intros (j & Heq & Hj). apply Nat2Z.inj in Heq. subst j.
      apply elem_of_sorted, region_members in Hj. exact Hj.
    - intros Hi. exists i. split; [reflexivity|].
      apply elem_of_sorted, region_members. exact Hi. }
  assert (Hrange : Forall (fun i => (0 <= i < Z.of_nat (length (vertices mesh)))%Z)
                     removal).
  { apply Forall_forall. intros z Hz. subst removal.
    apply list_elem_of_fmap in Hz as (j & -> & Hj).
    apply elem_of_sorted, region_members, lookup_lt_Some in Hj.
    fold colors in Hlen. lia. }
  destruct (remove_mesh_vertices_masks junk (vertices mesh) (faces mesh)
              removal Hrange) as (mask & Hmlen & Hkeep & Heq).
  rewrite Heq in H. clear Heq.
  destruct (array_max _) as [top|]; [|discriminate].
  cbn [mbind result_bind] in H.
  destruct (np_empty junk (top + 1)) as [arr0|]; [|discriminate].
  cbn [mbind result_bind] in H.
  destruct (assign_at _ _ _) as [arr|]; [|discriminate].
  cbn [mbind result_bind] in H.
  destruct (mapM (remap_face arr) _) as [new_faces|]; [|discriminate].
  cbn [mbind result_bind] in H. unfold bool_index in H.
  fold colors in H, Hlen. rewrite Hmlen, <- Hlen, Nat.eqb_refl in H.
  cbn [mbind result_bind vertex_colors faces vertices] in H.
  set (colours := mask_select colors mask) in H.
  destruct (extract_feature_and_contour_from_colour
              (Trimesh colours (edges_unique new_faces)))
    as [F2|] eqn:Hseg2; [|discriminate].
  cbn [mbind result_bind] in H. injection H as <-.
  cbn [data_mask_verts data_pos data_colors data_feat_and_cont].
  assert (Hmask : forall i col, colors !! i = Some col ->
            mask !! i = Some (negb (bool_decide (col = c)))).
  { intros i col Hi. rewrite Hkeep by (apply lookup_lt_Some in Hi; lia).
    do 2 f_equal. apply bool_decide_ext. rewrite Hmem, Hi.
    split; congruence. }
  assert (Hcolours : colours = filter (fun col => col <> c) colors).
  { subst colours. apply mask_select_filter; [lia|].
    intros r col Hr. rewrite (Hmask r col Hr). f_equal.
    destruct (decide (col = c)) as [E|E].
    - rewrite (bool_decide_eq_true_2 _ E).
      rewrite bool_decide_eq_false_2 by tauto. reflexivity.
    - rewrite (bool_decide_eq_false_2 _ E).
      rewrite bool_decide_eq_true_2 by exact E. reflexivity. }
  split; [exact Hmlen|]. split; [exact Hmask|]. split; [reflexivity|].
  split; [exact Hcolours|].
  cbn [extract_feature_and_contour_from_colour] in Hseg2.
  destruct (segment_regions colours (edges_unique new_faces) F2 Hseg2)
    as [_ Hget2].
  rewrite Hget2. cbv zeta. rewrite region_absent; [reflexivity|].
  rewrite Hcolours. intros Hin. apply list_elem_of_filter in Hin as [Hne _].
  congruence.
Qed.

End LoadTemplate.

(** The red tetrahedron removed from the two: the blue one is left. *)
Lemma load_template_removes_colour_witness :
  let d :=
    {| Utils.data_pos := [0; 1; 2; 3];
       Utils.data_face := ([0; 0; 0; 1], [1; 1; 2; 2], [2; 3; 3; 3])%Z;
       Utils.data_colors := replicate 4 [0; 0; 255; 255]%Z;
       Utils.data_feat_and_cont :=
         [([0; 0; 255; 255]%Z, Utils.Bucket [0; 1; 2; 3] [])];
       Utils.data_mask_verts :=
         [true; true; true; true; false; false; false; false] |} in
  length (Utils.data_mask_verts d)
  = length (Utils.vertices Spec.two_tetrahedra)
  /\ (forall i col,
        Utils.vertex_colors Spec.two_tetrahedra !! i = Some col ->
        Utils.data_mask_verts d !! i
        = Some (negb (bool_decide (col = [255; 0; 0; 255]%Z))))
  /\ Utils.data_pos d
     = Utils.mask_select (Utils.vertices Spec.two_tetrahedra)
         (Utils.data_mask_verts d)
  /\ Utils.data_colors d
     = filter (fun col => col <> [255; 0; 0; 255]%Z)
         (Utils.vertex_colors Spec.two_tetrahedra)
  /\ Utils.dict_get Utils.colour_eqb (Utils.data_feat_and_cont d)
       [255; 0; 0; 255]%Z
     = None.
Proof.
  cbv zeta.
  apply (load_template_removes_colour Spec.edges_of_faces (fun _ => 0%Z)
           Spec.two_tetrahedra [255; 0; 0; 255]%Z).
  - reflexivity.
  - vm_compute. reflexivity.
Defined.

(** The default [None] on the two tetrahedra. *)
Lemma load_template_unknown_attribute_witness :
  Utils.load_template Spec.edges_of_faces (fun _ => 0%Z) Spec.two_tetrahedra
    Utils.attr_None
  = Raise KeyError.
Proof.
  apply (load_template_unknown_attribute Spec.edges_of_faces (fun _ => 0%Z)
           Spec.two_tetrahedra Utils.attr_None
           [([0; 0; 255; 255]%Z, Utils.Bucket [0; 1; 2; 3] []);
            ([255; 0; 0; 255]%Z, Utils.Bucket [4; 5; 6; 7] [])]).
  - vm_compute. reflexivity.
  - discriminate.
  - discriminate.
Defined.

(** ** Gradient reversal *)

Section GradientReversal.
Import Tensor.
#[local] Open Scope R_scope.

(** C6. The forward pass of the gradient-reversal operator returns its
    input unchanged, and its backward pass returns, entry by entry, the
    negation of the incoming gradient scaled by the [alpha] stored by the
    forward pass: the opposite of the scaled gradient [alpha * g] that
    would flow back without the reversal. No gradient is returned for
    [alpha] itself. *)
Theorem GradientReversalFn_forward_identity_backward_negates
    (x grad_output : tensor2) (alpha : R) :
  (GradientReversalFn_forward x alpha).2 = x
  /\ (GradientReversalFn_backward (GradientReversalFn_forward x alpha).1
        grad_output).1
     = (fun row : list R => (fun g => - (alpha * g)) <$> row) <$> grad_output
  /\ (GradientReversalFn_backward (GradientReversalFn_forward x alpha).1
        grad_output).2 = None.
Proof.
  split; [reflexivity|]. split; [|reflexivity].
  cbn. apply list_fmap_ext. intros _ row _.
  apply list_fmap_ext. intros _ g _. ring.
Qed.
End GradientReversal.

(** ** Reparameterisation *)

Section Broadcast.
Context {A B C : Type}.

(** On axes of one length, broadcasting pairs the entries up. *)
Lemma broadcast_same (f : A -> B -> result C) (g : A -> B -> C)
    (xs : list A) (ys : list B) :
  Forall2 (fun x y => f x y = Ok (g x y)) xs ys ->
  Tensor.broadcast f xs ys = Ok (zip_with g xs ys).
Proof.
  intros H. unfold Tensor.broadcast.
  rewrite (Forall2_length _ _ _ H), Nat.eqb_refl.
  apply mapM_ok. induction H; cbn; constructor; auto.
Qed.
End Broadcast.

Section Reparameterize.
Import Tensor.
#[local] Open Scope R_scope.

Lemma Forall2_same_width {X Y} (n : nat) (xs : list (list X))
    (ys : list (list Y)) :
  length xs = length ys ->
  Forall (fun r => length r = n) xs ->
  Forall (fun r => length r = n) ys ->
  Forall2 (fun r s => length r = length s) xs ys.
Proof.
  intros Hlen Hx. revert ys Hlen.
  induction Hx as [|x xs Hx _ IH]; intros [|y ys] Hlen Hy;
    try discriminate; constructor.
  - inversion Hy; subst. congruence.
  - inversion Hy; subst. apply IH; auto.
Qed.

Lemma add2_same (x y : tensor2) :
  Forall2 (fun r s => length r = length s) x y ->
  add2 x y = Ok (zip_with (zip_with Rplus) x y).
Proof.
  intros H. unfold add2. apply broadcast_same.
  eapply Forall2_impl; [exact H|]. intros r s Hrs. cbn beta.
  apply broadcast_same. clear H.
  revert s Hrs. induction r as [|a r IH]; intros [|b s] Hrs;
    try discriminate; constructor; auto.
Qed.

Lemma mul2_same (x y : tensor2) :
  Forall2 (fun r s => length r = length s) x y ->
  mul2 x y = Ok (zip_with (zip_with Rmult) x y).
Proof.
  intros H. unfold mul2. apply broadcast_same.
  eapply Forall2_impl; [exact H|]. intros r s Hrs. cbn beta.
  apply broadcast_same. clear H.
  revert s Hrs. induction r as [|a r IH]; intros [|b s] Hrs;
    try discriminate; constructor; auto.
Qed.

Lemma randn_like_shape (noise : nat -> nat -> R) (t : tensor2) :
  Forall2 (fun r s => length r = length s) (randn_like noise t) t.
Proof.
  unfold randn_like. apply Forall2_same_length_lookup_2.
  - apply length_imap.
  - intros i r s Hr Hs. rewrite list_lookup_imap, Hs in Hr.
    injection Hr as <-. apply length_imap.
Qed.

Lemma last_column_ok (n : nat) (x : tensor2) :
  Forall (fun r => length r = S n) x ->
  last_column x = Ok ((fun r => [List.last r 0]) <$> x).
Proof.
  intros H. unfold last_column. apply mapM_ok_fmap.
  eapply Forall_impl; [exact H|]. intros r Hr. cbn beta.
  destruct (last r) as [v|] eqn:Hl.
  - cbn. do 3 f_equal. apply last_Some in Hl as [r' ->].
    symmetry. apply List.last_last.
  - apply last_None in Hl. subst r. discriminate.
Qed.
End Reparameterize.

Section ReparameterizeClaim.
Import Tensor.
#[local] Open Scope R_scope.

(** One row of [mu_feat + eps * std]. *)
Lemma noisy_row (g : nat -> R) (f : R -> R) (feat lv : list R) :
  zip_with Rplus feat
    (zip_with Rmult (imap (fun j _ => g j) (f <$> lv)) (f <$> lv))
  = imap (fun j (p : R * R) => p.1 + g j * f p.2) (zip feat lv).
Proof.
  revert g lv. induction feat as [|a feat IH]; intros g [|l lv]; cbn;
    try reflexivity.
  f_equal. apply (IH (fun j => g (S j))).
Qed.

(** The value [_reparameterize] returns when the age entry is kept
    apart. *)
Lemma reparameterize_separate (noise : nat -> nat -> R) (mu logvar : tensor2)
    (v : version) (n : nat) :
  Qeq_bool v v2_3 = false ->
  Forall (fun row => length row = S n) mu ->
  Forall (fun row => length row = n) logvar ->
  length mu = length logvar ->
  _reparameterize noise mu logvar true false v
  = Ok (imap (fun i (p : list R * list R) =>
                imap (fun j (q : R * R) =>
                        q.1 + noise i j * exp (0.5 * q.2))
                  (zip (removelast p.1) p.2)
                ++ [List.last p.1 0])
          (zip mu logvar)).
Proof.
  intros Hv Hmu Hlv Hlen. unfold _reparameterize, separate_age. rewrite Hv.
  cbn [andb negb].
  set (f := fun l : R => exp (0.5 * l)).
  set (std := (fun row : list R => f <$> row) <$> logvar).
  rewrite (last_column_ok n) by assumption. cbn [mbind result_bind].
  rewrite mul2_same by apply randn_like_shape. cbn [mbind result_bind].
  assert (Hstd : Forall (fun r => length r = n) std).
  { subst std. apply Forall_fmap. eapply Forall_impl; [exact Hlv|].
    intros r Hr. cbn. rewrite length_fmap. exact Hr. }
  assert (Hfeat : Forall (fun r => length r = n) (drop_last_column mu)).
  { unfold drop_last_column. apply Forall_fmap.
    eapply Forall_impl; [exact Hmu|]. intros r Hr. cbn.
    destruct (decide (r = [])) as [->|Hne]; [discriminate|].
    destruct (exists_last Hne) as (r' & a & ->).
    rewrite removelast_last. rewrite length_app in Hr. cbn in Hr. lia. }
  assert (Hnoisy : Forall (fun r => length r = n)
                     (zip_with (zip_with Rmult) (randn_like noise std) std)).
  { apply Forall_forall. intros r Hr.
    apply list_elem_of_lookup in Hr as [i Hi].
    rewrite (lookup_zip_with (zip_with Rmult)) in Hi. unfold randn_like in Hi.
    rewrite list_lookup_imap in Hi.
    destruct (std !! i) as [s|] eqn:Hs; [|discriminate]. cbn in Hi.
    injection Hi as <-. rewrite length_zip_with, length_imap.
    rewrite (proj1 (Forall_lookup _ _) Hstd i s Hs). lia. }
  assert (Hstdlen : length std = length logvar)
    by (subst std; apply length_fmap).
  rewrite add2_same.
  2:{ apply (Forall2_same_width n); auto.
      unfold drop_last_column. rewrite length_fmap, length_zip_with.
      unfold randn_like. rewrite length_imap. lia. }
  cbn [mbind result_bind]. unfold cat1.
  rewrite !length_zip_with, !length_fmap. unfold drop_last_column, randn_like.
  rewrite length_fmap, length_imap.
  replace (length mu `min` (length std `min` length std) =? length mu)%nat
    with true by (symmetry; apply Nat.eqb_eq; lia).
  f_equal. apply list_eq. intros i.
  rewrite list_lookup_imap, (lookup_zip_with app).
  rewrite (lookup_zip_with (zip_with Rplus)), (lookup_zip_with (zip_with Rmult)).
  rewrite !list_lookup_fmap, list_lookup_imap. subst std.
  rewrite list_lookup_fmap, (lookup_zip_with pair).
  destruct (mu !! i) as [m|]; cbn; [|reflexivity].
  destruct (logvar !! i) as [l|]; cbn; [|reflexivity].
  f_equal. f_equal. apply noisy_row.
Qed.

(** The value [_reparameterize] returns when the age entry is not kept
    apart. *)
Lemma reparameterize_whole (noise : nat -> nat -> R) (mu logvar : tensor2)
    (age_disentanglement old_experiment : bool) (v : version) (n : nat) :
  separate_age age_disentanglement old_experiment v = false ->
  Forall (fun row => length row = n) mu ->
  Forall (fun row => length row = n) logvar ->
  length mu = length logvar ->
  _reparameterize noise mu logvar age_disentanglement old_experiment v
  = Ok (imap (fun i (p : list R * list R) =>
                imap (fun j (q : R * R) =>
                        q.1 + noise i j * exp (0.5 * q.2))
                  (zip p.1 p.2))
          (zip mu logvar)).
Proof.
  intros Hsep Hmu Hlv Hlen. unfold _reparameterize. rewrite Hsep.
  set (f := fun l : R => exp (0.5 * l)).
  set (std := (fun row : list R => f <$> row) <$> logvar).
  rewrite mul2_same by apply randn_like_shape. cbn [mbind result_bind].
  assert (Hstd : Forall (fun r => length r = n) std).
  { subst std. apply Forall_fmap. eapply Forall_impl; [exact Hlv|].
    intros r Hr. cbn. rewrite length_fmap. exact Hr. }
  assert (Hnoisy : Forall (fun r => length r = n)
                     (zip_with (zip_with Rmult) (randn_like noise std) std)).
  { apply Forall_forall. intros r Hr.
    apply list_elem_of_lookup in Hr as [i Hi].
    rewrite (lookup_zip_with (zip_with Rmult)) in Hi. unfold randn_like in Hi.
    rewrite list_lookup_imap in Hi.
    destruct (std !! i) as [s|] eqn:Hs; [|discriminate]. cbn in Hi.
    injection Hi as <-. rewrite length_zip_with, length_imap.
    rewrite (proj1 (Forall_lookup _ _) Hstd i s Hs). lia. }
  assert (Hstdlen : length std = length logvar)
    by (subst std; apply length_fmap).
  rewrite add2_same.
  2:{ apply (Forall2_same_width n); auto.
      rewrite length_zip_with. unfold randn_like. rewrite length_imap. lia. }
  f_equal. apply list_eq. intros i.
  rewrite list_lookup_imap.
  rewrite (lookup_zip_with (zip_with Rplus)), (lookup_zip_with (zip_with Rmult)).
  unfold randn_like. rewrite list_lookup_imap. subst std.
  rewrite list_lookup_fmap, (lookup_zip_with pair).
  destruct (mu !! i) as [m|]; cbn; [|reflexivity].
  destruct (logvar !! i) as [l|]; cbn; [|reflexivity].
  f_equal. apply noisy_row.
Qed.

(** C1 (as amended). For a log-variance of width [n] over one batch
    with the mean. When the age entry is kept apart, that is when
    [age_disentanglement] is set, [old_experiment] is not and the model
    version is not 2.3, and the mean has width [n + 1],
    [_reparameterize] returns a tensor whose every row is the feature
    part of the mean row plus sample times [exp (0.5 * logvar)],
    followed by the trailing entry of the mean row, untouched. In every
    other case ([old_experiment] set, version 2.3, or no
    [age_disentanglement]) and for a mean of width [n], every entry of
    the mean row, the trailing one included, receives its sample times
    [exp (0.5 * logvar)]. *)
Theorem reparameterize_isolates_age (noise : nat -> nat -> R)
    (mu logvar : tensor2) (v : version) (n : nat) :
  Forall (fun row => length row = n) logvar ->
  length mu = length logvar ->
  (Qeq_bool v v2_3 = false ->
   Forall (fun row => length row = S n) mu ->
   exists z,
     _reparameterize noise mu logvar true false v = Ok z
     /\ length z = length mu
     /\ forall i z_i mu_i logvar_i,
          z !! i = Some z_i -> mu !! i = Some mu_i ->
          logvar !! i = Some logvar_i ->
          exists mu_feat mu_age,
            mu_i = mu_feat ++ [mu_age]
            /\ z_i = imap (fun j (q : R * R) =>
                             q.1 + noise i j * exp (0.5 * q.2))
                       (zip mu_feat logvar_i)
                     ++ [mu_age]
            /\ last z_i = last mu_i)
  /\ (forall age_disentanglement old_experiment : bool,
        separate_age age_disentanglement old_experiment v = false ->
        Forall (fun row => length row = n) mu ->
        exists z,
          _reparameterize noise mu logvar age_disentanglement old_experiment v
          = Ok z
          /\ length z = length mu
          /\ forall i z_i mu_i logvar_i,
               z !! i = Some z_i -> mu !! i = Some mu_i ->
               logvar !! i = Some logvar_i ->
               length z_i = length mu_i
               /\ z_i = imap (fun j (q : R * R) =>
                                q.1 + noise i j * exp (0.5 * q.2))
                          (zip mu_i logvar_i)).
Proof.
  intros Hlv Hlen. split.
  - intros Hv Hmu. eexists. split; [|split].
    + apply (reparameterize_separate noise mu logvar v n); assumption.
    + rewrite length_imap, length_zip. lia.
    + intros i z_i mu_i lv_i Hz Hm Hl.
      rewrite list_lookup_imap, (lookup_zip_with pair), Hm, Hl in Hz.
      cbn in Hz. injection Hz as <-.
      pose proof (proj1 (Forall_lookup _ _) Hmu i mu_i Hm) as Hw.
      destruct (decide (mu_i = [])) as [->|Hne]; [discriminate|].
      destruct (exists_last Hne) as (feat & age & ->).
      exists feat, age. rewrite removelast_last, List.last_last.
      split; [reflexivity|]. split; [reflexivity|].
      rewrite !last_snoc. reflexivity.
  - intros ad oe Hsep Hmu. eexists. split; [|split].
    + apply (reparameterize_whole noise mu logvar ad oe v n); assumption.
    + rewrite length_imap, length_zip. lia.
    + intros i z_i mu_i lv_i Hz Hm Hl.
      rewrite list_lookup_imap, (lookup_zip_with pair), Hm, Hl in Hz.
      cbn in Hz. injection Hz as <-. split; [|reflexivity].
      rewrite length_imap, length_zip.
      rewrite (proj1 (Forall_lookup _ _) Hmu i mu_i Hm).
      rewrite (proj1 (Forall_lookup _ _) Hlv i lv_i Hl). lia.
Qed.

(** The theorem at a batch of one: the mean [[2; 3; 7]] with the age
    entry kept apart, the mean [[2; 3]] under version 2.3, both with
    log-variance [[0; 0]]. *)
Lemma reparameterize_isolates_age_witness :
  (exists z,
     _reparameterize (fun _ _ => 1) [[2; 3; 7]] [[0; 0]] true false 1%Q = Ok z
     /\ length z = 1%nat)
  /\ (exists z,
        _reparameterize (fun _ _ => 1) [[2; 3]] [[0; 0]] true false v2_3
        = Ok z
        /\ length z = 1%nat).
Proof.
  split.
  - destruct (reparameterize_isolates_age (fun _ _ => 1) [[2; 3; 7]]
                [[0; 0]] 1%Q 2) as [Hsep _].
    + repeat constructor.
    + reflexivity.
    + destruct Hsep as (z & Hz & Hlen & _).
      * reflexivity.
      * repeat constructor.
      * exists z. split; assumption.
  - destruct (reparameterize_isolates_age (fun _ _ => 1) [[2; 3]]
                [[0; 0]] v2_3 2) as [_ Hwhole].
    + repeat constructor.
    + reflexivity.
    + destruct (Hwhole true false) as (z & Hz & Hlen & _).
      * reflexivity.
      * repeat constructor.
      * exists z. split; assumption.
Defined.

(** C1 (as stated) fails: with [age_disentanglement] set and
    [old_experiment] set as well, the whole mean is perturbed, the
    trailing entry included. Mean [[0; 0]], log-variance [[0; 0]] and
    the sample 1 everywhere give [[1; 1]]. *)
Lemma reparameterize_old_experiment_perturbs_age :
  _reparameterize (fun _ _ => 1) [[0; 0]] [[0; 0]] true true 1%Q
  = Ok [[1; 1]]
  /\ last [1; 1] <> last [0; 0].
Proof.
  split.
  - cbn. replace (0.5 * 0) with 0 by lra. rewrite exp_0.
    replace (0 + 1 * 1) with 1 by lra. reflexivity.
  - cbn. intros H. injection H as H. lra.
Qed.
End ReparameterizeClaim.

(** ** Pooling *)

Section PoolLinear.
Import Tensor Spec.
#[local] Open Scope R_scope.

Variables a b : R.

Lemma lincomb1_add (ax ay vx vy : list R) :
  zip_with Rplus (lincomb1 a b ax ay) (lincomb1 a b vx vy)
  = lincomb1 a b (zip_with Rplus ax vx) (zip_with Rplus ay vy).
Proof.
  unfold lincomb1. revert ay vx vy.
  induction ax as [|u ax IH]; intros [|v ay] [|p vx] [|q vy]; cbn;
    try reflexivity.
  f_equal; [ring | apply IH].
Qed.

Lemma lincomb1_scale (w : R) (x y : list R) :
  (fun v => v * w) <$> lincomb1 a b x y
  = lincomb1 a b ((fun v => v * w) <$> x) ((fun v => v * w) <$> y).
Proof.
  unfold lincomb1. revert y.
  induction x as [|u x IH]; intros [|v y]; cbn; try reflexivity.
  f_equal; [ring | apply IH].
Qed.

Lemma lincomb1_zeros (n m : nat) :
  lincomb1 a b (replicate n 0) (replicate m 0) = replicate (n `min` m) 0.
Proof.
  unfold lincomb1. revert m.
  induction n as [|n IH]; intros [|m]; cbn; try reflexivity.
  f_equal; [ring | apply IH].
Qed.

Lemma width_lincomb2 (x y : tensor2) :
  length x = length y ->
  width (lincomb2 a b x y) = (width x `min` width y)%nat.
Proof.
  destruct x as [|r x], y as [|s y]; cbn; try discriminate; try reflexivity.
  intros _. unfold lincomb1. apply length_zip_with.
Qed.

Lemma aligned_bind {X Y} (P : X -> X -> X -> Prop) (Q : Y -> Y -> Y -> Prop)
    (mx my mz : result X) (fx fy fz : X -> result Y) :
  aligned P mx my mz ->
  (forall x y z, P x y z -> aligned Q (fx x) (fy y) (fz z)) ->
  aligned Q (mx ≫= fx) (my ≫= fy) (mz ≫= fz).
Proof. intros [x y z H|e] HQ; cbn; [auto | constructor]. Qed.

Lemma aligned_mapM {X Y} (P : Y -> Y -> Y -> Prop) (f g h : X -> result Y)
    (xs ys zs : list X) :
  Forall3 (fun x y z => aligned P (f x) (g y) (h z)) xs ys zs ->
  aligned (Forall3 P) (mapM f xs) (mapM g ys) (mapM h zs).
Proof.
  induction 1 as [|x y z xs ys zs Hxyz _ IH]; cbn.
  - constructor. constructor.
  - eapply aligned_bind; [exact Hxyz|]. intros u v w Huvw.
    eapply aligned_bind; [exact IH|]. intros us vs ws Hs.
    constructor. constructor; assumption.
Qed.

Lemma gather_aligned (x y : tensor2) (e : nat * nat * R) :
  length x = length y ->
  aligned (gathered_rel a b)
    (row ← getitem x e.1.2; Ok (e.1.1, (fun v => v * e.2) <$> (row : list R)))
    (row ← getitem y e.1.2; Ok (e.1.1, (fun v => v * e.2) <$> (row : list R)))
    (row ← getitem (lincomb2 a b x y) e.1.2;
     Ok (e.1.1, (fun v => v * e.2) <$> (row : list R))).
Proof.
  intros Hlen. destruct e as [[r c] w]. cbn [fst snd].
  unfold getitem, lincomb2. rewrite (lookup_zip_with (lincomb1 a b)).
  destruct (x !! c) as [rx|] eqn:Hx.
  - destruct (lookup_lt_is_Some_2 y c) as [ry Hy].
    { rewrite <- Hlen. eapply lookup_lt_Some, Hx. }
    rewrite Hy. cbn. constructor. split; [reflexivity|].
    cbn. rewrite lincomb1_scale. reflexivity.
  - assert (Hy : y !! c = None).
    { apply lookup_ge_None. rewrite <- Hlen. apply lookup_ge_None, Hx. }
    rewrite Hy. cbn. constructor.
Qed.

Lemma scatter_row_aligned (p q z : nat * list R) (ox oy : tensor2) :
  gathered_rel a b p q z ->
  length ox = length oy ->
  aligned (fun px py pz => pz = lincomb2 a b px py /\ length px = length py)
    (scatter_row p ox) (scatter_row q oy)
    (scatter_row z (lincomb2 a b ox oy)).
Proof.
  destruct p as [r vx], q as [r' vy]. intros [Hr ->] Hlen.
  cbn in Hr. subst r'. unfold scatter_row. cbn [fst snd].
  unfold lincomb2. rewrite (lookup_zip_with (lincomb1 a b)).
  destruct (ox !! r) as [accx|] eqn:Hx.
  - destruct (lookup_lt_is_Some_2 oy r) as [accy Hy].
    { rewrite <- Hlen. eapply lookup_lt_Some, Hx. }
    rewrite Hy. cbn. rewrite lincomb1_add.
    rewrite (insert_zip_with (lincomb1 a b)).
    constructor. split; [reflexivity|]. rewrite !length_insert. exact Hlen.
  - assert (Hy : oy !! r = None).
    { apply lookup_ge_None. rewrite <- Hlen. apply lookup_ge_None, Hx. }
    rewrite Hy. cbn. constructor.
Qed.

Lemma scatter_aligned (gx gy gz : list (nat * list R)) :
  Forall3 (gathered_rel a b) gx gy gz ->
  forall ox oy : tensor2,
    length ox = length oy ->
    aligned (fun px py pz => pz = lincomb2 a b px py)
      (for_each scatter_row gx ox)
      (for_each scatter_row gy oy)
      (for_each scatter_row gz (lincomb2 a b ox oy)).
Proof.
  induction 1 as [|p q z gx gy gz Hpqz _ IH]; intros ox oy Hlen; cbn.
  - constructor. reflexivity.
  - eapply aligned_bind; [apply scatter_row_aligned; eassumption|].
    intros px py pz [-> Hl]. apply IH, Hl.
Qed.

Lemma zeros_lincomb2 (rows n m : nat) :
  lincomb2 a b (replicate rows (replicate n 0)) (replicate rows (replicate m 0))
  = replicate rows (replicate (n `min` m) 0).
Proof.
  unfold lincomb2. induction rows as [|rows IH]; cbn; [reflexivity|].
  rewrite lincomb1_zeros, IH. reflexivity.
Qed.

Lemma Forall3_same {X} (P : X -> X -> X -> Prop) (xs : list X) :
  Forall (fun x => P x x x) xs -> Forall3 P xs xs xs.
Proof. induction 1; constructor; auto. Qed.

Lemma pool_one_aligned (trans : sparse) (x y : tensor2) :
  length x = length y ->
  aligned (fun px py pz => pz = lincomb2 a b px py)
    (pool_one trans x) (pool_one trans y)
    (pool_one trans (lincomb2 a b x y)).
Proof.
  intros Hlen. unfold pool_one.
  eapply aligned_bind.
  - apply aligned_mapM, Forall3_same, Forall_forall. intros e _.
    apply gather_aligned, Hlen.
  - intros gx gy gz Hg. cbn beta.
    rewrite width_lincomb2 by assumption.
    rewrite <- zeros_lincomb2.
    apply scatter_aligned; [assumption|]. rewrite !length_replicate.
    reflexivity.
Qed.

Lemma Forall3_zip_with {X} (f : X -> X -> X) (xs ys zs : list X) :
  Forall3 (fun x y z => z = f x y) xs ys zs -> zs = zip_with f xs ys.
Proof. induction 1; cbn; congruence. Qed.

Lemma Pool_aligned (trans : sparse) (x y : tensor3) :
  Forall2 (fun s t => length s = length t) x y ->
  aligned (fun px py pz => pz = lincomb a b px py)
    (Pool x trans) (Pool y trans) (Pool (lincomb a b x y) trans).
Proof.
  intros H. unfold Pool, lincomb.
  assert (HA : aligned (Forall3 (fun px py pz => pz = lincomb2 a b px py))
                 (mapM (pool_one trans) x) (mapM (pool_one trans) y)
                 (mapM (pool_one trans) (zip_with (lincomb2 a b) x y))).
  { apply aligned_mapM. induction H as [|s t x y Hst _ IH]; cbn;
      constructor; [apply pool_one_aligned, Hst | exact IH]. }
  destruct HA as [px py pz HF|e]; constructor.
  apply Forall3_zip_with, HF.
Qed.

(** [Pool] of a linear combination: the three calls return together,
    or raise the same exception together. *)
Lemma Pool_lincomb (trans : sparse) (x y : tensor3) :
  Forall2 (fun s t => length s = length t) x y ->
  Pool (lincomb a b x y) trans
  = (px ← Pool x trans; py ← Pool y trans; Ok (lincomb a b px py)).
Proof.
  intros H. destruct (Pool_aligned trans x y H) as [px py pz ->|e];
    reflexivity.
Qed.
End PoolLinear.

(** ** The variants of [forward] *)

Section Bound.
Import Tensor Shapes Spec.

Lemma bound_bind {A B} (m : result A) (f : A -> result B) :
  bound m -> (forall a, bound (f a)) -> bound (m ≫= f).
Proof.
  destruct m as [a|e]; intros H1 H2; [apply H2|].
  intros Heq. apply H1. injection Heq as ->. reflexivity.
Qed.

Lemma bound_fmap {A B} (m : result A) (f : A -> B) :
  bound m -> bound (f <$> m).
Proof.
  destruct m as [a|e]; intros H1; [discriminate|].
  intros Heq. apply H1. injection Heq as ->. reflexivity.
Qed.

Lemma bound_for_each {A S} (body : A -> S -> result S) (xs : list A) (s : S) :
  (forall x s, bound (body x s)) -> bound (for_each body xs s).
Proof.
  intros H. revert s. induction xs; intros s; cbn; [discriminate|].
  apply bound_bind; auto.
Qed.

Lemma bound_mapM {A B} (f : A -> result B) (xs : list A) :
  (forall x, bound (f x)) -> bound (mapM f xs).
Proof.
  intros H. induction xs; cbn; [discriminate|].
  apply bound_bind; [auto|]. intros b. apply bound_bind; [auto|]. discriminate.
Qed.

Ltac bound_step :=
  match goal with
  | |- bound (Ok _) => discriminate
  | |- bound (Raise _) => discriminate
  | |- bound (mret _) => discriminate
  | |- bound (_ ≫= _) => apply bound_bind; [|intros ?]
  | |- bound (_ <$> _) => apply bound_fmap
  | |- bound (for_each _ _ _) => apply bound_for_each; intros ? ?
  | |- bound (mapM _ _) => apply bound_mapM; intros ?
  | |- bound (if ?c then _ else _) => destruct c
  | |- bound (match ?x with _ => _ end) => destruct x
  | |- bound _ => solve [auto with bound]
  end.
Ltac bound_auto := repeat bound_step.

Create HintDb bound discriminated.

Lemma bound_or_raise {A} (e : exn) (o : option A) :
  e <> UnboundLocalError -> bound (or_raise e o).
Proof. unfold bound. destruct o; cbn; congruence. Qed.

Lemma bound_np_index (n : nat) (i : Z) : bound (np_index n i).
Proof. unfold np_index. bound_auto. Qed.

Lemma bound_getitem {A} (a : list A) (i : nat) : bound (getitem a i).
Proof. apply bound_or_raise. discriminate. Qed.
Hint Resolve bound_np_index bound_getitem : bound.

Lemma bound_getitem_int {A} (a : list A) (i : Z) : bound (getitem_int a i).
Proof. unfold getitem_int. bound_auto. Qed.

Lemma bound_view_infer (numel known : nat) : bound (view_infer numel known).
Proof. unfold view_infer. bound_auto. Qed.

Lemma bound_index_select_check (n : nat) (index : list nat) :
  bound (index_select_check n index).
Proof. unfold index_select_check. bound_auto. Qed.

Lemma bound_Linear_forward2 (l : Linear.t) (x : shape2) :
  bound (Linear.forward2 l x).
Proof. unfold Linear.forward2. bound_auto. Qed.

Lemma bound_Linear_forward3 (l : Linear.t) (x : shape3) :
  bound (Linear.forward3 l x).
Proof. unfold Linear.forward3. bound_auto. Qed.
Hint Resolve bound_getitem_int bound_view_infer bound_index_select_check
  bound_Linear_forward2 bound_Linear_forward3 : bound.

Lemma bound_SpiralConv_forward (c : SpiralConv.t) (x : shape3) :
  bound (SpiralConv.forward c x).
Proof. unfold SpiralConv.forward. destruct x as [[bs n] ch]. bound_auto. Qed.

Lemma bound_Pool (x : shape3) (trans : sparse) : bound (Shapes.Pool x trans).
Proof. unfold Shapes.Pool. destruct x as [[bs n] ch]. bound_auto. Qed.
Hint Resolve bound_SpiralConv_forward bound_Pool : bound.

Lemma bound_call_block (layer : module) (x : shape3) (t : sparse) :
  bound (call_block layer x t).
Proof.
  unfold call_block, SpiralEnblock_forward, SpiralDeblock_forward. bound_auto.
Qed.

Lemma bound_call3 (layer : module) (x : shape3) : bound (call3 layer x).
Proof. unfold call3. bound_auto. Qed.

Lemma bound_call2 (training : bool) (layer : module) (x : shape2) :
  bound (call2 training layer x).
Proof. unfold call2. bound_auto. Qed.
Hint Resolve bound_call_block bound_call3 bound_call2 : bound.

Lemma bound_Sequential (training : bool) (layers : list module) (x : shape2) :
  bound (Sequential training layers x).
Proof. unfold Sequential. bound_auto. Qed.
Hint Resolve bound_Sequential : bound.

Lemma bound_encode_layers (m : Model) (k i : nat) (layers : list module)
    (x : shape3) :
  bound (encode_layers m k i layers x).
Proof.
  revert i x. induction layers as [|layer rest IH]; intros i x; cbn;
    [discriminate|].
  apply bound_bind; [bound_auto | auto].
Qed.

Lemma bound_decode_layers (m : Model) (k f i : nat) (layers : list module)
    (x : shape3) :
  bound (decode_layers m k f i layers x).
Proof.
  revert i x. induction layers as [|layer rest IH]; intros i x; cbn;
    [discriminate|].
  apply bound_bind; [bound_auto | auto].
Qed.
Hint Resolve bound_encode_layers bound_decode_layers : bound.

Lemma bound_weight_size1 (layer : module) : bound (weight_size1 layer).
Proof. unfold weight_size1. bound_auto. Qed.
Hint Resolve bound_weight_size1 : bound.

Lemma bound_encode (m : Model) (x : shape3) : bound (encode m x).
Proof. unfold encode. bound_auto. Qed.

Lemma bound_decode (m : Model) (x : shape2) : bound (decode m x).
Proof. unfold decode. bound_auto. Qed.

Lemma bound_mlp_feature (m : Model) (x : shape2) : bound (mlp_feature m x).
Proof. unfold mlp_feature. bound_auto. Qed.

Lemma bound_mlp_loss (m : Model) (x : shape2) : bound (mlp_loss m x).
Proof. unfold mlp_loss. bound_auto. Qed.

Lemma bound_age_of (x : shape2) : bound (age_of x).
Proof. unfold age_of. bound_auto. Qed.

Lemma bound_cat1 (x y : shape2) : bound (Shapes.cat1 x y).
Proof. unfold Shapes.cat1. bound_auto. Qed.

Lemma bound_add2 (x y : shape2) : bound (Shapes.add2 x y).
Proof. unfold Shapes.add2, broadcast_dim. bound_auto. Qed.
Hint Resolve bound_encode bound_decode bound_mlp_feature bound_mlp_loss
  bound_age_of bound_cat1 bound_add2 : bound.

Lemma bound_reparameterize (mu : shape2) (logvar : option shape2)
    (age old : bool) (v : version) :
  bound (Shapes._reparameterize mu logvar age old v).
Proof.
  unfold Shapes._reparameterize. apply bound_bind.
  - apply bound_or_raise. discriminate.
  - intros std. bound_auto.
Qed.
Hint Resolve bound_reparameterize : bound.

Lemma bound_sample (m : Model) (mu : shape2) (logvar : option shape2) :
  bound (sample m mu logvar).
Proof. unfold sample. bound_auto. Qed.

Lemma bound_regress (m : Model) (features : shape2) :
  bound (regress m features).
Proof. unfold regress. bound_auto. Qed.
Hint Resolve bound_sample bound_regress : bound.

(** C10. [forward] ends in [UnboundLocalError] exactly for the selector
    combinations that none of its five branches lists: every listed
    combination runs its branch, which binds all five returned names, so
    whatever it returns or raises is not that error; every other
    combination (version 1 with [detach_features] set, a version other
    than 1, 2 and 2.3, version 2.3 without [extra_layers], ...) falls
    through to the [return] with nothing bound. *)
Theorem forward_unbound_iff_no_variant (m : Model) (x : shape3) :
  forward m x = Raise UnboundLocalError <-> listed_variant (args m) = false.
Proof.
  unfold forward, listed_variant.
  destruct (Qeq_bool (model_version (args m)) 1),
    (Qeq_bool (model_version (args m)) 2),
    (Qeq_bool (model_version (args m)) v2_3),
    (extra_layers (args m)), (detach_features (args m));
    cbn [andb orb negb]; split; intros H;
    try reflexivity; try discriminate H;
    exfalso; revert H;
    match goal with |- ?r = _ -> False => change (bound r) end;
    bound_auto.
Qed.
End Bound.

(** ** The encoder and the decoder *)

Section Layers.
Import Tensor Shapes Hierarchy.

Lemma getitem_nth {A} (l : list A) (i : nat) (d : A) :
  i < length l -> getitem l i = Ok (nth i l d).
Proof.
  intros Hi. unfold getitem.
  destruct (lookup_lt_is_Some_2 l i Hi) as [x Hx]. rewrite Hx. cbn.
  f_equal. rewrite nth_lookup, Hx. reflexivity.
Qed.

(** [l[-j]] for [1 <= j <= len(l)]. *)
Lemma getitem_int_from_end {A} (l : list A) (j : nat) (d : A) :
  1 <= j <= length l ->
  getitem_int l (- Z.of_nat j) = Ok (nth (length l - j) l d).
Proof.
  intros Hj. unfold getitem_int, np_index.
  destruct ((0 <=? - Z.of_nat j) && (- Z.of_nat j <? Z.of_nat (length l)))%Z
    eqn:Hpos; [lia|].
  destruct ((- Z.of_nat (length l) <=? - Z.of_nat j) && (- Z.of_nat j <? 0))%Z
    eqn:Hneg; [|lia].
  cbn [mbind result_bind].
  replace (Z.to_nat (Z.of_nat (length l) + - Z.of_nat j)) with (length l - j)
    by lia.
  apply getitem_nth. lia.
Qed.

Lemma view_infer_exact (q known : nat) :
  0 < known -> view_infer (q * known) known = Ok q.
Proof.
  intros H. unfold view_infer.
  destruct (Nat.eqb_spec known 0) as [|_]; [lia|].
  rewrite Nat.Div0.mod_mul, Nat.eqb_refl, Nat.div_mul by lia. reflexivity.
Qed.

Lemma Linear_forward2_shape (w o rows : nat) :
  Linear.forward2 {| Linear.in_features := w; Linear.out_features := o |}
    (rows, w)
  = Ok (rows, o).
Proof. unfold Linear.forward2. cbn. rewrite Nat.eqb_refl. reflexivity. Qed.

Lemma SpiralConv_forward_shape (cin cout : nat) (t : LongTensor2)
    (bs n : nat) :
  table_ok n t = true -> 0 < bs -> 0 < n ->
  SpiralConv.forward (SpiralConv.__init__ cin cout t) (bs, n, cin)
  = Ok (bs, n, cout).
Proof.
  unfold table_ok. intros Hok Hbs Hn.
  apply andb_prop in Hok as [Hok Hall]. apply andb_prop in Hok as [H0 Hlen].
  apply Nat.eqb_eq in H0, Hlen.
  unfold SpiralConv.forward, SpiralConv.__init__, index_select_check.
  cbn [SpiralConv.indices SpiralConv.layer]. rewrite Hall.
  cbn [mbind result_bind]. rewrite Hlen, H0.
  replace (bs * (n * size1 t) * cin) with (size1 t * cin * (bs * n)) by lia.
  rewrite view_infer_exact by lia. cbn [mbind result_bind].
  unfold Linear.forward3. cbn [fst snd Linear.in_features Linear.out_features].
  replace (size1 t * cin =? cin * size1 t) with true
    by (symmetry; apply Nat.eqb_eq; lia).
  reflexivity.
Qed.

Lemma Pool_shape (bs n ch n_out : nat) (trans : sparse) :
  operator_ok n_out n trans = true ->
  Shapes.Pool (bs, n, ch) trans = Ok (bs, n_out, ch).
Proof.
  unfold operator_ok. intros Hok. apply andb_prop in Hok as [Hrows Hall].
  apply Nat.eqb_eq in Hrows. unfold Shapes.Pool, index_select_check.
  rewrite forallb_forall in Hall.
  replace (forallb (fun j => j <? n)
             ((fun e : nat * nat * R => e.1.2) <$> sp_entries trans))
    with true.
  2:{ symmetry. apply forallb_forall. intros c Hc.
      apply in_map_iff in Hc as (e & <- & He).
      specialize (Hall e He). apply andb_prop in Hall as [_ Hall]. exact Hall. }
  cbn [mbind result_bind].
  replace (forallb (fun e : nat * nat * R => e.1.1 <? sp_rows trans)
             (sp_entries trans))
    with true.
  2:{ symmetry. apply forallb_forall. intros e He.
      specialize (Hall e He). apply andb_prop in Hall as [Hall _].
      rewrite Hrows. exact Hall. }
  rewrite Hrows. reflexivity.
Qed.

Lemma encode_layers_app (m : Model) (nl i : nat) (l1 l2 : list module)
    (x : shape3) :
  encode_layers m nl i (l1 ++ l2) x
  = (x' ← encode_layers m nl i l1 x;
     encode_layers m nl (i + length l1) l2 x').
Proof.
  revert i x. induction l1 as [|layer l1 IH]; intros i x.
  - cbn. rewrite Nat.add_0_r. reflexivity.
  - cbn [app encode_layers length].
    destruct (if i <? length (en_layers m) - nl
              then getitem (down_transform (args m)) i
                   ≫= (fun t => call_block layer x t)
              else Ok x) as [x'|e]; cbn [mbind result_bind]; [|reflexivity].
    rewrite IH. replace (S i + length l1) with (i + S (length l1)) by lia.
    reflexivity.
Qed.

(** Past the blocks, the loop of [encode] leaves the signal alone. *)
Lemma encode_layers_heads (m : Model) (nl i : nat) (heads : list module)
    (x : shape3) :
  length (en_layers m) - nl <= i ->
  encode_layers m nl i heads x = Ok x.
Proof.
  revert i. induction heads as [|h heads IH]; intros i Hi;
    cbn [encode_layers]; [reflexivity|].
  destruct (Nat.ltb_spec i (length (en_layers m) - nl)) as [|_]; [lia|].
  cbn [mbind result_bind]. apply IH. lia.
Qed.

Lemma decode_layers_app (m : Model) (nlayers nf i : nat)
    (l1 l2 : list module) (x : shape3) :
  decode_layers m nlayers nf i (l1 ++ l2) x
  = (x' ← decode_layers m nlayers nf i l1 x;
     decode_layers m nlayers nf (i + length l1) l2 x').
Proof.
  revert i x. induction l1 as [|layer l1 IH]; intros i x.
  - cbn. rewrite Nat.add_0_r. reflexivity.
  - cbn [app decode_layers length].
    destruct (if negb (i =? nlayers - 1)
              then getitem (up_transform (args m)) (nf - i)
                   ≫= (fun t => call_block layer x t)
              else call3 layer x) as [x'|e]; cbn [mbind result_bind];
      [|reflexivity].
    rewrite IH. replace (S i + length l1) with (i + S (length l1)) by lia.
    reflexivity.
Qed.

Lemma getitem_int_last {A} (l : list A) (x : A) :
  getitem_int (l ++ [x]) (-1) = Ok x.
Proof.
  change (-1)%Z with (- Z.of_nat 1)%Z.
  rewrite (getitem_int_from_end _ 1 x) by (rewrite length_app; cbn; lia).
  rewrite length_app. cbn [length].
  replace (length l + 1 - 1) with (length l) by lia.
  rewrite nth_middle. reflexivity.
Qed.

Lemma getitem_int_before_last {A} (l : list A) (x y : A) :
  getitem_int (l ++ [x; y]) (-2) = Ok x.
Proof.
  change (-2)%Z with (- Z.of_nat 2)%Z.
  rewrite (getitem_int_from_end _ 2 x) by (rewrite length_app; cbn; lia).
  rewrite length_app. cbn [length].
  replace (length l + 2 - 2) with (length l) by lia.
  change (l ++ [x; y]) with (l ++ x :: [y]). rewrite nth_middle. reflexivity.
Qed.

Lemma np_index_in_range (n : nat) (i : Z) :
  (- Z.of_nat n <= i < Z.of_nat n)%Z -> exists p, np_index n i = Ok p.
Proof.
  intros Hi. unfold np_index.
  destruct ((0 <=? i) && (i <? Z.of_nat n))%Z eqn:Hpos; [eauto|].
  destruct ((- Z.of_nat n <=? i) && (i <? 0))%Z eqn:Hneg; [eauto|lia].
Qed.

Lemma mapM_np_index (n : nat) (idxs : list Z) :
  Forall (fun i => (- Z.of_nat n <= i < Z.of_nat n)%Z) idxs ->
  exists ps, mapM (np_index n) idxs = Ok ps.
Proof.
  induction 1 as [|i idxs Hi _ [ps IH]]; [exists []; reflexivity|].
  destruct (np_index_in_range n i Hi) as [p Hp].
  cbn [mapM]. rewrite Hp, IH. eexists. reflexivity.
Qed.

End Layers.

Section Pipeline.
Import Tensor Shapes Hierarchy.

Variables (a : Config) (V bs : nat).
Hypothesis Hvalid : valid_config a V = true.
Hypothesis Hbs : 0 < bs.

Let k := length (out_channels a).
Let no_table : LongTensor2 := {| size0 := 0; size1 := 0; flat := [] |}.
Let no_operator : sparse := {| sp_rows := 0; sp_cols := 0; sp_entries := [] |}.
Let oc_at (i : nat) : nat := nth i (out_channels a) 0.
Let si_at (i : nat) : LongTensor2 := nth i (spiral_indices a) no_table.
Let down_at (i : nat) : sparse := nth i (down_transform a) no_operator.
Let up_at (i : nat) : sparse := nth i (up_transform a) no_operator.

(** Channels entering encoder block [i]. *)
Let chan_in (i : nat) : nat :=
  match i with 0 => in_channels a | S j => oc_at j end.

(** Channels entering decoder block [idx]. *)
Let dchan_in (idx : nat) : nat :=
  match idx with 0 => oc_at (k - 1) | S _ => oc_at (k - idx) end.

Let enblock (i : nat) : module :=
  SpiralEnblock (SpiralConv.__init__ (chan_in i) (oc_at i) (si_at i)).

Let deblock (idx : nat) : module :=
  SpiralDeblock
    (SpiralConv.__init__ (dchan_in idx) (oc_at (k - idx - 1))
       (si_at (k - idx - 1))).

Let width : nat := size_at a V k * oc_at (k - 1).

Let head : module :=
  if separate_age (age_disentanglement a) (old_experiment a) (model_version a)
  then mk_linear width (latent_size a - 1)
  else mk_linear width (latent_size a).

Let final_conv : SpiralConv.t :=
  SpiralConv.__init__ (oc_at 0) (in_channels a) (si_at 0).

(** The model [__init__] builds from [a]. *)
Let built : Model :=
  let f := latent_size a - 1 in
  {| args := a;
     num_vert := size_at a V k;
     en_layers :=
       (enblock <$> seq 0 k) ++ [head]
       ++ (if is_vae a then [mk_linear width (latent_size a)] else []);
     mlp_feature_layers :=
       [mk_linear f f; ReLU; BatchNorm1d f; Dropout;
        mk_linear f f; ReLU; BatchNorm1d f; Dropout;
        mk_linear f f];
     mlp_loss_layers :=
       [GradientReversalLayer;
        mk_linear f (mlp_layer_2 a); ReLU; BatchNorm1d (mlp_layer_2 a); Dropout;
        mk_linear (mlp_layer_2 a) (mlp_layer_3 a); ReLU;
        BatchNorm1d (mlp_layer_3 a); Dropout;
        mk_linear (mlp_layer_3 a) 1];
     de_layers :=
       [mk_linear (latent_size a) width] ++ (deblock <$> seq 0 k)
       ++ [SpiralConvLayer final_conv];
     training := true |}.

Lemma valid_lengths :
  0 < k /\ length (spiral_indices a) = k /\ length (down_transform a) = k
  /\ length (up_transform a) = k /\ 0 < latent_size a
  /\ Qle_bool 0 (mlp_dropout a) && Qle_bool (mlp_dropout a) 1 = true.
Proof.
  pose proof Hvalid as H. unfold valid_config in H. fold k in H.
  repeat (apply andb_prop in H as [H ?]).
  repeat match goal with
         | E : (_ <? _) = true |- _ => apply Nat.ltb_lt in E
         | E : (_ =? _) = true |- _ => apply Nat.eqb_eq in E
         end.
  repeat split; try assumption. apply andb_true_intro. split; assumption.
Qed.

Lemma valid_level (i : nat) :
  i < k ->
  0 < oc_at i /\ 0 < size_at a V i /\ 0 < size_at a V (S i)
  /\ table_ok (size_at a V i) (si_at i) = true
  /\ operator_ok (size_at a V (S i)) (size_at a V i) (down_at i) = true
  /\ operator_ok (size_at a V i) (size_at a V (S i)) (up_at i) = true.
Proof.
  intros Hi. pose proof Hvalid as H. unfold valid_config in H. fold k in H.
  apply andb_prop in H as [_ H]. rewrite forallb_forall in H.
  specialize (H i). unfold level_ok in H.
  unfold oc_at, si_at, down_at, up_at. rewrite !nth_lookup.
  destruct (out_channels a !! i) as [oc|]; [|discriminate H; apply in_seq; lia].
  destruct (spiral_indices a !! i) as [t|];
    [|discriminate H; apply in_seq; lia].
  destruct (down_transform a !! i) as [d|] eqn:Hd;
    [|discriminate H; apply in_seq; lia].
  destruct (up_transform a !! i) as [u|];
    [|discriminate H; apply in_seq; lia].
  assert (Hin : In i (seq 0 k)) by (apply in_seq; lia).
  specialize (H Hin). cbn [default id].
  repeat (apply andb_prop in H as [H ?]).
  repeat match goal with
         | E : (_ <? _) = true |- _ => apply Nat.ltb_lt in E
         end.
  repeat split; assumption.
Qed.

Lemma size_at_S (i : nat) : i < k -> size_at a V (S i) = sp_rows (down_at i).
Proof.
  intros Hi. cbn [size_at]. unfold down_at. rewrite nth_lookup.
  destruct valid_lengths as (_ & _ & Hd & _).
  destruct (lookup_lt_is_Some_2 (down_transform a) i) as [d ->]; [lia|].
  reflexivity.
Qed.

Lemma enblock_built (idx : nat) :
  idx < k -> encoder_block a idx
  = Ok (enblock idx).
Proof.
  intros Hi. destruct valid_lengths as (_ & Hs & _). unfold encoder_block.
  rewrite (getitem_nth (out_channels a) idx 0) by (fold k; lia).
  rewrite (getitem_nth (spiral_indices a) idx no_table) by lia.
  destruct idx as [|j]; cbn [Nat.eqb mbind result_bind]; [reflexivity|].
  rewrite (getitem_nth (out_channels a) (S j - 1) 0) by (fold k; lia).
  cbn [mbind result_bind]. replace (S j - 1) with j by lia. reflexivity.
Qed.

Lemma deblock_built (idx : nat) :
  idx < k -> decoder_block a idx
  = Ok (deblock idx).
Proof.
  intros Hi. destruct valid_lengths as (_ & Hs & _).
  unfold decoder_block. cbv zeta.
  replace (- Z.of_nat idx - 1)%Z with (- Z.of_nat (S idx))%Z by lia.
  rewrite (getitem_int_from_end (out_channels a) (S idx) 0) by (fold k; lia).
  rewrite (getitem_int_from_end (spiral_indices a) (S idx) no_table) by lia.
  rewrite Hs. fold k.
  destruct idx as [|j]; cbn [Nat.eqb mbind result_bind].
  - unfold deblock, dchan_in, oc_at, si_at.
    replace (k - 0 - 1) with (k - 1) by lia. reflexivity.
  - rewrite (getitem_int_from_end (out_channels a) (S j) 0) by (fold k; lia).
    cbn [mbind result_bind]. fold k. unfold deblock, dchan_in, oc_at, si_at.
    replace (k - S j - 1) with (k - S (S j)) by lia. reflexivity.
Qed.

Lemma init_built : __init__ a = Ok built.
Proof.
  destruct valid_lengths as (Hk & Hs & Hd & Hu & Hl & Hp).
  unfold __init__.
  change (-1)%Z with (- Z.of_nat 1)%Z.
  rewrite (getitem_int_from_end (down_transform a) 1 no_operator) by lia.
  cbn [mbind result_bind].
  rewrite (mapM_ok_fmap (encoder_block a) enblock).
  2:{ apply Forall_forall. intros idx Hidx. apply elem_of_seq in Hidx.
      cbv beta. apply enblock_built. fold k. lia. }
  cbn [mbind result_bind].
  rewrite (getitem_int_from_end (out_channels a) 1 0) by (fold k; lia).
  cbn [mbind result_bind].
  destruct (Nat.eqb_spec (latent_size a) 0) as [|_]; [lia|].
  rewrite Hp. cbn [negb].
  rewrite (mapM_ok_fmap (decoder_block a) deblock).
  2:{ apply Forall_forall. intros idx Hidx. apply elem_of_seq in Hidx.
      cbv beta. apply deblock_built. fold k. lia. }
  cbn [mbind result_bind].
  rewrite (getitem_nth (out_channels a) 0 0) by (fold k; lia).
  rewrite (getitem_nth (spiral_indices a) 0 no_table) by lia.
  cbn [mbind result_bind].
  rewrite Hd. fold k. unfold built. f_equal.
  assert (Hnv : sp_rows (nth (k - 1) (down_transform a) no_operator)
                = size_at a V k).
  { replace (size_at a V k) with (size_at a V (S (k - 1)))
      by (f_equal; lia).
    rewrite size_at_S by lia. reflexivity. }
  rewrite Hnv. reflexivity.
Qed.

Let n_linear : nat := if is_vae a then 2 else 1.

Lemma built_en_length : length (en_layers built) - n_linear = k.
Proof.
  unfold built, n_linear. cbn [en_layers].
  rewrite !length_app, length_fmap, length_seq.
  destruct (is_vae a); cbn [length]; lia.
Qed.

Lemma encode_blocks (d j : nat) :
  j + d = k ->
  encode_layers built n_linear j (enblock <$> seq j d)
    (bs, size_at a V j, chan_in j)
  = Ok (bs, size_at a V k, chan_in k).
Proof.
  revert j. induction d as [|d IH]; intros j Hj.
  - cbn. replace j with k by lia. reflexivity.
  - cbn [seq fmap list_fmap encode_layers]. rewrite built_en_length.
    destruct (Nat.ltb_spec j k) as [Hlt|]; [|lia].
    destruct valid_lengths as (_ & _ & Hd & _).
    destruct (valid_level j Hlt) as (_ & Hn & _ & Ht & Hdown & _).
    change (args built) with a.
    rewrite (getitem_nth (down_transform a) j no_operator) by lia.
    cbn [mbind result_bind].
    change (call_block (enblock j) ?x ?t)
      with (SpiralEnblock_forward
              (SpiralConv.__init__ (chan_in j) (oc_at j) (si_at j)) x t).
    unfold SpiralEnblock_forward.
    rewrite SpiralConv_forward_shape by assumption.
    cbn [mbind result_bind].
    rewrite (Pool_shape _ _ _ (size_at a V (S j))) by exact Hdown.
    cbn [mbind result_bind]. apply (IH (S j)). lia.
Qed.

Lemma width_positive : 0 < width /\ chan_in k = oc_at (k - 1).
Proof.
  destruct valid_lengths as (Hk & _).
  destruct (valid_level (k - 1)) as (Hoc & _ & Hn & _); [lia|].
  replace (S (k - 1)) with k in Hn by lia. unfold width. split; [nia|].
  destruct k as [|k'] eqn:E; [lia|]. cbn. f_equal. lia.
Qed.

(** The width of the mean head: that of the first dense layer when the
    model is not variational, that of the second when it is. *)
Let mu_width : nat :=
  if is_vae a then latent_size a
  else if separate_age (age_disentanglement a) (old_experiment a)
            (model_version a)
       then latent_size a - 1 else latent_size a.

(** The width of the log-variance head, the first dense layer. *)
Let logvar_width : nat :=
  if separate_age (age_disentanglement a) (old_experiment a) (model_version a)
  then latent_size a - 1 else latent_size a.

Lemma built_last_layer :
  getitem_int (en_layers built) (-1)
  = Ok (if is_vae a then mk_linear width (latent_size a) else head).
Proof.
  unfold built. cbn [en_layers]. destruct (is_vae a).
  - rewrite app_assoc. apply getitem_int_last.
  - rewrite app_nil_r. apply getitem_int_last.
Qed.

Lemma built_before_last :
  is_vae a = true -> getitem_int (en_layers built) (-2) = Ok head.
Proof.
  intros Hvae. unfold built. cbn [en_layers]. rewrite Hvae.
  apply getitem_int_before_last.
Qed.

Lemma encode_built :
  encode built (bs, V, in_channels a)
  = Ok ((bs, mu_width),
        if is_vae a then Some (bs, logvar_width) else None).
Proof.
  destruct width_positive as [Hw Hch].
  unfold encode. rewrite built_last_layer.
  assert (Hloop : encode_layers built n_linear 0 (en_layers built)
                    (bs, V, in_channels a)
                  = Ok (bs, size_at a V k, chan_in k)).
  { change (en_layers built)
      with ((enblock <$> seq 0 k) ++ [head]
            ++ (if is_vae a then [mk_linear width (latent_size a)] else [])).
    rewrite encode_layers_app.
    change (bs, V, in_channels a) with (bs, size_at a V 0, chan_in 0).
    rewrite (encode_blocks k 0) by lia. cbn [mbind result_bind].
    apply encode_layers_heads.
    rewrite length_fmap, length_seq, built_en_length. lia. }
  change (args built) with a. fold n_linear. rewrite Hloop.
  cbn [mbind result_bind fst snd]. rewrite Hch.
  replace (bs * size_at a V k * oc_at (k - 1)) with (bs * width)
    by (unfold width; lia).
  pose proof built_before_last as Hbl.
  unfold mu_width, logvar_width, head in *.
  destruct (is_vae a) eqn:Hvae.
  - cbn [mk_linear weight_size1 Linear.in_features mbind result_bind].
    rewrite view_infer_exact by exact Hw. cbn [mbind result_bind].
    rewrite (Hbl eq_refl).
    destruct (separate_age _ _ _); cbn [call2 mk_linear];
      rewrite !Linear_forward2_shape; cbn [mbind result_bind call2 mk_linear];
      rewrite !Linear_forward2_shape; reflexivity.
  - destruct (separate_age _ _ _);
      cbn [mk_linear weight_size1 Linear.in_features mbind result_bind];
      rewrite view_infer_exact by exact Hw;
      cbn [call2 mk_linear mbind result_bind];
      rewrite Linear_forward2_shape; reflexivity.
Qed.

Lemma decode_blocks (d idx : nat) :
  idx + d = k ->
  decode_layers built (k + 2) k (S idx) (deblock <$> seq idx d)
    (bs, size_at a V (k - idx), dchan_in idx)
  = Ok (bs, size_at a V 0, dchan_in k).
Proof.
  revert idx. induction d as [|d IH]; intros idx Hidx.
  - cbn. replace idx with k by lia. rewrite Nat.sub_diag. reflexivity.
  - cbn [seq fmap list_fmap decode_layers].
    destruct (Nat.eqb_spec (S idx) (k + 2 - 1)) as [|_]; [lia|]. cbn [negb].
    destruct valid_lengths as (_ & _ & _ & Hu & _).
    destruct (valid_level (k - idx - 1)) as (_ & Hn & _ & Ht & _ & Hup); [lia|].
    change (args built) with a.
    rewrite (getitem_nth (up_transform a) (k - S idx) no_operator) by lia.
    cbn [mbind result_bind].
    change (call_block (deblock idx) ?x ?t)
      with (SpiralDeblock_forward
              (SpiralConv.__init__ (dchan_in idx) (oc_at (k - idx - 1))
                 (si_at (k - idx - 1))) x t).
    unfold SpiralDeblock_forward.
    replace (k - S idx) with (k - idx - 1) by lia.
    replace (S (k - idx - 1)) with (k - idx) in Hup by lia.
    rewrite (Pool_shape _ _ _ (size_at a V (k - idx - 1))) by exact Hup.
    cbn [mbind result_bind].
    rewrite SpiralConv_forward_shape by assumption.
    cbn [mbind result_bind].
    replace (k - idx - 1) with (k - S idx) by lia.
    change (oc_at (k - S idx)) with (dchan_in (S idx)).
    apply (IH (S idx)). lia.
Qed.

Lemma decode_built :
  decode built (bs, latent_size a) = Ok (bs, V, in_channels a).
Proof.
  destruct width_positive as [Hw _].
  destruct valid_lengths as (Hk & _).
  unfold decode. change (args built) with a.
  change (de_layers built)
    with (mk_linear (latent_size a) width
          :: (deblock <$> seq 0 k) ++ [SpiralConvLayer final_conv]).
  cbn [call2 mk_linear]. rewrite Linear_forward2_shape.
  cbn [mbind result_bind fst snd].
  change (-1)%Z with (- Z.of_nat 1)%Z.
  rewrite (getitem_int_from_end (out_channels a) 1 0) by (fold k; lia).
  cbn [mbind result_bind]. fold k. change (nth (k - 1) (out_channels a) 0)
    with (oc_at (k - 1)).
  change (num_vert built) with (size_at a V k). fold width.
  rewrite view_infer_exact by exact Hw. cbn [mbind result_bind].
  cbn [length]. rewrite length_app, length_fmap, length_seq. cbn [length].
  replace (S (k + 1)) with (k + 2) by lia.
  replace (k + 2 - 2) with k by lia.
  rewrite decode_layers_app.
  change (bs, size_at a V k, oc_at (k - 1))
    with (bs, size_at a V k, dchan_in 0).
  replace (size_at a V k) with (size_at a V (k - 0)) at 1 by (f_equal; lia).
  rewrite (decode_blocks k 0) by lia. cbn [mbind result_bind].
  rewrite length_fmap, length_seq. cbn [decode_layers].
  destruct (Nat.eqb_spec (1 + k) (k + 2 - 1)) as [_|]; [|lia]. cbn [negb call3].
  destruct (valid_level 0 Hk) as (_ & Hn & _ & Ht & _).
  assert (Hd : dchan_in k = oc_at 0).
  { unfold dchan_in. destruct k; [lia|]. rewrite Nat.sub_diag. reflexivity. }
  rewrite Hd. unfold final_conv.
  rewrite SpiralConv_forward_shape by assumption. reflexivity.
Qed.

(** C2 (as amended). For every variational model the constructor
    returns over a hierarchy that fits the mesh, and every batched signal
    of that mesh, [encode] returns a mean of the configured latent size
    and a log-variance; the log-variance has the latent size too, except
    when the age entry is kept apart ([age_disentanglement] set,
    [old_experiment] not set, version other than 2.3), where it has one
    entry less. *)
Theorem encode_mean_and_logvar_widths (m : Model) :
  __init__ a = Ok m ->
  is_vae a = true ->
  encode m (bs, V, in_channels a)
  = Ok ((bs, latent_size a),
        Some (bs,
              if separate_age (age_disentanglement a) (old_experiment a)
                   (model_version a)
              then latent_size a - 1 else latent_size a)).
Proof.
  intros Hinit Hvae. rewrite init_built in Hinit. injection Hinit as <-.
  rewrite encode_built. unfold mu_width, logvar_width. rewrite Hvae.
  reflexivity.
Qed.

(** C3, where it holds. For every model over a hierarchy that fits the
    mesh, variational or not, whose mean head has the full latent size
    (every variational model, and every other model that does not keep
    the age entry apart), and every batched signal of shape
    (batch x V x C), [decode] of the mean [encode] returns has shape
    (batch x V x C). The last decoder layer is a plain spiral convolution
    from the first channel count back to C, applied without activation
    or pooling. *)
Lemma decode_encode_shape :
  is_vae a = true
  \/ separate_age (age_disentanglement a) (old_experiment a) (model_version a)
     = false ->
  exists m mu logvar,
    __init__ a = Ok m
    /\ encode m (bs, V, in_channels a) = Ok (mu, logvar)
    /\ decode m mu = Ok (bs, V, in_channels a)
    /\ exists front conv,
         de_layers m = front ++ [SpiralConvLayer conv]
         /\ SpiralConv.out_channels conv = in_channels a
         /\ forall x, call3 (SpiralConvLayer conv) x = SpiralConv.forward conv x.
Proof.
  intros Hfull. exists built, (bs, latent_size a).
  exists (if is_vae a then Some (bs, logvar_width) else None).
  split; [apply init_built|]. split; [|split; [apply decode_built|]].
  - rewrite encode_built. unfold mu_width.
    destruct Hfull as [Hvae|Hsep]; [rewrite Hvae | rewrite Hsep];
      [reflexivity|]. destruct (is_vae a); reflexivity.
  - exists (mk_linear (latent_size a) width :: (deblock <$> seq 0 k)), final_conv.
    split; [reflexivity|]. split; reflexivity.
Qed.

(** *** forward *)

Variable mode : bool.

Let running : Model := train mode built.

Lemma encode_layers_train (nl i : nat) (layers : list module) (x : shape3)
    (m : Model) (t : bool) :
  encode_layers (train t m) nl i layers x = encode_layers m nl i layers x.
Proof.
  revert i x. induction layers as [|layer layers IH]; intros i x;
    [reflexivity|].
  cbn [encode_layers train en_layers args]. 
  destruct (if i <? length (en_layers m) - nl
            then getitem (down_transform (args m)) i
                 ≫= (fun t0 => call_block layer x t0)
            else Ok x) as [x'|e]; cbn [mbind result_bind]; [apply IH|reflexivity].
Qed.

Lemma decode_layers_train (nlayers nf i : nat) (layers : list module)
    (x : shape3) (m : Model) (t : bool) :
  decode_layers (train t m) nlayers nf i layers x
  = decode_layers m nlayers nf i layers x.
Proof.
  revert i x. induction layers as [|layer layers IH]; intros i x;
    [reflexivity|].
  cbn [decode_layers train args].
  destruct (if negb (i =? nlayers - 1)
            then getitem (up_transform (args m)) (nf - i)
                 ≫= (fun t0 => call_block layer x t0)
            else call3 layer x) as [x'|e]; cbn [mbind result_bind];
    [apply IH|reflexivity].
Qed.

Lemma encode_running :
  encode running (bs, V, in_channels a)
  = Ok ((bs, mu_width),
        if is_vae a then Some (bs, logvar_width) else None).
Proof.
  rewrite <- encode_built. unfold encode, running.
  cbn [train args en_layers training]. rewrite encode_layers_train.
  destruct (encode_layers built (if is_vae (args built) then 2 else 1) 0
              (en_layers built) (bs, V, in_channels a)) as [x|];
    [|reflexivity].
  cbn [mbind result_bind]. rewrite built_last_layer.
  pose proof built_before_last as Hbl. unfold head in *.
  change (args built) with a.
  destruct (is_vae a).
  - rewrite (Hbl eq_refl).
    destruct (separate_age _ _ _); reflexivity.
  - destruct (separate_age _ _ _); reflexivity.
Qed.

Lemma decode_running :
  decode running (bs, latent_size a) = Ok (bs, V, in_channels a).
Proof.
  rewrite <- decode_built. unfold decode, running.
  cbn [train args de_layers training num_vert].
  change (de_layers built)
    with (mk_linear (latent_size a) width
          :: (deblock <$> seq 0 k) ++ [SpiralConvLayer final_conv]).
  cbn [call2 mk_linear].
  destruct (Linear.forward2 _ _) as [x|]; [|reflexivity].
  cbn [mbind result_bind].
  destruct (getitem_int _ _) as [oc|]; [|reflexivity].
  cbn [mbind result_bind].
  destruct (view_infer _ _) as [b|]; [|reflexivity].
  cbn [mbind result_bind]. apply decode_layers_train.
Qed.

Let L : nat := latent_size a.

(** Rows reaching the regressor: [features[self.batch_diagonal_idx, ::]]
    has one row per index. *)
Let rows : nat :=
  if swap_features a then length (batch_diagonal_idx a) else bs.

Lemma sample_running :
  sample running (bs, L)
    (if is_vae a then Some (bs, logvar_width) else None)
  = Ok (bs, L).
Proof.
  destruct valid_lengths as (_ & _ & _ & _ & Hl & _). fold L in Hl.
  unfold sample, running. cbn [train args training].
  change (args built) with a.
  destruct (is_vae a); [|reflexivity].
  destruct mode; [|reflexivity]. cbn [andb].
  unfold _reparameterize, logvar_width. cbn [or_raise mbind result_bind].
  fold L. destruct (separate_age _ _ _).
  - unfold age_of, features_of, Shapes.add2. cbn [fst snd].
    destruct (Nat.eqb_spec L 0) as [|_]; [lia|].
    cbn [mbind result_bind]. unfold broadcast_dim. rewrite !Nat.eqb_refl.
    cbn [mbind result_bind]. unfold Shapes.cat1. cbn [fst snd].
    rewrite Nat.eqb_refl. do 2 f_equal. lia.
  - unfold Shapes.add2, broadcast_dim. cbn [fst snd]. rewrite !Nat.eqb_refl.
    reflexivity.
Qed.

Lemma mlp_feature_running :
  (mode = true -> 1 < bs) ->
  mlp_feature running (bs, L - 1) = Ok (bs, L - 1).
Proof.
  intros Hbn. unfold mlp_feature, Sequential, running.
  cbn [train training mlp_feature_layers].
  change (mlp_feature_layers built)
    with [mk_linear (L - 1) (L - 1); ReLU; BatchNorm1d (L - 1); Dropout;
          mk_linear (L - 1) (L - 1); ReLU; BatchNorm1d (L - 1); Dropout;
          mk_linear (L - 1) (L - 1)].
  assert (Hone : mode && (bs =? 1) = false).
  { destruct mode; [|reflexivity]. cbn. apply Nat.eqb_neq.
    specialize (Hbn eq_refl). lia. }
  cbn [for_each call2 mk_linear mbind result_bind fst snd].
  repeat (rewrite ?Linear_forward2_shape;
          cbn [for_each call2 mbind result_bind fst snd];
          rewrite ?Nat.eqb_refl, ?Hone; cbn [negb]).
  reflexivity.
Qed.

Lemma mlp_loss_running :
  (swap_features a = true ->
   Forall (fun i => (- Z.of_nat bs <= i < Z.of_nat bs)%Z)
     (batch_diagonal_idx a)) ->
  (mode = true -> 1 < rows) ->
  mlp_loss running (bs, L - 1) = Ok (rows, 1).
Proof.
  intros Hidx Hbn. unfold mlp_loss, Sequential, running.
  cbn [train training mlp_loss_layers args].
  change (args built) with a.
  change (mlp_loss_layers built)
    with [GradientReversalLayer;
          mk_linear (L - 1) (mlp_layer_2 a); ReLU;
          BatchNorm1d (mlp_layer_2 a); Dropout;
          mk_linear (mlp_layer_2 a) (mlp_layer_3 a); ReLU;
          BatchNorm1d (mlp_layer_3 a); Dropout;
          mk_linear (mlp_layer_3 a) 1].
  assert (Hfeat : (if swap_features a
                   then mapM (np_index (bs, L - 1).1) (batch_diagonal_idx a)
                        ≫= (fun _ => Ok (length (batch_diagonal_idx a),
                                         (bs, L - 1).2))
                   else Ok (bs, L - 1))
                  = Ok (rows, L - 1)).
  { unfold rows. destruct (swap_features a); [|reflexivity].
    destruct (mapM_np_index bs (batch_diagonal_idx a) (Hidx eq_refl))
      as [ps Hps].
    cbn [fst snd]. rewrite Hps. reflexivity. }
  rewrite Hfeat. cbn [mbind result_bind].
  assert (Hone : mode && (rows =? 1) = false).
  { destruct mode; [|reflexivity]. cbn. apply Nat.eqb_neq.
    specialize (Hbn eq_refl). lia. }
  cbn [for_each call2 mk_linear mbind result_bind fst snd].
  repeat (rewrite ?Linear_forward2_shape;
          cbn [for_each call2 mbind result_bind fst snd];
          rewrite ?Nat.eqb_refl, ?Hone; cbn [negb]).
  reflexivity.
Qed.

Lemma regress_running :
  (swap_features a = true ->
   Forall (fun i => (- Z.of_nat bs <= i < Z.of_nat bs)%Z)
     (batch_diagonal_idx a)) ->
  (mode = true -> 1 < rows) ->
  regress running (bs, L - 1)
  = Ok (if age_disentanglement a then inl (rows, 1) else inr 0%Z).
Proof.
  intros Hidx Hbn. pose proof (mlp_loss_running Hidx Hbn) as Hloss.
  unfold regress. change (args running) with a.
  destruct (age_disentanglement a); [|reflexivity].
  rewrite Hloss. reflexivity.
Qed.

Lemma age_cat_running :
  age_of (bs, L) = Ok (bs, 1)
  /\ Shapes.cat1 (bs, L - 1) (bs, 1) = Ok (bs, L).
Proof.
  destruct valid_lengths as (_ & _ & _ & _ & Hl & _). fold L in Hl.
  unfold age_of, Shapes.cat1. cbn [fst snd].
  destruct (Nat.eqb_spec L 0) as [|_]; [lia|]. rewrite Nat.eqb_refl.
  split; [reflexivity|]. do 2 f_equal. lia.
Qed.

(** The model [__init__] builds, put in mode [mode], run on a batch: in
    each of the five variants the reconstruction has the shape of the
    input, the latent code and the mean have the latent size, and the
    regressor gives one column. *)
Lemma forward_running :
  Spec.listed_variant a = true ->
  mu_width = L ->
  (swap_features a = true ->
   Forall (fun i => (- Z.of_nat bs <= i < Z.of_nat bs)%Z)
     (batch_diagonal_idx a)) ->
  (mode = true -> 1 < bs /\ 1 < rows) ->
  forward running (bs, V, in_channels a)
  = Ok {| out := (bs, V, in_channels a);
          z := (bs, L);
          mu := (bs, L);
          logvar := if is_vae a then Some (bs, logvar_width) else None;
          mlp_output :=
            if age_disentanglement a then inl (rows, 1) else inr 0%Z |}.
Proof.
  intros Hvariant Hfull Hidx Hbn.
  assert (Hbn1 : mode = true -> 1 < bs) by (intros H; apply Hbn, H).
  assert (Hbn2 : mode = true -> 1 < rows) by (intros H; apply Hbn, H).
  destruct age_cat_running as [Hage Hcat].
  pose proof sample_running as Hsample.
  pose proof (mlp_feature_running Hbn1) as Hfeature.
  pose proof (regress_running Hidx Hbn2) as Hregress.
  pose proof decode_running as Hdecode. fold L in Hdecode.
  unfold forward. cbv zeta. change (args running) with a.
  rewrite encode_running, Hfull. cbn [mbind result_bind].
  unfold Spec.listed_variant in Hvariant. cbv zeta in Hvariant.
  change (features_of (bs, L)) with (bs, L - 1) in *.
  destruct (Qeq_bool (model_version a) 1), (Qeq_bool (model_version a) 2),
    (Qeq_bool (model_version a) v2_3), (extra_layers a), (detach_features a);
    cbn [andb orb negb] in Hvariant |- *; try discriminate Hvariant;
    rewrite ?Hsample; cbn [mbind result_bind];
    change (features_of (bs, L)) with (bs, L - 1);
    rewrite ?Hage; cbn [mbind result_bind];
    rewrite ?Hfeature; cbn [mbind result_bind];
    rewrite ?Hregress; cbn [mbind result_bind];
    rewrite ?Hcat; cbn [mbind result_bind];
    rewrite ?Hsample; cbn [mbind result_bind];
    rewrite ?Hdecode; reflexivity.
Qed.

Lemma mlp_feature_running_one :
  mode = true -> bs = 1 ->
  mlp_feature running (bs, L - 1) = Raise ValueError.
Proof.
  intros Hmode Hone. unfold mlp_feature, Sequential, running.
  cbn [train training mlp_feature_layers].
  change (mlp_feature_layers built)
    with [mk_linear (L - 1) (L - 1); ReLU; BatchNorm1d (L - 1); Dropout;
          mk_linear (L - 1) (L - 1); ReLU; BatchNorm1d (L - 1); Dropout;
          mk_linear (L - 1) (L - 1)].
  cbn [for_each call2 mk_linear mbind result_bind fst snd].
  rewrite Linear_forward2_shape.
  cbn [for_each call2 mbind result_bind fst snd].
  rewrite Nat.eqb_refl, Hmode, Hone. reflexivity.
Qed.

Lemma mlp_loss_running_one :
  mode = true -> bs = 1 -> swap_features a = false ->
  mlp_loss running (bs, L - 1) = Raise ValueError.
Proof.
  intros Hmode Hone Hswap. unfold mlp_loss, Sequential, running.
  cbn [train training mlp_loss_layers args].
  change (args built) with a. rewrite Hswap.
  change (mlp_loss_layers built)
    with [GradientReversalLayer;
          mk_linear (L - 1) (mlp_layer_2 a); ReLU;
          BatchNorm1d (mlp_layer_2 a); Dropout;
          mk_linear (mlp_layer_2 a) (mlp_layer_3 a); ReLU;
          BatchNorm1d (mlp_layer_3 a); Dropout;
          mk_linear (mlp_layer_3 a) 1].
  cbn [for_each call2 mk_linear mbind result_bind fst snd].
  rewrite Linear_forward2_shape.
  cbn [for_each call2 mbind result_bind fst snd].
  rewrite Nat.eqb_refl, Hmode, Hone. reflexivity.
Qed.

Lemma forward_running_one :
  mode = true -> bs = 1 ->
  Spec.listed_variant a = true ->
  mu_width = L ->
  swap_features a = false ->
  age_disentanglement a = true \/ extra_layers a = true ->
  forward running (bs, V, in_channels a) = Raise ValueError.
Proof.
  intros Hmode Hone Hvariant Hfull Hswap Hmlp.
  destruct age_cat_running as [Hage Hcat].
  pose proof sample_running as Hsample.
  pose proof (mlp_feature_running_one Hmode Hone) as Hfeature.
  pose proof (mlp_loss_running_one Hmode Hone Hswap) as Hloss.
  unfold forward, regress. cbv zeta. change (args running) with a.
  rewrite encode_running, Hfull. cbn [mbind result_bind].
  unfold Spec.listed_variant in Hvariant. cbv zeta in Hvariant.
  change (features_of (bs, L)) with (bs, L - 1) in *.
  destruct (Qeq_bool (model_version a) 1), (Qeq_bool (model_version a) 2),
    (Qeq_bool (model_version a) v2_3), (extra_layers a), (detach_features a),
    (age_disentanglement a);
    cbn [andb orb negb] in Hvariant |- *; try discriminate Hvariant;
    try (destruct Hmlp; discriminate);
    rewrite ?Hsample; cbn [mbind result_bind];
    change (features_of (bs, L)) with (bs, L - 1);
    rewrite ?Hage; cbn [mbind result_bind];
    rewrite ?Hfeature; cbn [mbind result_bind];
    rewrite ?Hloss; reflexivity.
Qed.

(** X8. A model built over a hierarchy that fits the mesh, whose mean
    head has the full latent size and whose dense layers have positive
    widths, put in training or evaluation mode: in each of the five
    variants [forward] returns a reconstruction of the shape of its
    input, a latent code and a mean of [latent_size] entries per sample,
    the log-variance of [encode], and a prediction of one column (the
    integer 0 without [age_disentanglement]). In training mode the batch,
    and the rows picked by [batch_diagonal_idx], must be more than one:
    [BatchNorm1d] needs two values per channel. *)
Theorem forward_shapes :
  Spec.listed_variant a = true ->
  is_vae a = true
  \/ separate_age (age_disentanglement a) (old_experiment a) (model_version a)
     = false ->
  1 < latent_size a -> 0 < mlp_layer_2 a -> 0 < mlp_layer_3 a ->
  (swap_features a = true ->
   batch_diagonal_idx a <> []
   /\ Forall (fun i => (- Z.of_nat bs <= i < Z.of_nat bs)%Z)
        (batch_diagonal_idx a)) ->
  (mode = true ->
   1 < bs
   /\ (swap_features a = true -> 1 < length (batch_diagonal_idx a))) ->
  exists m,
    __init__ a = Ok m
    /\ forward (train mode m) (bs, V, in_channels a)
       = Ok {| out := (bs, V, in_channels a);
               z := (bs, latent_size a);
               mu := (bs, latent_size a);
               logvar :=
                 if is_vae a
                 then Some (bs,
                            if separate_age (age_disentanglement a)
                                 (old_experiment a) (model_version a)
                            then latent_size a - 1 else latent_size a)
                 else None;
               mlp_output :=
                 if age_disentanglement a
                 then inl (if swap_features a
                           then length (batch_diagonal_idx a) else bs, 1)
                 else inr 0%Z |}.
Proof.
  intros Hvariant Hfull _ _ _ Hidx Hbn. exists built.
  split; [apply init_built|]. apply forward_running.
  - exact Hvariant.
  - unfold mu_width, L.
    destruct Hfull as [Hvae|Hsep]; [rewrite Hvae | rewrite Hsep];
      [reflexivity|]. destruct (is_vae a); reflexivity.
  - intros Hswap. apply Hidx, Hswap.
  - intros Hmode. destruct (Hbn Hmode) as [Hbs1 Hrows]. split; [exact Hbs1|].
    unfold rows. destruct (swap_features a); [apply Hrows; reflexivity|].
    exact Hbs1.
Qed.

Lemma forward_init_one :
  mode = true -> bs = 1 ->
  Spec.listed_variant a = true ->
  is_vae a = true
  \/ separate_age (age_disentanglement a) (old_experiment a) (model_version a)
     = false ->
  swap_features a = false ->
  age_disentanglement a = true \/ extra_layers a = true ->
  exists m,
    __init__ a = Ok m
    /\ forward (train mode m) (bs, V, in_channels a) = Raise ValueError.
Proof.
  intros Hmode Hone Hvariant Hfull Hswap Hmlp. exists built.
  split; [apply init_built|]. apply forward_running_one; try assumption.
  unfold mu_width, L.
  destruct Hfull as [Hvae|Hsep]; [rewrite Hvae | rewrite Hsep];
    [reflexivity|]. destruct (is_vae a); reflexivity.
Qed.

End Pipeline.

Section PipelineExamples.
Import Tensor Shapes Hierarchy.

(** The theorem for the small variational model with disentanglement,
    on a batch of two signals. *)
Lemma encode_mean_and_logvar_widths_witness :
  exists m,
    __init__ (small_config true true) = Ok m
    /\ encode m (2, 2, 3) = Ok ((2, 5), Some (2, 4)).
Proof.
  destruct (__init__ (small_config true true)) as [m|e] eqn:Hinit;
    [|discriminate Hinit].
  exists m. split; [reflexivity|].
  apply (encode_mean_and_logvar_widths (small_config true true) 2 2).
  - reflexivity.
  - lia.
  - exact Hinit.
  - reflexivity.
Defined.

(** C2 (as stated) fails: in the small variational model with
    disentanglement the mean has the latent size, five, and the
    log-variance has four entries. *)
Lemma encode_logvar_is_narrower :
  (m ← __init__ (small_config true true); encode m (2, 2, 3))
  = Ok ((2, 5), Some (2, 4)).
Proof. reflexivity. Qed.

(** The small model without disentanglement, not variational. *)
Lemma decode_encode_shape_small :
  exists m mu logvar,
    __init__ (small_config false false) = Ok m
    /\ encode m (2, 2, 3) = Ok (mu, logvar)
    /\ decode m mu = Ok (2, 2, 3).
Proof.
  destruct (decode_encode_shape (small_config false false) 2 2)
    as (m & mu & logvar & Hinit & Henc & Hdec & _).
  - reflexivity.
  - lia.
  - right. reflexivity.
  - exists m, mu, logvar. auto.
Qed.

(** C3 (the code at the failing input). The small model with
    disentanglement that is not variational has a single dense head, the
    one of four features built for the log-variance of a variational
    model: [encode] returns a mean of four entries, which the dense layer
    of the decoder, built for the latent size five, rejects. *)
Theorem decode_rejects_narrow_mean :
  (m ← __init__ (small_config true false); encode m (2, 2, 3))
  = Ok ((2, 4), None)
  /\ (m ← __init__ (small_config true false);
      r ← encode m (2, 2, 3);
      decode m r.1)
     = Raise RuntimeError.
Proof. split; reflexivity. Qed.

End PipelineExamples.

(** ** forward *)

Section Forward.
Import Tensor Shapes Hierarchy.

(** The small variational model with disentanglement, in training mode,
    on a batch of two signals. *)
Lemma forward_shapes_witness :
  exists m,
    __init__ (small_config true true) = Ok m
    /\ forward (train true m) (2, 2, 3)
       = Ok {| out := (2, 2, 3); z := (2, 5); mu := (2, 5);
               logvar := Some (2, 4); mlp_output := inl (2, 1) |}.
Proof.
  apply (forward_shapes (small_config true true) 2 2 eq_refl
           (Nat.lt_0_succ 1) true eq_refl (or_introl eq_refl)).
  - cbn. lia.
  - cbn. lia.
  - cbn. lia.
  - discriminate.
  - intros _. split; [lia | discriminate].
Defined.

Lemma train_training (m : Model) : train (training m) m = m.
Proof. destruct m. reflexivity. Qed.

(** A model leaves [__init__] in training mode, with the arguments it
    was built from. *)
Lemma init_fresh (a : Config) (m : Model) :
  __init__ a = Ok m -> training m = true /\ args m = a.
Proof.
  unfold __init__. intros H.
  repeat match type of H with
         | (?r ≫= _) = Ok _ =>
             destruct r; cbn [mbind result_bind] in H; [|discriminate H]
         | (if ?c then _ else _) = Ok _ =>
             destruct c; [try discriminate H|try discriminate H]
         end.
  all: injection H as <-; split; reflexivity.
Qed.

(** X9. A freshly built model is in training mode, and
    [BatchNorm1d] in training mode rejects a batch of one sample. Over a
    hierarchy that fits the mesh, take one of the five listed variants,
    without [swap_features], whose mean head has the full latent size (a
    variational model, or one that does not keep the age entry apart)
    and whose dense layers have positive widths: if it runs the
    regressor ([age_disentanglement]) or the extra dense layers
    ([extra_layers]), the constructor returns a model on which [forward]
    of a single signal raises [ValueError]. *)
Theorem forward_batch_of_one (a : Config) (V : nat) :
  valid_config a V = true ->
  Spec.listed_variant a = true ->
  is_vae a = true
  \/ separate_age (age_disentanglement a) (old_experiment a) (model_version a)
     = false ->
  1 < latent_size a -> 0 < mlp_layer_2 a -> 0 < mlp_layer_3 a ->
  swap_features a = false ->
  age_disentanglement a = true \/ extra_layers a = true ->
  exists m,
    __init__ a = Ok m
    /\ forward m (1, V, in_channels a) = Raise ValueError.
Proof.
  intros Hvalid Hvariant Hfull _ _ _ Hswap Hmlp.
  destruct (forward_init_one a V 1 Hvalid (Nat.lt_0_succ 0) true eq_refl
              eq_refl Hvariant Hfull Hswap Hmlp) as (m & Hinit & Hforward).
  exists m. split; [exact Hinit|].
  destruct (init_fresh a m Hinit) as [Htrain _].
  rewrite <- Htrain, train_training in Hforward. exact Hforward.
Qed.

Lemma forward_batch_of_one_witness :
  exists m,
    __init__ (small_config true true) = Ok m
    /\ forward m (1, 2, 3) = Raise ValueError.
Proof.
  apply (forward_batch_of_one (small_config true true) 2 eq_refl eq_refl
           (or_introl eq_refl)); cbn; solve [lia | reflexivity | auto].
Defined.

End Forward.

Section NarrowMean.
Import Tensor Shapes Hierarchy.

(** What [__init__] leaves in a model that is not variational and keeps
    the age entry apart. *)
Lemma init_narrow (a : Config) (m : Model) :
  __init__ a = Ok m ->
  is_vae a = false ->
  separate_age (age_disentanglement a) (old_experiment a) (model_version a)
  = true ->
  let f := latent_size a - 1 in
  0 < latent_size a
  /\ args m = a
  /\ (exists blocks w, en_layers m = blocks ++ [mk_linear w f])
  /\ (exists w rest, de_layers m = mk_linear (latent_size a) w :: rest)
  /\ (exists rest, mlp_feature_layers m = mk_linear f f :: rest).
Proof.
  unfold __init__. intros H Hvae Hsep. rewrite Hvae, Hsep in H.
  destruct (getitem_int (down_transform a) (-1)) as [last_down|];
    cbn [mbind result_bind] in H; [|discriminate].
  destruct (mapM (encoder_block a) _) as [en_blocks|];
    cbn [mbind result_bind] in H; [|discriminate].
  destruct (getitem_int (out_channels a) (-1)) as [oc_last|];
    cbn [mbind result_bind] in H; [|discriminate].
  destruct (Nat.eqb_spec (latent_size a) 0) as [|Hl]; [discriminate|].
  destruct (negb _); [discriminate|].
  destruct (mapM (decoder_block a) _) as [de_blocks|];
    cbn [mbind result_bind] in H; [|discriminate].
  destruct (getitem (out_channels a) 0) as [oc0|];
    cbn [mbind result_bind] in H; [|discriminate].
  destruct (getitem (spiral_indices a) 0) as [si0|];
    cbn [mbind result_bind] in H; [|discriminate].
  injection H as <-. cbn [args en_layers de_layers mlp_feature_layers].
  split; [lia|]. split; [reflexivity|]. split; [|split].
  - exists en_blocks, (sp_rows last_down * oc_last). reflexivity.
  - eexists _, _. reflexivity.
  - eexists. reflexivity.
Qed.

Variables (a : Config) (m : Model) (mode : bool).
Hypothesis Hinit : __init__ a = Ok m.
Hypothesis Hvae : is_vae a = false.
Hypothesis Hsep :
  separate_age (age_disentanglement a) (old_experiment a) (model_version a)
  = true.

Lemma narrow_encode (x : shape3) (mu : shape2) (logvar : option shape2) :
  encode (train mode m) x = Ok (mu, logvar) -> mu.2 = latent_size a - 1.
Proof.
  destruct (init_narrow a m Hinit Hvae Hsep)
    as (_ & Hargs & (blocks & w & Hen) & _).
  unfold encode. cbn [train args en_layers training].
  rewrite Hargs, Hvae, Hen, getitem_int_last.
  intros H. apply bind_ok_inv in H as (x' & _ & H).
  cbn [mbind result_bind weight_size1 mk_linear Linear.in_features] in H.
  apply bind_ok_inv in H as (rows & _ & H).
  cbn [call2 mk_linear] in H. unfold Linear.forward2 in H.
  cbn [fst snd Linear.in_features Linear.out_features] in H.
  rewrite Nat.eqb_refl in H. cbn [mbind result_bind] in H.
  injection H as <- _. reflexivity.
Qed.

Lemma narrow_decode (z : shape2) (o : shape3) :
  decode (train mode m) z = Ok o -> z.2 = latent_size a.
Proof.
  destruct (init_narrow a m Hinit Hvae Hsep)
    as (_ & _ & _ & (w & rest & Hde) & _).
  unfold decode. cbn [train args de_layers training]. rewrite Hde.
  intros H. apply bind_ok_inv in H as (x' & H & _).
  cbn [call2 mk_linear] in H. unfold Linear.forward2 in H.
  cbn [Linear.in_features] in H.
  destruct (Nat.eqb_spec z.2 (latent_size a)); [assumption|discriminate].
Qed.

Lemma narrow_mlp_feature (x r : shape2) :
  mlp_feature (train mode m) x = Ok r -> x.2 = latent_size a - 1.
Proof.
  destruct (init_narrow a m Hinit Hvae Hsep)
    as (_ & _ & _ & _ & (rest & Hmlp)).
  unfold mlp_feature, Sequential.
  cbn [train mlp_feature_layers training]. rewrite Hmlp.
  cbn [for_each]. intros H. apply bind_ok_inv in H as (x' & H & _).
  cbn [call2 mk_linear] in H. unfold Linear.forward2 in H.
  cbn [Linear.in_features] in H.
  destruct (Nat.eqb_spec x.2 (latent_size a - 1)); [assumption|discriminate].
Qed.

Lemma narrow_sample (mu : shape2) (logvar : option shape2) :
  sample (train mode m) mu logvar = Ok mu.
Proof.
  destruct (init_narrow a m Hinit Hvae Hsep) as (_ & Hargs & _).
  unfold sample. cbn [train args]. rewrite Hargs, Hvae. reflexivity.
Qed.

(** X10. A model that is not variational and keeps the
    age entry apart has a mean head of [latent_size - 1] features and a
    decoder built for [latent_size]: whatever the mode, the variant and
    the input, [forward] does not return. *)
Theorem forward_narrow_mean_never_returns (x : shape3) :
  is_ok (forward (train mode m) x) = false.
Proof.
  destruct (init_narrow a m Hinit Hvae Hsep) as (Hl & _).
  destruct (forward (train mode m) x) as [o|] eqn:H; [exfalso|reflexivity].
  unfold forward in H. cbv zeta in H.
  repeat match type of H with
         | (if ?c then _ else _) = Ok _ => destruct c
         end; try discriminate H.
  - apply bind_ok_inv in H as ([mu logvar] & Hencode & H).
    apply narrow_encode in Hencode. rewrite narrow_sample in H.
    cbn [mbind result_bind] in H.
    apply bind_ok_inv in H as (mlp & _ & H).
    apply bind_ok_inv in H as (out & Hdecode & _).
    apply narrow_decode in Hdecode. lia.
  - apply bind_ok_inv in H as ([mu logvar] & Hencode & H).
    apply narrow_encode in Hencode.
    apply bind_ok_inv in H as (mlp & _ & H).
    rewrite narrow_sample in H. cbn [mbind result_bind] in H.
    apply bind_ok_inv in H as (out & Hdecode & _).
    apply narrow_decode in Hdecode. lia.
  - apply bind_ok_inv in H as ([mu logvar] & Hencode & H).
    apply narrow_encode in Hencode. rewrite narrow_sample in H.
    cbn [mbind result_bind] in H.
    apply bind_ok_inv in H as (age & Hage & H).
    apply bind_ok_inv in H as (z2 & Hfeature & _).
    apply narrow_mlp_feature in Hfeature. unfold age_of in Hage.
    destruct (Nat.eqb_spec mu.2 0); [discriminate|].
    unfold features_of in Hfeature. cbn [snd] in Hfeature. lia.
  - apply bind_ok_inv in H as ([mu logvar] & Hencode & H).
    apply narrow_encode in Hencode.
    apply bind_ok_inv in H as (age & Hage & H).
    apply bind_ok_inv in H as (z2 & Hfeature & _).
    apply narrow_mlp_feature in Hfeature. unfold age_of in Hage.
    destruct (Nat.eqb_spec mu.2 0); [discriminate|].
    unfold features_of in Hfeature. cbn [snd] in Hfeature. lia.
  - apply bind_ok_inv in H as ([mu logvar] & Hencode & H).
    apply narrow_encode in Hencode.
    apply bind_ok_inv in H as (age & Hage & H).
    apply bind_ok_inv in H as (z2 & Hfeature & _).
    apply narrow_mlp_feature in Hfeature. unfold age_of in Hage.
    destruct (Nat.eqb_spec mu.2 0); [discriminate|].
    unfold features_of in Hfeature. cbn [snd] in Hfeature. lia.
Qed.

End NarrowMean.

(** The small model with disentanglement that is not variational, in
    evaluation mode, on a batch of two signals. *)
Lemma forward_narrow_mean_never_returns_witness :
  exists m,
    Shapes.__init__ (Hierarchy.small_config true false) = Ok m
    /\ is_ok (Shapes.forward (Shapes.train false m) (2, 2, 3)) = false.
Proof.
  destruct (Shapes.__init__ (Hierarchy.small_config true false)) as [m|]
    eqn:Hinit; [|discriminate Hinit].
  exists m. split; [reflexivity|].
  apply (forward_narrow_mean_never_returns
           (Hierarchy.small_config true false) m false Hinit eq_refl eq_refl).
Defined.

Section Construction.
Import Tensor Shapes.

Variable a : Config.

Let k : nat := length (out_channels a).

Lemma encoder_block_ok (idx : nat) :
  idx < k ->
  (is_ok (encoder_block a idx) = true <-> idx < length (spiral_indices a)).
Proof.
  intros Hidx. unfold encoder_block.
  assert (Hoc : exists oc, getitem (out_channels a) idx = Ok oc)
    by (apply is_ok_true, getitem_ok_iff; exact Hidx).
  destruct Hoc as [oc Hoc].
  destruct idx as [|j]; cbn [Nat.eqb].
  - rewrite Hoc. cbn [mbind result_bind].
    rewrite is_ok_bind. rewrite <- getitem_ok_iff. rewrite is_ok_true.
    split; [intros (x & -> & _); eauto | intros [x ->]; eauto].
  - assert (Hprev : exists prev, getitem (out_channels a) (S j - 1) = Ok prev)
      by (apply is_ok_true, getitem_ok_iff; fold k; lia).
    destruct Hprev as [prev ->]. cbn [mbind result_bind].
    rewrite Hoc. cbn [mbind result_bind].
    rewrite is_ok_bind. rewrite <- getitem_ok_iff. rewrite is_ok_true.
    split; [intros (x & -> & _); eauto | intros [x ->]; eauto].
Qed.

Lemma decoder_block_ok (idx : nat) :
  idx < k ->
  (is_ok (decoder_block a idx) = true <-> idx < length (spiral_indices a)).
Proof.
  intros Hidx. unfold decoder_block. cbv zeta.
  assert (Hoc : exists oc, getitem_int (out_channels a) (- Z.of_nat idx - 1)
                           = Ok oc).
  { apply is_ok_true, getitem_int_ok_iff. fold k. lia. }
  destruct Hoc as [oc Hoc].
  assert (Hsi : is_ok (getitem_int (spiral_indices a) (- Z.of_nat idx - 1))
                = true <-> idx < length (spiral_indices a)).
  { rewrite getitem_int_ok_iff. lia. }
  destruct idx as [|j]; cbn [Nat.eqb].
  - rewrite Hoc. cbn [mbind result_bind]. rewrite is_ok_bind, <- Hsi.
    rewrite is_ok_true.
    split; [intros (x & -> & _); eauto | intros [x ->]; eauto].
  - assert (Hprev : exists prev,
               getitem_int (out_channels a) (- Z.of_nat (S j)) = Ok prev).
    { apply is_ok_true, getitem_int_ok_iff. fold k. lia. }
    destruct Hprev as [prev ->]. cbn [mbind result_bind].
    rewrite Hoc. cbn [mbind result_bind]. rewrite is_ok_bind, <- Hsi.
    rewrite is_ok_true.
    split; [intros (x & -> & _); eauto | intros [x ->]; eauto].
Qed.

Lemma blocks_ok (f : Config -> nat -> result module) :
  (forall idx, idx < k ->
     (is_ok (f a idx) = true <-> idx < length (spiral_indices a))) ->
  (is_ok (mapM (f a) (seq 0 k)) = true <-> k <= length (spiral_indices a)).
Proof.
  intros Hf. rewrite mapM_is_ok, Forall_forall. split.
  - intros H. destruct k as [|k'] eqn:E; [lia|].
    assert (Hin : k' ∈ seq 0 (S k')) by (apply elem_of_seq; lia).
    apply H in Hin. apply Hf in Hin; lia.
  - intros Hk idx Hidx. apply elem_of_seq in Hidx. apply Hf; lia.
Qed.

Lemma init_ok_iff :
  (exists m, __init__ a = Ok m)
  <-> down_transform a <> []
      /\ 0 < length (out_channels a) <= length (spiral_indices a)
      /\ 0 < latent_size a
      /\ (0 <= mlp_dropout a <= 1)%Q.
Proof.
  rewrite <- is_ok_true. unfold __init__.
  pose proof (blocks_ok encoder_block encoder_block_ok) as Hen.
  pose proof (blocks_ok decoder_block decoder_block_ok) as Hde.
  fold k in Hen, Hde |- *.
  assert (Hdown : is_ok (getitem_int (down_transform a) (-1)) = true
                  <-> down_transform a <> []).
  { rewrite getitem_int_ok_iff.
    destruct (down_transform a); cbn [length]; split; try congruence; lia. }
  assert (Hlast : is_ok (getitem_int (out_channels a) (-1)) = true <-> 0 < k).
  { rewrite getitem_int_ok_iff. fold k. lia. }
  assert (Hoc0 : is_ok (getitem (out_channels a) 0) = true <-> 0 < k)
    by apply getitem_ok_iff.
  assert (Hsi0 : is_ok (getitem (spiral_indices a) 0) = true
                 <-> 0 < length (spiral_indices a))
    by apply getitem_ok_iff.
  assert (Hp : negb (Qle_bool 0 (mlp_dropout a) && Qle_bool (mlp_dropout a) 1)
               = false <-> (0 <= mlp_dropout a <= 1)%Q).
  { rewrite negb_false_iff, andb_true_iff, !Qle_bool_iff. reflexivity. }
  destruct (getitem_int (down_transform a) (-1)) as [last_down|];
    cbn [mbind result_bind is_ok] in *; [|intuition congruence].
  destruct (mapM (encoder_block a) (seq 0 k)) as [en_blocks|];
    cbn [mbind result_bind is_ok] in *;
    [|split; [discriminate|]; intros (_ & [_ Hk] & _); apply Hen in Hk;
      discriminate].
  destruct (getitem_int (out_channels a) (-1)) as [oc_last|];
    cbn [mbind result_bind is_ok] in *;
    [|split; [discriminate|]; intros (_ & [Hk _] & _); apply Hlast in Hk;
      discriminate].
  destruct (Nat.eqb_spec (latent_size a) 0) as [Hl|Hl];
    [split; [discriminate|lia]|].
  destruct (negb _);
    [split; [discriminate|]; intros (_ & _ & _ & Hq); apply Hp in Hq;
     discriminate|].
  destruct (mapM (decoder_block a) (seq 0 k)) as [de_blocks|];
    cbn [mbind result_bind is_ok] in *;
    [|split; [discriminate|]; intros (_ & [_ Hk] & _); apply Hde in Hk;
      discriminate].
  destruct (getitem (out_channels a) 0) as [oc0|];
    cbn [mbind result_bind is_ok] in *;
    [|split; [discriminate|]; intros (_ & [Hk _] & _); apply Hoc0 in Hk;
      discriminate].
  destruct (getitem (spiral_indices a) 0) as [si0|];
    cbn [mbind result_bind is_ok] in *;
    [|split; [discriminate|]; intros (_ & Hk & _);
      assert (Hs : 0 < length (spiral_indices a)) by lia;
      apply Hsi0 in Hs; discriminate].
  split; [intros _|reflexivity].
  split; [apply Hdown; reflexivity|].
  split; [split; [apply Hlast | apply Hen]; reflexivity|].
  split; [lia|]. apply Hp. reflexivity.
Qed.

(** X11. [Model.__init__] returns only if there is a
    down-transform, at least one entry in [out_channels] with a spiral
    table for each, a positive latent size and a dropout rate that is a
    probability; [up_transform] is not looked at. With these and layer
    widths that are positive it returns a model in training mode that
    holds its arguments, an encoder of one block per entry of
    [out_channels] followed by one dense head (two when variational), and
    a decoder of a dense layer, one block per entry and a final
    convolution. *)
Theorem init_returns :
  let conditions :=
    down_transform a <> []
    /\ 0 < length (out_channels a) <= length (spiral_indices a)
    /\ 0 < latent_size a
    /\ (0 <= mlp_dropout a <= 1)%Q in
  ((exists m, __init__ a = Ok m) -> conditions)
  /\ (conditions ->
      1 < latent_size a -> Forall (lt 0) (out_channels a) ->
      0 < mlp_layer_2 a -> 0 < mlp_layer_3 a ->
      exists m,
        __init__ a = Ok m
        /\ args m = a /\ training m = true
        /\ length (en_layers m)
           = length (out_channels a) + (if is_vae a then 2 else 1)
        /\ length (de_layers m) = length (out_channels a) + 2).
Proof.
  cbv zeta. split; [apply init_ok_iff|].
  intros Hcond _ _ _ _. apply init_ok_iff in Hcond as [m Hm].
  exists m. split; [exact Hm|]. unfold __init__ in Hm.
  destruct (getitem_int (down_transform a) (-1)) as [last_down|];
    cbn [mbind result_bind] in Hm; [|discriminate].
  destruct (mapM (encoder_block a) _) as [en_blocks|] eqn:Hen;
    cbn [mbind result_bind] in Hm; [|discriminate].
  destruct (getitem_int (out_channels a) (-1)) as [oc_last|];
    cbn [mbind result_bind] in Hm; [|discriminate].
  destruct (latent_size a =? 0); [discriminate|].
  destruct (negb _); [discriminate|].
  destruct (mapM (decoder_block a) _) as [de_blocks|] eqn:Hde;
    cbn [mbind result_bind] in Hm; [|discriminate].
  destruct (getitem (out_channels a) 0) as [oc0|];
    cbn [mbind result_bind] in Hm; [|discriminate].
  destruct (getitem (spiral_indices a) 0) as [si0|];
    cbn [mbind result_bind] in Hm; [|discriminate].
  injection Hm as <-. cbn [args training en_layers de_layers].
  apply mapM_length in Hen, Hde. rewrite length_seq in Hen, Hde.
  split; [reflexivity|]. split; [reflexivity|].
  rewrite !length_app, Hen. cbn [length]. rewrite length_app, Hde.
  destruct (is_vae a); cbn [length]; split; lia.
Qed.

End Construction.

(** The small model: one level, one table, one down-transform. *)
Lemma init_returns_witness :
  exists m,
    Shapes.__init__ (Hierarchy.small_config true true) = Ok m
    /\ Shapes.args m = Hierarchy.small_config true true
    /\ Shapes.training m = true
    /\ length (Shapes.en_layers m) = 3
    /\ length (Shapes.de_layers m) = 3.
Proof.
  apply (proj2 (init_returns (Hierarchy.small_config true true))).
  - cbn. repeat split; try discriminate; try lia.
  - cbn. lia.
  - cbn. repeat constructor.
  - cbn. lia.
  - cbn. lia.
Defined.

(** ** Values and their shapes

    [Pool] and [_reparameterize] are embedded twice, on tensor values and
    on tensor shapes; on non-empty tensors the two embeddings agree. *)

Section ValuesAndShapes.
Import Tensor Shapes Spec.
#[local] Open Scope R_scope.

Lemma for_each_scatter_shape (rows ch : nat) (g : list (nat * list R))
    (out : list (list R)) :
  has_shape2 out (rows, ch) ->
  Forall (fun p => length p.2 = ch) g ->
  if forallb (fun p : nat * list R => p.1 <? rows)%nat g
  then exists y, for_each scatter_row g out = Ok y /\ has_shape2 y (rows, ch)
  else for_each scatter_row g out = Raise RuntimeError.
Proof.
  intros Hout Hg. revert out Hout.
  induction Hg as [|[r v] g Hv _ IH]; intros out [Hlen Hrows]; cbn [forallb].
  - exists out. split; [reflexivity | split; assumption].
  - cbn [fst snd] in *. cbn [for_each].
    destruct (Nat.ltb_spec r rows) as [Hlt|Hge]; cbn [andb].
    + destruct (lookup_lt_is_Some_2 out r) as [acc Hacc]; [lia|].
      assert (Hstep : scatter_row (r, v) out
                      = Ok (<[r := zip_with Rplus acc v]> out))
        by (unfold scatter_row; cbn [fst snd]; rewrite Hacc; reflexivity).
      rewrite Hstep. cbn [mbind result_bind]. apply IH. split.
      * rewrite length_insert. exact Hlen.
      * apply Forall_insert; [exact Hrows|].
        rewrite length_zip_with, Hv.
        rewrite (proj1 (Forall_lookup _ _) Hrows r acc Hacc). cbn. lia.
    + assert (Hnone : out !! r = None) by (apply lookup_ge_None; lia).
      assert (Hstep : scatter_row (r, v) out = Raise RuntimeError)
        by (unfold scatter_row; cbn [fst snd]; rewrite Hnone; reflexivity).
      rewrite Hstep. destruct (forallb _ g); reflexivity.
Qed.

Lemma gather_shape (n ch : nat) (x : list (list R))
    (entries : list (nat * nat * R)) :
  has_shape2 x (n, ch) ->
  if forallb (fun e : nat * nat * R => e.1.2 <? n)%nat entries
  then exists g,
         mapM (fun e : nat * nat * R =>
                 row ← getitem x e.1.2;
                 Ok (e.1.1, (fun v => v * e.2) <$> (row : list R))) entries
         = Ok g
         /\ Forall (fun p => length p.2 = ch) g
         /\ g.*1 = (fun e : nat * nat * R => e.1.1) <$> entries
  else mapM (fun e : nat * nat * R =>
               row ← getitem x e.1.2;
               Ok (e.1.1, (fun v => v * e.2) <$> (row : list R))) entries
       = Raise IndexError.
Proof.
  intros [Hlen Hrows].
  induction entries as [|[[r c] w] entries IH]; cbn [forallb].
  - exists []. repeat split; constructor.
  - cbn [fst snd mapM].
    destruct (Nat.ltb_spec c n) as [Hlt|Hge]; cbn [andb].
    + destruct (lookup_lt_is_Some_2 x c) as [row Hrow]; [cbn in Hlen; lia|].
      assert (Hstep : getitem x c = Ok row)
        by (unfold getitem; rewrite Hrow; reflexivity).
      rewrite Hstep. cbn [mbind result_bind fst snd].
      destruct (forallb (fun e : nat * nat * R => (e.1.2 <? n)%nat) entries).
      * destruct IH as (g & -> & Hg & Hfst). cbn [mbind result_bind mret result_ret].
        eexists. split; [reflexivity|]. split.
        -- constructor; [|exact Hg]. cbn. rewrite length_fmap.
           apply (proj1 (Forall_lookup _ _) Hrows c row Hrow).
        -- cbn. rewrite Hfst. reflexivity.
      * rewrite IH. reflexivity.
    + assert (Hstep : getitem x c = Raise IndexError).
      { unfold getitem. rewrite (proj2 (lookup_ge_None x c)); [reflexivity|].
        cbn in Hlen. lia. }
      rewrite Hstep. reflexivity.
Qed.

Lemma forallb_fmap {X Y} (f : Y -> bool) (g : X -> Y) (l : list X) :
  forallb f (g <$> l) = forallb (fun x => f (g x)) l.
Proof. induction l as [|a l IH]; cbn; [reflexivity|]. rewrite IH. reflexivity. Qed.

Lemma pool_one_agrees (trans : sparse) (x : list (list R)) (bs n ch : nat) :
  has_shape2 x (n, ch) -> (0 < n)%nat ->
  agree has_shape2 (pool_one trans x)
    (s ← Shapes.Pool (bs, n, ch) trans; Ok (s.1.2, s.2)).
Proof.
  intros Hx Hn. unfold pool_one, Shapes.Pool, index_select_check.
  pose proof (gather_shape n ch x (sp_entries trans) Hx) as Hg.
  rewrite forallb_fmap.
  destruct (forallb (fun e : nat * nat * R => (e.1.2 <? n)%nat)
              (sp_entries trans)).
  2:{ rewrite Hg. reflexivity. }
  destruct Hg as (g & -> & Hgw & Hfst). cbn [mbind result_bind].
  assert (Hw : width x = ch).
  { destruct Hx as [Hlen Hrows]. destruct x as [|row x]; [cbn in Hlen; lia|].
    inversion Hrows as [|? ? Hrow _]; subst. exact Hrow. }
  rewrite Hw.
  pose proof (for_each_scatter_shape (sp_rows trans) ch g
                (replicate (sp_rows trans) (replicate ch 0))) as Hs.
  rewrite <- (forallb_fmap (fun r => (r <? sp_rows trans)%nat) fst), Hfst,
    forallb_fmap in Hs.
  destruct (forallb (fun e : nat * nat * R => (e.1.1 <? sp_rows trans)%nat)
              (sp_entries trans)).
  - destruct Hs as (y & -> & Hy); [| exact Hgw | exact Hy].
    split; [apply length_replicate|]. apply Forall_replicate, length_replicate.
  - rewrite Hs; [reflexivity| | exact Hgw].
    split; [apply length_replicate|]. apply Forall_replicate, length_replicate.
Qed.

(** On a non-empty batch of non-empty meshes, [Pool] on values returns a
    tensor of the shape [Pool] on shapes returns, or both raise the same
    exception. *)
Lemma Pool_agrees (trans : sparse) (x : tensor3) (bs n ch : nat) :
  has_shape3 x (bs, n, ch) -> (0 < bs)%nat -> (0 < n)%nat ->
  agree has_shape3 (Tensor.Pool x trans) (Shapes.Pool (bs, n, ch) trans).
Proof.
  intros [Hlen Hall] Hbs Hn. cbn [fst snd] in Hlen, Hall. unfold Tensor.Pool.
  destruct (Shapes.Pool (bs, n, ch) trans) as [[[bs' n'] ch']|e] eqn:Hshape.
  - assert (Hbs' : bs' = bs).
    { unfold Shapes.Pool in Hshape.
      destruct (index_select_check _ _); [|discriminate].
      cbn [mbind result_bind] in Hshape.
      destruct (forallb _ _); [|discriminate]. congruence. }
    subst bs'.
    assert (Hok : exists y, mapM (pool_one trans) x = Ok y
                            /\ length y = length x
                            /\ Forall (fun m => has_shape2 m (n', ch')) y).
    { clear Hlen Hbs. induction Hall as [|m x Hm _ IH].
      - exists []. repeat split; constructor.
      - pose proof (pool_one_agrees trans m bs n ch Hm Hn) as Ha.
        rewrite Hshape in Ha. cbn [mbind result_bind fst snd] in Ha.
        cbn [mapM]. destruct (pool_one trans m) as [pm|]; [|destruct Ha].
        destruct IH as (y & -> & Hly & Hy). cbn [mbind result_bind mret result_ret].
        exists (pm :: y). split; [reflexivity|]. split; [cbn; lia|].
        constructor; assumption. }
    destruct Hok as (y & -> & Hly & Hy). split; [cbn; lia | exact Hy].
  - destruct x as [|m x]; [cbn in Hlen; lia|].
    inversion Hall as [|? ? Hm _].
    pose proof (pool_one_agrees trans m bs n ch Hm Hn) as Ha.
    rewrite Hshape in Ha. cbn [mbind result_bind] in Ha. cbn [mapM].
    destruct (pool_one trans m) as [pm|e']; [destruct Ha|].
    cbn in Ha. subst e'. reflexivity.
Qed.

Lemma agree_bind {X S Y T} (P : X -> S -> Prop) (Q : Y -> T -> Prop)
    (v : result X) (s : result S) (k : X -> result Y) (k' : S -> result T) :
  agree P v s ->
  (forall x s', P x s' -> agree Q (k x) (k' s')) ->
  agree Q (v ≫= k) (s ≫= k').
Proof.
  intros Hvs Hk. destruct v as [x|e], s as [s'|e']; cbn in *;
    [apply Hk; exact Hvs | destruct Hvs | destruct Hvs | exact Hvs].
Qed.

(** [mapM] of a body that agrees with one and the same shape-level
    result on every entry of a non-empty list. *)
Lemma mapM_agrees {X Y T} (P : Y -> T -> Prop) (f : X -> result Y)
    (l : list X) (s : result T) :
  Forall (fun a => agree P (f a) s) l -> l <> [] ->
  agree (fun ys s' => length ys = length l /\ Forall (fun y => P y s') ys)
    (mapM f l) s.
Proof.
  intros Hall Hne. destruct s as [s'|e].
  - clear Hne. induction Hall as [|a l Ha _ IH]; [split; constructor|].
    cbn [mapM]. destruct (f a) as [y|]; [|destruct Ha].
    cbn [mbind result_bind]. destruct (mapM f l) as [ys|]; [|destruct IH].
    destruct IH as [Hl Hys]. cbn. split; [lia | constructor; assumption].
  - destruct Hall as [|a l Ha _]; [congruence|].
    cbn [mapM]. destruct (f a) as [y|e']; [destruct Ha|exact Ha].
Qed.

Lemma broadcast_dim_same (a : nat) : broadcast_dim a a = Ok a.
Proof. unfold broadcast_dim. rewrite Nat.eqb_refl. reflexivity. Qed.

Section BroadcastShapes.
Variable f : R -> R -> R.

Lemma broadcast_row_agrees (xs ys : list R) :
  agree (fun (l : list R) n => length l = n)
    (broadcast (fun a b => Ok (f a b)) xs ys)
    (broadcast_dim (length xs) (length ys)).
Proof.
  unfold broadcast, broadcast_dim.
  destruct (Nat.eqb_spec (length xs) (length ys)) as [Heq|Hne].
  - rewrite (mapM_ok_fmap _ (fun p : R * R => f p.1 p.2))
      by (apply Forall_forall; reflexivity).
    cbn. rewrite length_fmap, length_zip. lia.
  - destruct xs as [|x [|x' xs]].
    + destruct ys as [|y [|y' ys]]; cbn in *; [congruence|reflexivity|reflexivity].
    + cbn [length Nat.eqb].
      rewrite (mapM_ok_fmap _ (f x)) by (apply Forall_forall; reflexivity).
      cbn. apply length_fmap.
    + destruct ys as [|y [|y' ys]]; cbn [length Nat.eqb]; try reflexivity.
      rewrite (mapM_ok_fmap _ (fun a => f a y))
        by (apply Forall_forall; reflexivity).
      cbn. rewrite !length_fmap. reflexivity.
Qed.

(** An elementwise operation on two non-empty batches broadcasts as the
    shapes say. *)
Lemma broadcast2_agrees (x y : tensor2) (sx sy : shape2) :
  has_shape2 x sx -> has_shape2 y sy -> (0 < sx.1)%nat -> (0 < sy.1)%nat ->
  agree has_shape2 (broadcast (broadcast (fun a b => Ok (f a b))) x y)
    (Shapes.add2 sx sy).
Proof.
  destruct sx as [r1 c1], sy as [r2 c2]. cbn [fst snd].
  intros [Hlx Hx] [Hly Hy] Hr1 Hr2. cbn [fst snd] in Hlx, Hx, Hly, Hy.
  assert (Hrow : forall row1 row2, row1 ∈ x -> row2 ∈ y ->
            agree (fun (l : list R) n => length l = n)
              (broadcast (fun a b => Ok (f a b)) row1 row2)
              (broadcast_dim c1 c2)).
  { intros row1 row2 H1 H2.
    rewrite <- (proj1 (Forall_forall _ _) Hx row1 H1),
            <- (proj1 (Forall_forall _ _) Hy row2 H2).
    apply broadcast_row_agrees. }
  assert (Hfin : forall (X : Type) (g : X -> result (list R)) (l : list X) r,
            Forall (fun a => agree (fun (l : list R) n => length l = n)
                               (g a) (broadcast_dim c1 c2)) l ->
            length l = r -> (0 < r)%nat ->
            agree has_shape2 (mapM g l)
              (c ← broadcast_dim c1 c2; Ok (r, c))).
  { intros X g l r Hall Hl Hr.
    pose proof (mapM_agrees _ g l _ Hall) as Hm.
    destruct (mapM g l) as [out|e], (broadcast_dim c1 c2) as [c|e'];
      cbn in Hm |- *.
    - destruct Hm as [Hlen Hrows]; [intros ->; cbn in Hl; lia|].
      split; [cbn; lia | exact Hrows].
    - apply Hm. intros ->; cbn in Hl; lia.
    - apply Hm. intros ->; cbn in Hl; lia.
    - apply Hm. intros ->; cbn in Hl; lia. }
  unfold Shapes.add2, broadcast at 1. cbn [fst snd].
  rewrite Hlx, Hly.
  destruct (Nat.eqb_spec r1 r2) as [Heq|Hne].
  - destruct Heq. rewrite broadcast_dim_same. cbn [mbind result_bind].
    apply Hfin; [|rewrite length_zip; lia|exact Hr1].
    apply Forall_forall. intros [row1 row2] Hin. cbn [fst snd].
    apply Hrow; [eapply elem_of_zip_l | eapply elem_of_zip_r]; exact Hin.
  - assert (Hdim : broadcast_dim r1 r2
                   = if (r1 =? 1)%nat then Ok r2
                     else if (r2 =? 1)%nat then Ok r1 else Raise RuntimeError).
    { unfold broadcast_dim. rewrite (proj2 (Nat.eqb_neq r1 r2) Hne).
      reflexivity. }
    rewrite Hdim. clear Hdim.
    destruct x as [|x0 [|x1 x]].
    + cbn in Hlx. lia.
    + cbn in Hlx. destruct Hlx. cbn [Nat.eqb mbind result_bind].
      apply Hfin; [|exact Hly|exact Hr2].
      apply Forall_forall. intros row2 Hin. apply Hrow; [|exact Hin].
      apply list_elem_of_singleton. reflexivity.
    + assert (Hr1' : (r1 =? 1)%nat = false)
        by (apply Nat.eqb_neq; cbn in Hlx; lia).
      rewrite Hr1'. destruct y as [|y0 [|y1 y]].
      * cbn in Hly. lia.
      * cbn in Hly. destruct Hly. cbn [Nat.eqb mbind result_bind].
        apply Hfin; [|exact Hlx|exact Hr1].
        apply Forall_forall. intros row1 Hin. apply Hrow; [exact Hin|].
        apply list_elem_of_singleton. reflexivity.
      * assert (Hr2' : (r2 =? 1)%nat = false)
          by (apply Nat.eqb_neq; cbn in Hly; lia).
        rewrite Hr2'. reflexivity.
Qed.

End BroadcastShapes.

Lemma randn_like_has_shape (noise : nat -> nat -> R) (t : tensor2) (s : shape2) :
  has_shape2 t s -> has_shape2 (randn_like noise t) s.
Proof.
  intros [Hl Hrows]. unfold randn_like. split; [rewrite length_imap; exact Hl|].
  apply Forall_lookup. intros i row Hi.
  rewrite list_lookup_imap in Hi.
  destruct (t !! i) as [row'|] eqn:Hrow'; [|discriminate].
  cbn in Hi. injection Hi as <-. rewrite length_imap.
  apply (proj1 (Forall_lookup _ _) Hrows i row' Hrow').
Qed.

Lemma drop_last_column_has_shape (x : tensor2) (s : shape2) :
  has_shape2 x s -> has_shape2 (drop_last_column x) (features_of s).
Proof.
  intros [Hl Hrows]. unfold drop_last_column, features_of.
  split; [rewrite length_fmap; exact Hl|]. cbn [fst snd].
  apply Forall_fmap. eapply Forall_impl; [exact Hrows|].
  intros row Hrow. cbn. rewrite removelast_firstn_len, length_take, Hrow. lia.
Qed.

Lemma last_column_agrees (x : tensor2) (s : shape2) :
  has_shape2 x s -> (0 < s.1)%nat ->
  agree has_shape2 (last_column x) (age_of s).
Proof.
  intros [Hl Hrows] Hpos. unfold last_column, age_of.
  assert (Hall : Forall (fun row : list R =>
            agree (fun (l : list R) n => length l = n)
              (v ← or_raise IndexError (last row); Ok [v])
              (if (s.2 =? 0)%nat then Raise IndexError else Ok 1%nat)) x).
  { eapply Forall_impl; [exact Hrows|]. intros row Hrow.
    destruct (Nat.eqb_spec s.2 0) as [H0|Hn0].
    - destruct row; [reflexivity | cbn in Hrow; lia].
    - destruct (last row) as [v|] eqn:Hlast; [reflexivity|].
      apply last_None in Hlast. subst row. cbn in Hrow. lia. }
  pose proof (mapM_agrees _ _ x _ Hall) as Hm.
  assert (Hne : x <> []) by (intros ->; cbn in Hl; lia).
  specialize (Hm Hne).
  destruct (mapM _ x) as [out|e], (s.2 =? 0)%nat; cbn in Hm |- *;
    try exact Hm.
  destruct Hm as [Hlen Hout]. split; [cbn; lia | exact Hout].
Qed.

Lemma cat1_agrees (x y : tensor2) (sx sy : shape2) :
  has_shape2 x sx -> has_shape2 y sy ->
  agree has_shape2 (Tensor.cat1 x y) (Shapes.cat1 sx sy).
Proof.
  intros [Hlx Hx] [Hly Hy]. unfold Tensor.cat1, Shapes.cat1.
  rewrite Hlx, Hly. destruct (sx.1 =? sy.1)%nat eqn:Heq; [|reflexivity].
  apply Nat.eqb_eq in Heq. split; cbn [fst snd].
  - rewrite length_zip_with. lia.
  - apply Forall_lookup. intros i row Hi.
    apply lookup_zip_with_Some in Hi as (a & b & -> & Ha & Hb).
    rewrite length_app,
      (proj1 (Forall_lookup _ _) Hx i a Ha),
      (proj1 (Forall_lookup _ _) Hy i b Hb). reflexivity.
Qed.

(** On non-empty batches, [_reparameterize] on values returns a matrix of
    the shape [_reparameterize] on shapes returns, or both raise the same
    exception. *)
Lemma reparameterize_agrees (noise : nat -> nat -> R) (mu logvar : tensor2)
    (smu slv : shape2) (age_disentanglement old_experiment : bool)
    (model_version : version) :
  has_shape2 mu smu -> has_shape2 logvar slv ->
  (0 < smu.1)%nat -> (0 < slv.1)%nat ->
  agree has_shape2
    (Tensor._reparameterize noise mu logvar age_disentanglement
       old_experiment model_version)
    (Shapes._reparameterize smu (Some slv) age_disentanglement
       old_experiment model_version).
Proof.
  intros Hmu Hlv Hpmu Hplv.
  unfold Tensor._reparameterize, Shapes._reparameterize.
  cbn [or_raise mbind result_bind].
  set (std := (fun row : list R => (fun l => exp (0.5 * l)) <$> row) <$> logvar).
  assert (Hstd : has_shape2 std slv).
  { destruct Hlv as [Hl Hrows]. split; [unfold std; rewrite length_fmap; exact Hl|].
    apply Forall_fmap. eapply Forall_impl; [exact Hrows|].
    intros row Hrow. cbn. rewrite length_fmap. exact Hrow. }
  assert (Hnoisy : agree has_shape2 (mul2 (randn_like noise std) std) (Ok slv)).
  { pose proof (broadcast2_agrees Rmult _ _ slv slv
                  (randn_like_has_shape noise std slv Hstd) Hstd Hplv Hplv) as H.
    unfold Shapes.add2 in H. rewrite !broadcast_dim_same in H.
    destruct slv. exact H. }
  destruct (separate_age age_disentanglement old_experiment model_version).
  - eapply agree_bind; [apply last_column_agrees; assumption|].
    intros mu_age sage Hage.
    destruct (mul2 (randn_like noise std) std) as [noisy|]; [|destruct Hnoisy].
    cbn [mbind result_bind].
    eapply agree_bind.
    + apply (broadcast2_agrees Rplus);
        [apply drop_last_column_has_shape; exact Hmu | exact Hnoisy
        | exact Hpmu | exact Hplv].
    + intros z sz Hz. apply cat1_agrees; assumption.
  - destruct (mul2 (randn_like noise std) std) as [noisy|]; [|destruct Hnoisy].
    cbn [mbind result_bind].
    apply (broadcast2_agrees Rplus); assumption.
Qed.

End ValuesAndShapes.

(** ** Pooling as a matrix product *)

Section PoolProduct.
Import Tensor Shapes Spec.
#[local] Open Scope R_scope.

(** X12. On a non-empty batch of signals over [n]
    vertices, [Pool] raises [IndexError] when an entry of the transform
    names a column at or above [n] ([index_select]), and [RuntimeError]
    when the columns fit and an entry names a row at or above
    [trans.size(0)] ([scatter_add]). [trans.size(1)] is never read. *)
Theorem Pool_out_of_range (trans : sparse) (x : tensor3) (bs n ch : nat) :
  has_shape3 x (bs, n, ch) -> (0 < bs)%nat -> (0 < n)%nat ->
  (Exists (fun e : nat * nat * R => (n <= e.1.2)%nat) (sp_entries trans) ->
   Tensor.Pool x trans = Raise IndexError)
  /\ (Forall (fun e : nat * nat * R => (e.1.2 < n)%nat) (sp_entries trans) ->
      Exists (fun e : nat * nat * R => (sp_rows trans <= e.1.1)%nat)
        (sp_entries trans) ->
      Tensor.Pool x trans = Raise RuntimeError).
Proof.
  intros Hx Hbs Hn. pose proof (Pool_agrees trans x bs n ch Hx Hbs Hn) as H.
  unfold Shapes.Pool, index_select_check in H. rewrite forallb_fmap in H.
  split.
  - intros Hex.
    assert (Hcols : forallb (fun e : nat * nat * R => (e.1.2 <? n)%nat)
                      (sp_entries trans) = false).
    { apply not_true_is_false. intros Hall. rewrite forallb_forall in Hall.
      apply Exists_exists in Hex as (e & He & Hge).
      apply list_elem_of_In, Hall, Nat.ltb_lt in He. lia. }
    rewrite Hcols in H. cbn in H.
    destruct (Tensor.Pool x trans); [destruct H | congruence].
  - intros Hall Hex.
    assert (Hcols : forallb (fun e : nat * nat * R => (e.1.2 <? n)%nat)
                      (sp_entries trans) = true).
    { apply forallb_forall. intros e He. apply Nat.ltb_lt.
      apply (proj1 (Forall_forall _ _) Hall), list_elem_of_In, He. }
    assert (Hrows : forallb (fun e : nat * nat * R =>
                               (e.1.1 <? sp_rows trans)%nat)
                      (sp_entries trans) = false).
    { apply not_true_is_false. intros Hr. rewrite forallb_forall in Hr.
      apply Exists_exists in Hex as (e & He & Hge).
      apply list_elem_of_In, Hr, Nat.ltb_lt in He. lia. }
    rewrite Hcols in H. cbn [mbind result_bind] in H. rewrite Hrows in H.
    cbn in H. destruct (Tensor.Pool x trans); [destruct H | congruence].
Qed.

Lemma Pool_out_of_range_witness :
  Tensor.Pool [[[1]; [2]]]
    {| sp_rows := 1%nat; sp_cols := 2%nat; sp_entries := [(0%nat, 2%nat, 1)] |}
  = Raise IndexError
  /\ Tensor.Pool [[[1]; [2]]]
       {| sp_rows := 1%nat; sp_cols := 2%nat; sp_entries := [(1%nat, 0%nat, 1)] |}
     = Raise RuntimeError.
Proof.
  assert (Hx : has_shape3 [[[1]; [2]]] (1, 2, 1)%nat)
    by (repeat constructor).
  split.
  - apply (Pool_out_of_range _ _ 1 2 1 Hx); [lia | lia |].
    constructor. cbn. lia.
  - apply (Pool_out_of_range _ _ 1 2 1 Hx); [lia | lia | |].
    + repeat constructor.
    + constructor. cbn. lia.
Defined.

Lemma scatter_row_at (p : nat * list R) (out out' : tensor2) (rows ch : nat)
    (r c : nat) :
  has_shape2 out (rows, ch) -> length p.2 = ch ->
  scatter_row p out = Ok out' ->
  (r < rows)%nat -> (c < ch)%nat ->
  has_shape2 out' (rows, ch)
  /\ at2 out' r c
     = at2 out r c + (if decide (p.1 = r) then nth c p.2 0 else 0).
Proof.
  intros [Hlen Hrows] Hp Hs Hr Hc. cbn [fst snd] in Hlen, Hrows.
  unfold scatter_row in Hs.
  destruct (out !! p.1) as [acc|] eqn:Hacc; [|discriminate].
  injection Hs as <-.
  pose proof (proj1 (Forall_lookup _ _) Hrows _ _ Hacc) as Hlacc.
  cbn beta in Hlacc.
  split.
  - split; [cbn; rewrite length_insert; exact Hlen|]. cbn [snd].
    apply Forall_insert; [exact Hrows|].
    rewrite length_zip_with. lia.
  - unfold at2. rewrite !nth_lookup.
    destruct (decide (p.1 = r)) as [<-|Hne].
    + rewrite list_lookup_insert_eq by (apply lookup_lt_Some in Hacc; exact Hacc).
      rewrite Hacc. cbn [default from_option Datatypes.id].
      destruct (lookup_lt_is_Some_2 acc c) as [u Hu]; [lia|].
      destruct (lookup_lt_is_Some_2 p.2 c) as [v Hv]; [lia|].
      rewrite (lookup_zip_with Rplus), Hu, Hv. reflexivity.
    + rewrite list_lookup_insert_ne by exact Hne. lra.
Qed.

Lemma sum_list_cons (v : R) (l : list R) : sum_list (v :: l) = v + sum_list l.
Proof. reflexivity. Qed.

Lemma scatter_at (g : list (nat * list R)) (out out' : tensor2)
    (rows ch r c : nat) :
  has_shape2 out (rows, ch) -> Forall (fun p => length p.2 = ch) g ->
  for_each scatter_row g out = Ok out' ->
  (r < rows)%nat -> (c < ch)%nat ->
  at2 out' r c
  = at2 out r c
    + sum_list ((fun p : nat * list R => nth c p.2 0)
                  <$> filter (fun p : nat * list R => p.1 = r) g).
Proof.
  intros Hout Hg. revert out Hout.
  induction Hg as [|p g Hp _ IH]; intros out Hout Hs Hr Hc.
  - cbn in Hs. injection Hs as <-. cbn. lra.
  - cbn [for_each] in Hs. apply bind_ok_inv in Hs as (mid & Hmid & Hs).
    destruct (scatter_row_at p out mid rows ch r c Hout Hp Hmid Hr Hc)
      as [Hshape Hat].
    rewrite (IH mid Hshape Hs Hr Hc), Hat. rewrite filter_cons.
    repeat case_decide; try contradiction;
      rewrite ?fmap_cons, ?sum_list_cons; lra.
Qed.

Lemma at2_zeros (rows ch r c : nat) :
  at2 (replicate rows (replicate ch 0)) r c = 0.
Proof.
  unfold at2. rewrite !nth_lookup.
  destruct (decide (r < rows)%nat) as [Hr|Hr].
  - rewrite lookup_replicate_2 by exact Hr. cbn.
    destruct (decide (c < ch)%nat) as [Hc|Hc].
    + rewrite lookup_replicate_2 by exact Hc. reflexivity.
    + rewrite (proj2 (lookup_ge_None _ _)); [reflexivity|].
      rewrite length_replicate. lia.
  - rewrite (proj2 (lookup_ge_None _ r)); [reflexivity|].
    rewrite length_replicate. lia.
Qed.

Lemma pool_one_product (trans : sparse) (xb : tensor2) (n ch : nat) :
  has_shape2 xb (n, ch) -> (0 < n)%nat ->
  Forall (fun e : nat * nat * R => (e.1.1 < sp_rows trans /\ e.1.2 < n)%nat)
    (sp_entries trans) ->
  exists yb,
    pool_one trans xb = Ok yb
    /\ has_shape2 yb (sp_rows trans, ch)
    /\ forall r c, (r < sp_rows trans)%nat -> (c < ch)%nat ->
         at2 yb r c
         = sum_list ((fun e : nat * nat * R => e.2 * at2 xb e.1.2 c)
                       <$> filter (fun e : nat * nat * R => e.1.1 = r)
                             (sp_entries trans)).
Proof.
  intros Hx Hn Hall.
  pose proof (pool_one_agrees trans xb 1 n ch Hx Hn) as Hagree.
  assert (Hshape : Shapes.Pool (1%nat, n, ch) trans
                   = Ok (1%nat, sp_rows trans, ch)).
  { apply Pool_shape. unfold Hierarchy.operator_ok.
    rewrite Nat.eqb_refl. cbn [andb]. apply forallb_forall. intros e He.
    apply list_elem_of_In in He.
    destruct (proj1 (Forall_forall _ _) Hall e He) as [H1 H2].
    apply andb_true_intro. split; apply Nat.ltb_lt; assumption. }
  rewrite Hshape in Hagree. cbn [mbind result_bind fst snd] in Hagree.
  destruct (pool_one trans xb) as [yb|] eqn:Hpool; [|destruct Hagree].
  exists yb. split; [reflexivity|]. split; [exact Hagree|].
  intros r c Hr Hc. unfold pool_one in Hpool.
  set (gather := fun e : nat * nat * R =>
                   (e.1.1, (fun v => v * e.2) <$> nth e.1.2 xb [])).
  assert (Hg : mapM (fun e : nat * nat * R =>
                       row ← getitem xb e.1.2;
                       Ok (e.1.1, (fun v => v * e.2) <$> (row : list R)))
                 (sp_entries trans)
               = Ok (gather <$> sp_entries trans)).
  { apply mapM_ok_fmap. eapply Forall_impl; [exact Hall|].
    intros e [_ He]. cbn beta.
    rewrite (getitem_nth xb e.1.2 []) by (destruct Hx as [-> _]; exact He).
    reflexivity. }
  rewrite Hg in Hpool. cbn [mbind result_bind] in Hpool.
  assert (Hw : width xb = ch).
  { destruct Hx as [Hlen Hrows]. destruct xb as [|row xb]; [cbn in Hlen; lia|].
    inversion Hrows as [|? ? Hrow _]; subst. exact Hrow. }
  rewrite Hw in Hpool.
  assert (Hzeros : has_shape2 (replicate (sp_rows trans) (replicate ch 0))
                     (sp_rows trans, ch)).
  { split; [apply length_replicate|].
    apply Forall_replicate, length_replicate. }
  assert (Hgw : Forall (fun p : nat * list R => length p.2 = ch)
                  (gather <$> sp_entries trans)).
  { apply Forall_fmap. eapply Forall_impl; [exact Hall|].
    intros e [_ He]. cbn. rewrite length_fmap.
    destruct Hx as [Hlen Hrows]. cbn [fst snd] in Hlen, Hrows.
    destruct (lookup_lt_is_Some_2 xb e.1.2) as [row Hrow]; [lia|].
    rewrite nth_lookup, Hrow. cbn.
    apply (proj1 (Forall_lookup _ _) Hrows _ _ Hrow). }
  rewrite (scatter_at _ _ _ _ _ r c Hzeros Hgw Hpool Hr Hc), at2_zeros.
  rewrite Rplus_0_l. f_equal. clear Hpool Hg Hgw.
  induction Hall as [|e es [_ He] _ IH]; [reflexivity|].
  rewrite fmap_cons, !filter_cons. cbn [gather fst snd] in *.
  destruct (decide (e.1.1 = r)); [|exact IH].
  rewrite !fmap_cons, IH. f_equal. unfold at2.
  destruct Hx as [Hlen Hrows]. cbn [fst snd] in Hlen, Hrows.
  destruct (lookup_lt_is_Some_2 xb e.1.2) as [row Hrow]; [lia|].
  pose proof (proj1 (Forall_lookup _ _) Hrows _ _ Hrow) as Hlrow.
  cbn beta in Hlrow. unfold gather. cbn [snd].
  rewrite !(nth_lookup xb), Hrow. cbn [default from_option Datatypes.id].
  destruct (lookup_lt_is_Some_2 row c) as [v Hv]; [lia|].
  rewrite !nth_lookup, list_lookup_fmap, Hv. cbn. lra.
Qed.

Lemma Pool_rows_product (trans : sparse) (x : tensor3) (n ch : nat) :
  Forall (fun xb => has_shape2 xb (n, ch)) x -> (0 < n)%nat ->
  Forall (fun e : nat * nat * R => (e.1.1 < sp_rows trans /\ e.1.2 < n)%nat)
    (sp_entries trans) ->
  exists y,
    mapM (pool_one trans) x = Ok y
    /\ Forall2 (fun xb yb =>
         has_shape2 yb (sp_rows trans, ch)
         /\ forall r c, (r < sp_rows trans)%nat -> (c < ch)%nat ->
              at2 yb r c
              = sum_list
                  ((fun e : nat * nat * R => e.2 * at2 xb e.1.2 c)
                     <$> filter (fun e : nat * nat * R => e.1.1 = r)
                           (sp_entries trans))) x y.
Proof.
  intros Hx Hn Hall. induction Hx as [|xb x Hxb _ IH].
  - exists []. split; [reflexivity|constructor].
  - destruct (pool_one_product trans xb n ch Hxb Hn Hall)
      as (yb & Hyb & Hshape & Hval).
    destruct IH as (y & Hy & Hrel).
    exists (yb :: y). cbn [mapM]. rewrite Hyb, Hy.
    split; [reflexivity|]. constructor; [split; assumption|exact Hrel].
Qed.

(** C7. Pooling is linear in the signal: for signals [x] and [y] of one
    batch size and one vertex count, [Pool (a*x + b*y) op] is
    [a * Pool x op + b * Pool y op]; the three calls return together,
    or raise the same exception together (an operator whose column or
    row indices do not fit the signal). And [Pool] adds
    [weight * signal[column]] into [output[row]] for every stored
    entry: on a non-empty batch of signals over [n] vertices, with every
    entry inside [op.size(0)] rows and [n] columns, it returns a signal
    over [op.size(0)] vertices whose entry [(r, c)] is the sum, over the
    entries of row [r], repeated ones included, of weight times the
    input at the entry's column. *)
Theorem Pool_is_linear (trans : sparse) (a b : R) (x y : tensor3) :
  Forall2 (fun s t => length s = length t) x y ->
  Tensor.Pool (lincomb a b x y) trans
  = (px ← Tensor.Pool x trans; py ← Tensor.Pool y trans;
     Ok (lincomb a b px py))
  /\ forall bs n ch : nat,
       has_shape3 x (bs, n, ch) -> (0 < bs)%nat -> (0 < n)%nat ->
       Forall (fun e : nat * nat * R =>
                 (e.1.1 < sp_rows trans /\ e.1.2 < n)%nat)
         (sp_entries trans) ->
       exists out,
         Tensor.Pool x trans = Ok out
         /\ has_shape3 out (bs, sp_rows trans, ch)
         /\ forall i r c,
              (i < bs)%nat -> (r < sp_rows trans)%nat -> (c < ch)%nat ->
              entry out i r c
              = sum_list
                  ((fun e : nat * nat * R => e.2 * entry x i e.1.2 c)
                     <$> filter (fun e : nat * nat * R => e.1.1 = r)
                           (sp_entries trans)).
Proof.
  intros Hxy. split; [apply Pool_lincomb, Hxy|].
  intros bs n ch [Hlen Hx] Hbs Hn Hall. cbn [fst snd] in Hlen, Hx.
  unfold Tensor.Pool.
  destruct (Pool_rows_product trans x n ch Hx Hn Hall) as (out & Hout & Hrel).
  exists out. split; [exact Hout|].
  pose proof (Forall2_length _ _ _ Hrel) as Hlo.
  split.
  - split; [cbn; lia|]. cbn [fst snd].
    apply Forall_lookup. intros i yb Hyb.
    destruct (Forall2_lookup_r _ _ _ _ _ Hrel Hyb) as (xb & _ & Hs & _).
    exact Hs.
  - intros i r c Hi Hr Hc.
    destruct (lookup_lt_is_Some_2 x i) as [xb Hxb]; [lia|].
    destruct (Forall2_lookup_l _ _ _ _ _ Hrel Hxb) as (yb & Hyb & _ & Hval).
    unfold entry.
    rewrite (nth_lookup out), Hyb, (nth_lookup x), Hxb.
    cbn [default from_option Datatypes.id]. apply (Hval r c Hr Hc).
Qed.

(** The theorem at a batch of one signal of two vertices and two
    channels, pooled onto one vertex. *)
Lemma Pool_is_linear_witness :
  Tensor.Pool
    (lincomb 2 3 [[[1; 2]; [3; 4]]] [[[5; 6]; [7; 8]]])
    {| sp_rows := 1; sp_cols := 2;
       sp_entries := [(0%nat, 0%nat, 5); (0%nat, 1%nat, 7)] |}
  = (px ← Tensor.Pool [[[1; 2]; [3; 4]]]
            {| sp_rows := 1; sp_cols := 2;
               sp_entries := [(0%nat, 0%nat, 5); (0%nat, 1%nat, 7)] |};
     py ← Tensor.Pool [[[5; 6]; [7; 8]]]
            {| sp_rows := 1; sp_cols := 2;
               sp_entries := [(0%nat, 0%nat, 5); (0%nat, 1%nat, 7)] |};
     Ok (lincomb 2 3 px py))
  /\ exists out,
       Tensor.Pool [[[1; 2]; [3; 4]]]
         {| sp_rows := 1; sp_cols := 2;
            sp_entries := [(0%nat, 0%nat, 5); (0%nat, 1%nat, 7)] |}
       = Ok out
       /\ has_shape3 out (1, 1, 2)%nat.
Proof.
  destruct (Pool_is_linear
              {| sp_rows := 1; sp_cols := 2;
                 sp_entries := [(0%nat, 0%nat, 5); (0%nat, 1%nat, 7)] |}
              2 3 [[[1; 2]; [3; 4]]] [[[5; 6]; [7; 8]]])
    as [Hlin Hsum].
  - repeat constructor.
  - split; [exact Hlin|].
    destruct (Hsum 1%nat 2%nat 2%nat) as (out & Hout & Hshape & _).
    + repeat constructor.
    + lia.
    + lia.
    + repeat constructor; cbn; lia.
    + exists out. split; assumption.
Defined.

(** X13. With every entry of the transform inside
    [trans.size(0)] rows and the [n] vertices of the signal, [Pool]
    returns, for each element of the batch, the product of the sparse
    matrix with that element: entry [(r, c)] is the sum over the entries
    of row [r] of value times the signal at the entry's column; repeated
    entries add up, rows without entry are zero. *)
Theorem Pool_is_matrix_product (trans : sparse) (x : tensor3)
    (bs n ch : nat) :
  has_shape3 x (bs, n, ch) -> (0 < bs)%nat -> (0 < n)%nat ->
  Forall (fun e : nat * nat * R => (e.1.1 < sp_rows trans /\ e.1.2 < n)%nat)
    (sp_entries trans) ->
  exists y,
    Tensor.Pool x trans = Ok y
    /\ has_shape3 y (bs, sp_rows trans, ch)
    /\ forall b r c,
         (b < bs)%nat -> (r < sp_rows trans)%nat -> (c < ch)%nat ->
         entry y b r c = product_entry trans x b r c.
Proof.
  intros [Hlen Hx] Hbs Hn Hall. cbn [fst snd] in Hlen, Hx.
  unfold Tensor.Pool.
  destruct (Pool_rows_product trans x n ch Hx Hn Hall) as (y & Hy & Hrel).
  exists y. split; [exact Hy|].
  pose proof (Forall2_length _ _ _ Hrel) as Hly.
  split.
  - split; [cbn; lia|]. cbn [fst snd].
    apply Forall_lookup. intros b yb Hyb.
    destruct (Forall2_lookup_r _ _ _ _ _ Hrel Hyb) as (xb & _ & Hs & _).
    exact Hs.
  - intros b r c Hb Hr Hc.
    destruct (lookup_lt_is_Some_2 x b) as [xb Hxb]; [lia|].
    destruct (Forall2_lookup_l _ _ _ _ _ Hrel Hxb) as (yb & Hyb & _ & Hval).
    unfold entry, product_entry, entry.
    rewrite (nth_lookup y), Hyb, (nth_lookup x), Hxb.
    cbn [default from_option Datatypes.id]. apply (Hval r c Hr Hc).
Qed.

(** Two vertices summed onto one, the first counted twice. *)
Lemma Pool_is_matrix_product_witness :
  exists y,
    Tensor.Pool [[[1; 2]; [3; 4]]]
      {| sp_rows := 1%nat; sp_cols := 2%nat;
         sp_entries := [(0%nat, 0%nat, 1); (0%nat, 1%nat, 1);
                        (0%nat, 0%nat, 1)] |}
    = Ok y
    /\ has_shape3 y (1, 1, 2)%nat
    /\ forall b r c, (b < 1)%nat -> (r < 1)%nat -> (c < 2)%nat ->
         entry y b r c
         = product_entry
             {| sp_rows := 1%nat; sp_cols := 2%nat;
                sp_entries := [(0%nat, 0%nat, 1); (0%nat, 1%nat, 1);
                        (0%nat, 0%nat, 1)] |}
             [[[1; 2]; [3; 4]]] b r c.
Proof.
  apply (Pool_is_matrix_product
           {| sp_rows := 1%nat; sp_cols := 2%nat;
              sp_entries := [(0%nat, 0%nat, 1); (0%nat, 1%nat, 1);
                             (0%nat, 0%nat, 1)] |}
           [[[1; 2]; [3; 4]]] 1 2 2).
  - repeat constructor.
  - lia.
  - lia.
  - repeat constructor; cbn; lia.
Defined.

End PoolProduct.

(** ** The last checkpoint *)

Section StringOrder.

Lemma ascii_compare_trans (a b c : Ascii.ascii) :
  Ascii.compare a b = Lt -> Ascii.compare b c = Lt -> Ascii.compare a c = Lt.
Proof.
  unfold Ascii.compare. rewrite !N.compare_lt_iff. apply N.lt_trans.
Qed.

Lemma string_compare_refl (s : String.string) : String.compare s s = Eq.
Proof.
  induction s as [|a s IH]; cbn; [reflexivity|].
  unfold Ascii.compare. rewrite N.compare_refl. exact IH.
Qed.

Lemma string_lt_trans (s1 s2 s3 : String.string) :
  String.compare s1 s2 = Lt -> String.compare s2 s3 = Lt ->
  String.compare s1 s3 = Lt.
Proof.
  revert s2 s3. induction s1 as [|a s1 IH]; intros [|b s2] [|c s3];
    cbn; try discriminate; try reflexivity.
  destruct (Ascii.compare a b) eqn:Hab; try discriminate.
  - apply Ascii.compare_eq_iff in Hab. subst b.
    destruct (Ascii.compare a c); try discriminate; [apply IH | reflexivity].
  - intros _. destruct (Ascii.compare b c) eqn:Hbc; try discriminate.
    + apply Ascii.compare_eq_iff in Hbc. subst c. rewrite Hab. reflexivity.
    + rewrite (ascii_compare_trans a b c Hab Hbc). reflexivity.
Qed.

Lemma string_leb_trans (s1 s2 s3 : String.string) :
  String.leb s1 s2 = true -> String.leb s2 s3 = true ->
  String.leb s1 s3 = true.
Proof.
  unfold String.leb.
  destruct (String.compare s1 s2) eqn:H12; try discriminate;
    destruct (String.compare s2 s3) eqn:H23; try discriminate; intros _ _.
  - apply String.compare_eq_iff in H12, H23. subst.
    rewrite string_compare_refl. reflexivity.
  - apply String.compare_eq_iff in H12. subst. rewrite H23. reflexivity.
  - apply String.compare_eq_iff in H23. subst. rewrite H12. reflexivity.
  - rewrite (string_lt_trans s1 s2 s3 H12 H23). reflexivity.
Qed.

End StringOrder.

Section Sorting.
Import Utils.
Context {X : Type} (leb : X -> X -> bool).
Hypothesis leb_total : forall x y, leb x y = true \/ leb y x = true.
Hypothesis leb_trans :
  forall x y z, leb x y = true -> leb y z = true -> leb x z = true.

Lemma elem_of_insert_by (x y : X) (xs : list X) :
  x ∈ insert_by leb y xs <-> x = y \/ x ∈ xs.
Proof.
  induction xs as [|z xs IH]; cbn.
  - rewrite list_elem_of_singleton, elem_of_nil. tauto.
  - destruct (leb y z); rewrite !elem_of_cons; [tauto|].
    rewrite IH. tauto.
Qed.

Lemma elem_of_sort_by (x : X) (xs : list X) : x ∈ sort_by leb xs <-> x ∈ xs.
Proof.
  unfold sort_by. induction xs as [|y xs IH]; cbn; [reflexivity|].
  rewrite elem_of_insert_by, IH, elem_of_cons. reflexivity.
Qed.

Lemma insert_by_sorted (y : X) (xs : list X) :
  StronglySorted (fun a b => leb a b = true) xs ->
  StronglySorted (fun a b => leb a b = true) (insert_by leb y xs).
Proof.
  induction 1 as [|z xs Hs IH Hz]; cbn.
  - constructor; constructor.
  - destruct (leb y z) eqn:E.
    + constructor; [constructor; assumption|].
      constructor; [exact E|]. eapply Forall_impl; [exact Hz|].
      intros w Hw. apply (leb_trans y z w E Hw).
    + constructor; [exact IH|]. apply Forall_forall. intros w Hw.
      apply elem_of_insert_by in Hw as [->|Hw].
      * destruct (leb_total y z) as [H|H]; [congruence|exact H].
      * apply (proj1 (Forall_forall _ _) Hz w Hw).
Qed.

Lemma sort_by_sorted (xs : list X) :
  StronglySorted (fun a b => leb a b = true) (sort_by leb xs).
Proof.
  unfold sort_by. induction xs as [|y xs IH]; cbn; [constructor|].
  apply insert_by_sorted, IH.
Qed.

Lemma sorted_last (init : list X) (p : X) :
  StronglySorted (fun a b => leb a b = true) (init ++ [p]) ->
  Forall (fun q => leb q p = true) init.
Proof.
  induction init as [|x init IH]; cbn; intros Hs; [constructor|].
  inversion Hs as [|? ? Hs' Hall]; subst. constructor; [|apply IH, Hs'].
  apply (proj1 (Forall_forall _ _) Hall). apply elem_of_app. right.
  apply list_elem_of_singleton. reflexivity.
Qed.

(** The last element of the sorted list is one of the elements, and no
    element is above it. *)
Lemma sort_by_last (xs : list X) :
  xs <> [] ->
  exists p,
    getitem_int (sort_by leb xs) (-1) = Ok p
    /\ p ∈ xs /\ forall q, q ∈ xs -> leb q p = true.
Proof.
  intros Hne.
  destruct (exists_last (l := sort_by leb xs)) as (init & p & Hs).
  { intros E. destruct xs as [|x xs]; [congruence|].
    assert (Hx : x ∈ sort_by leb (x :: xs))
      by (apply elem_of_sort_by, elem_of_cons; auto).
    rewrite E in Hx. apply elem_of_nil in Hx. exact Hx. }
  exists p. rewrite Hs. split; [apply getitem_int_last|].
  assert (Hp : p ∈ xs).
  { apply elem_of_sort_by. rewrite Hs. apply elem_of_app. right.
    apply list_elem_of_singleton. reflexivity. }
  split; [exact Hp|]. intros q Hq.
  apply elem_of_sort_by in Hq. rewrite Hs in Hq.
  pose proof (sort_by_sorted xs) as Hsorted. rewrite Hs in Hsorted.
  apply elem_of_app in Hq as [Hq|Hq].
  - apply (proj1 (Forall_forall _ _) (sorted_last init p Hsorted) q Hq).
  - apply list_elem_of_singleton in Hq. subst q.
    destruct (leb_total p p); assumption.
Qed.

End Sorting.

Section GetModelList.
Import Utils.

Variables (fs : os) (dirname key : str) (listing : list str).
Hypothesis Hexists : os_path_exists fs dirname = true.
Hypothesis Hlisting : os_listdir fs dirname = Ok listing.

(** X14. In a directory that exists and can be
    listed, with at least one regular file whose name contains [key] and
    ['.pt'], the function returns the path of such a file, the one that
    is last in the order of strings: no collected path is above it. *)
Theorem get_model_list_last :
  gen_models fs dirname key listing <> [] ->
  exists p,
    get_model_list fs dirname key = Ok (Some p)
    /\ p ∈ gen_models fs dirname key listing
    /\ forall q, q ∈ gen_models fs dirname key listing ->
         String.leb q p = true.
Proof.
  intros Hne. unfold get_model_list. rewrite Hexists, Hlisting.
  cbn [negb mbind result_bind].
  destruct (sort_by_last String.leb String.leb_total string_leb_trans
              (gen_models fs dirname key listing) Hne) as (p & Hp & Hin & Hmax).
  exists p. rewrite Hp. split; [reflexivity|]. split; assumption.
Qed.

(** X15. In a directory that exists and can be
    listed but holds no regular file whose name contains [key] and
    ['.pt'], the function does not return [None]: the list it built is
    empty, never [None], and taking its last element raises
    [IndexError]. *)
Theorem get_model_list_no_match :
  gen_models fs dirname key listing = [] ->
  get_model_list fs dirname key = Raise IndexError.
Proof.
  intros Hnone. unfold get_model_list. rewrite Hexists, Hlisting.
  cbn [negb mbind result_bind]. rewrite Hnone. reflexivity.
Qed.

End GetModelList.

(** The directory of three checkpoints: the one numbered 10 is last. *)
Lemma get_model_list_last_witness :
  exists p,
    Utils.get_model_list Checkpoints.disk Checkpoints.dir
      Checkpoints.model_key
    = Ok (Some p)
    /\ p ∈ Utils.gen_models Checkpoints.disk Checkpoints.dir
             Checkpoints.model_key Checkpoints.names
    /\ forall q,
         q ∈ Utils.gen_models Checkpoints.disk Checkpoints.dir
               Checkpoints.model_key Checkpoints.names ->
         String.leb q p = true.
Proof.
  apply (get_model_list_last Checkpoints.disk Checkpoints.dir
           Checkpoints.model_key Checkpoints.names eq_refl eq_refl).
  vm_compute. discriminate.
Defined.

(** No file of that directory has [optimizer] in its name. *)
Lemma get_model_list_no_match_witness :
  Utils.get_model_list Checkpoints.disk Checkpoints.dir Checkpoints.other_key
  = Raise IndexError.
Proof.
  apply (get_model_list_no_match Checkpoints.disk Checkpoints.dir
           Checkpoints.other_key Checkpoints.names eq_refl eq_refl).
  reflexivity.
Defined.

(** ** The batched sparse product *)

Section Chunks.
Context {A : Type}.

Lemma length_concat_uniform (c : nat) (ls : list (list A)) :
  Forall (fun l => length l = c) ls -> length (concat ls) = length ls * c.
Proof.
  induction 1 as [|l ls Hl _ IH]; [reflexivity|].
  cbn [concat length]. rewrite length_app, IH, Hl. lia.
Qed.

Lemma lookup_concat_uniform (c : nat) (ls : list (list A)) (i q : nat) :
  Forall (fun l => length l = c) ls -> q < c ->
  concat ls !! (i * c + q) = ls !! i ≫= (fun l => l !! q).
Proof.
  intros Hls Hq. revert i. induction Hls as [|l ls Hl _ IH]; intros i.
  - cbn. rewrite !lookup_nil. reflexivity.
  - cbn [concat]. destruct i as [|i].
    + cbn. apply lookup_app_l. lia.
    + rewrite lookup_app_r by (rewrite Hl; lia).
      replace (S i * c + q - length l) with (i * c + q) by (rewrite Hl; lia).
      cbn [lookup list_lookup]. apply IH.
Qed.

Lemma lookup_chunk (l : list A) (s c q : nat) :
  q < c -> take c (drop s l) !! q = l !! (s + q).
Proof. intros Hq. rewrite lookup_take_lt by exact Hq. apply lookup_drop. Qed.

Lemma length_chunk (l : list A) (s c : nat) :
  s + c <= length l -> length (take c (drop s l)) = c.
Proof. intros H. rewrite length_take, length_drop. lia. Qed.

End Chunks.

Section BatchedProduct.
Import Tensor Shapes Spec TensorUtils.
#[local] Open Scope R_scope.

Lemma tensor2_ext (a b : tensor2) (m k : nat) :
  has_shape2 a (m, k) -> has_shape2 b (m, k) ->
  (forall r c, (r < m)%nat -> (c < k)%nat -> at2 a r c = at2 b r c) ->
  a = b.
Proof.
  intros [Hla Ha] [Hlb Hb] Heq. cbn [fst snd] in *.
  apply (nth_ext a b [] []); [lia|]. intros r Hr.
  assert (Hra : length (nth r a []) = k).
  { destruct (lookup_lt_is_Some_2 a r) as [row Hrow]; [lia|].
    rewrite nth_lookup, Hrow. cbn.
    apply (proj1 (Forall_lookup _ _) Ha _ _ Hrow). }
  assert (Hrb : length (nth r b []) = k).
  { destruct (lookup_lt_is_Some_2 b r) as [row Hrow]; [lia|].
    rewrite nth_lookup, Hrow. cbn.
    apply (proj1 (Forall_lookup _ _) Hb _ _ Hrow). }
  apply (nth_ext _ _ 0 0); [lia|]. intros c Hc.
  apply Heq; lia.
Qed.

Lemma tensor3_ext (a b : tensor3) (bs m k : nat) :
  has_shape3 a (bs, m, k) -> has_shape3 b (bs, m, k) ->
  (forall i r c, (i < bs)%nat -> (r < m)%nat -> (c < k)%nat ->
     entry a i r c = entry b i r c) ->
  a = b.
Proof.
  intros [Hla Ha] [Hlb Hb] Heq. cbn [fst snd] in *.
  apply (nth_ext a b [] []); [lia|]. intros i Hi.
  destruct (lookup_lt_is_Some_2 a i) as [ai Hai]; [lia|].
  destruct (lookup_lt_is_Some_2 b i) as [bi Hbi]; [lia|].
  pose proof (proj1 (Forall_lookup _ _) Ha _ _ Hai) as Hsa.
  pose proof (proj1 (Forall_lookup _ _) Hb _ _ Hbi) as Hsb.
  cbn beta in Hsa, Hsb.
  apply (tensor2_ext _ _ m k).
  - rewrite nth_lookup, Hai. exact Hsa.
  - rewrite nth_lookup, Hbi. exact Hsb.
  - intros r c Hr Hc. apply (Heq i r c); lia.
Qed.

Lemma width_fmap_seq (f : nat -> list R) (m : nat) :
  (0 < m)%nat -> width (f <$> seq 0 m) = length (f 0%nat).
Proof. destruct m as [|m']; [lia|]. reflexivity. Qed.

Lemma hd_fmap_seq {B} (f : nat -> B) (d : B) (m : nat) :
  (0 < m)%nat -> hd d (f <$> seq 0 m) = f 0%nat.
Proof. destruct m as [|m']; [lia|]. reflexivity. Qed.

Variable trans : sparse.
Variable x : tensor3.
Variables bs n k : nat.
Hypothesis Hshape : has_shape3 x (bs, n, k).
Hypothesis Hbs : (0 < bs)%nat.
Hypothesis Hn : (0 < n)%nat.

Lemma transpose01_unfold :
  transpose01 x
  = (fun j => (fun xi : tensor2 => nth j xi []) <$> x) <$> seq 0 n.
Proof.
  unfold transpose01. destruct Hshape as [Hlen Hx]. cbn [fst snd] in *.
  destruct x as [|x0 xs]; [cbn in Hlen; lia|].
  inversion Hx as [|? ? [Hx0 _] _]; subst. cbn [hd]. cbn in Hx0.
  rewrite Hx0. reflexivity.
Qed.

Lemma transposed_rows :
  Forall (fun l : tensor2 => length l = bs) (transpose01 x).
Proof.
  rewrite transpose01_unfold. apply Forall_fmap, Forall_forall.
  intros j _. cbn. rewrite length_fmap. apply Hshape.
Qed.

Lemma transposed_cells :
  Forall (fun l : list R => length l = k) (concat (transpose01 x)).
Proof.
  apply Forall_concat. rewrite transpose01_unfold.
  apply Forall_fmap, Forall_forall. intros j Hj%elem_of_seq. cbn.
  apply Forall_fmap. destruct Hshape as [_ Hx]. cbn [fst snd] in Hx.
  eapply Forall_impl; [exact Hx|]. intros xi [Hlen Hrows]. cbn.
  cbn [fst snd] in *.
  destruct (lookup_lt_is_Some_2 xi j) as [row Hrow]; [lia|].
  rewrite nth_lookup, Hrow. cbn.
  apply (proj1 (Forall_lookup _ _) Hrows _ _ Hrow).
Qed.

Lemma flat_length :
  length (flatten3 (transpose01 x)) = (bs * k * n)%nat.
Proof.
  unfold flatten3.
  rewrite (length_concat_uniform k _ transposed_cells).
  rewrite (length_concat_uniform bs _ transposed_rows).
  rewrite transpose01_unfold, length_fmap, length_seq. lia.
Qed.

Lemma flat_lookup (i j c : nat) :
  (i < bs)%nat -> (j < n)%nat -> (c < k)%nat ->
  flatten3 (transpose01 x) !! (j * (bs * k) + (i * k + c))%nat
  = Some (entry x i j c).
Proof.
  intros Hi Hj Hc. unfold flatten3.
  replace (j * (bs * k) + (i * k + c))%nat
    with ((j * bs + i) * k + c)%nat by lia.
  rewrite (lookup_concat_uniform k _ _ _ transposed_cells Hc).
  rewrite (lookup_concat_uniform bs _ _ _ transposed_rows Hi).
  rewrite transpose01_unfold, list_lookup_fmap.
  rewrite lookup_seq_lt by exact Hj. cbn.
  rewrite list_lookup_fmap.
  destruct Hshape as [Hlen Hx]. cbn [fst snd] in *.
  destruct (lookup_lt_is_Some_2 x i) as [xi Hxi]; [lia|].
  rewrite Hxi. cbn.
  destruct (proj1 (Forall_lookup _ _) Hx _ _ Hxi) as [Hlxi Hrows].
  cbn [fst snd] in *.
  destruct (lookup_lt_is_Some_2 xi j) as [row Hrow]; [lia|].
  pose proof (proj1 (Forall_lookup _ _) Hrows _ _ Hrow) as Hlrow.
  cbn beta in Hlrow.
  destruct (lookup_lt_is_Some_2 row c) as [v Hv]; [lia|].
  unfold entry.
  rewrite (nth_lookup x), Hxi. cbn [default from_option Datatypes.id].
  rewrite (nth_lookup xi), Hrow. cbn [default from_option Datatypes.id].
  rewrite Hv, nth_lookup, Hv. reflexivity.
Qed.

Let stacked : tensor2 :=
  (fun j => take (bs * k) (drop (j * (bs * k)) (flatten3 (transpose01 x))))
    <$> seq 0 n.

Lemma reshape2_stacked :
  reshape2 (flatten3 (transpose01 x)) n = Ok stacked.
Proof.
  unfold reshape2. rewrite flat_length, view_infer_exact by exact Hn.
  reflexivity.
Qed.

Lemma stacked_length : length stacked = n.
Proof. unfold stacked. rewrite length_fmap, length_seq. reflexivity. Qed.

Lemma stacked_width : width stacked = (bs * k)%nat.
Proof.
  unfold stacked. rewrite width_fmap_seq by exact Hn.
  apply length_chunk. rewrite flat_length. nia.
Qed.

Lemma stacked_at (i j c : nat) :
  (i < bs)%nat -> (j < n)%nat -> (c < k)%nat ->
  at2 stacked j (i * k + c) = entry x i j c.
Proof.
  intros Hi Hj Hc. unfold at2, stacked.
  rewrite (nth_lookup _ j), list_lookup_fmap, lookup_seq_lt by exact Hj.
  cbn [fmap option_fmap option_map default from_option Datatypes.id plus].
  rewrite nth_lookup, lookup_chunk by nia.
  rewrite (flat_lookup i j c Hi Hj Hc). reflexivity.
Qed.

Hypothesis Hcols : sp_cols trans = n.

(** X17. For a sparse matrix without rows and without
    entries, over the [n] vertices of a non-empty batch, [batch_mm]
    raises [RuntimeError] (the last axis of its second [reshape] cannot
    be inferred), while [Pool] returns an empty signal for every element
    of the batch. *)
Theorem batch_mm_no_rows :
  sp_rows trans = 0%nat -> sp_entries trans = [] ->
  batch_mm trans x = Raise RuntimeError
  /\ Tensor.Pool x trans = Ok ((fun _ => []) <$> x).
Proof.
  intros Hrows Hentries. split.
  - unfold batch_mm. cbn zeta. rewrite Hcols, reshape2_stacked.
    cbn [mbind result_bind]. unfold mm.
    rewrite stacked_length, Hcols, Nat.eqb_refl, Hentries, Hrows.
    cbn [negb forallb mbind result_bind seq fmap list_fmap]. reflexivity.
  - unfold Tensor.Pool. apply mapM_ok_fmap, Forall_forall. intros xb _.
    unfold pool_one. rewrite Hentries, Hrows. reflexivity.
Qed.

Hypothesis Hrows : (0 < sp_rows trans)%nat.
Hypothesis Hentries :
  Forall (fun e : nat * nat * R => (e.1.1 < sp_rows trans /\ e.1.2 < n)%nat)
    (sp_entries trans).

Let cell (r c : nat) : R :=
  sum_list ((fun e : nat * nat * R => e.2 * at2 stacked e.1.2 c)
              <$> filter (fun e : nat * nat * R => e.1.1 = r)
                    (sp_entries trans)).

Let product : tensor2 :=
  (fun r => (fun c => cell r c) <$> seq 0 (bs * k)) <$> seq 0 (sp_rows trans).

Lemma mm_stacked : mm trans stacked = Ok product.
Proof.
  unfold mm. rewrite stacked_length, Hcols, Nat.eqb_refl. cbn [negb].
  assert (Hall : forallb (fun e : nat * nat * R =>
                            (e.1.1 <? sp_rows trans)%nat && (e.1.2 <? n)%nat)
                   (sp_entries trans) = true).
  { apply forallb_forall. intros e He. apply list_elem_of_In in He.
    destruct (proj1 (Forall_forall _ _) Hentries e He) as [H1 H2].
    apply andb_true_intro. split; apply Nat.ltb_lt; assumption. }
  rewrite Hall. cbn [negb]. rewrite stacked_width. reflexivity.
Qed.

Lemma product_rows :
  Forall (fun l : list R => length l = (bs * k)%nat) product.
Proof.
  unfold product. apply Forall_fmap, Forall_forall. intros r _. cbn.
  rewrite length_fmap, length_seq. reflexivity.
Qed.

Lemma product_length :
  length (flatten2 product) = (k * (sp_rows trans * bs))%nat.
Proof.
  unfold flatten2. rewrite (length_concat_uniform _ _ product_rows).
  unfold product. rewrite length_fmap, length_seq. lia.
Qed.

Lemma product_lookup (i r c : nat) :
  (i < bs)%nat -> (r < sp_rows trans)%nat -> (c < k)%nat ->
  flatten2 product !! ((r * bs + i) * k + c)%nat = Some (cell r (i * k + c)).
Proof.
  intros Hi Hr Hc. unfold flatten2.
  replace ((r * bs + i) * k + c)%nat with (r * (bs * k) + (i * k + c))%nat
    by lia.
  rewrite (lookup_concat_uniform (bs * k) _ _ _ product_rows) by nia.
  unfold product. rewrite list_lookup_fmap, lookup_seq_lt by exact Hr.
  cbn [fmap option_fmap option_map mbind option_bind plus].
  rewrite list_lookup_fmap, lookup_seq_lt by nia. reflexivity.
Qed.

Let unstacked : tensor3 :=
  (fun r =>
     (fun i => take k (drop ((r * bs + i) * k) (flatten2 product)))
       <$> seq 0 bs)
    <$> seq 0 (sp_rows trans).

Lemma reshape3_product :
  reshape3 (flatten2 product) (sp_rows trans) bs = Ok unstacked.
Proof.
  unfold reshape3. rewrite product_length, view_infer_exact by nia.
  reflexivity.
Qed.

Lemma transpose01_unstacked :
  transpose01 unstacked
  = (fun i => (fun o : tensor2 => nth i o []) <$> unstacked) <$> seq 0 bs.
Proof.
  unfold transpose01. f_equal. unfold unstacked.
  rewrite hd_fmap_seq by exact Hrows.
  rewrite length_fmap, length_seq. reflexivity.
Qed.

Lemma unstacked_shape :
  has_shape3 (transpose01 unstacked) (bs, sp_rows trans, k).
Proof.
  rewrite transpose01_unstacked. split.
  - cbn. rewrite length_fmap, length_seq. reflexivity.
  - cbn [fst snd]. apply Forall_fmap, Forall_forall. intros i Hi%elem_of_seq.
    cbn. split.
    + cbn. unfold unstacked. rewrite !length_fmap, length_seq. reflexivity.
    + cbn [fst snd]. unfold unstacked. rewrite <- list_fmap_compose.
      apply Forall_fmap, Forall_forall. intros r Hr%elem_of_seq. cbn.
      rewrite nth_lookup, list_lookup_fmap, lookup_seq_lt by lia. cbn.
      apply length_chunk. rewrite product_length.
      assert (H1 : (S r * bs <= sp_rows trans * bs)%nat)
        by (apply Nat.mul_le_mono_r; lia).
      assert (H2 : ((r * bs + i + 1) * k <= sp_rows trans * bs * k)%nat)
        by (apply Nat.mul_le_mono_r; lia).
      lia.
Qed.

Lemma unstacked_entry (i r c : nat) :
  (i < bs)%nat -> (r < sp_rows trans)%nat -> (c < k)%nat ->
  entry (transpose01 unstacked) i r c = cell r (i * k + c).
Proof.
  intros Hi Hr Hc. rewrite transpose01_unstacked. unfold entry.
  rewrite (nth_lookup _ i), list_lookup_fmap, lookup_seq_lt by exact Hi.
  cbn [fmap option_fmap option_map default from_option Datatypes.id plus].
  rewrite (nth_lookup _ r), list_lookup_fmap. unfold unstacked.
  rewrite list_lookup_fmap, lookup_seq_lt by exact Hr.
  cbn [fmap option_fmap option_map default from_option Datatypes.id plus].
  rewrite (nth_lookup _ i), list_lookup_fmap, lookup_seq_lt by exact Hi.
  cbn [fmap option_fmap option_map default from_option Datatypes.id plus].
  rewrite nth_lookup, lookup_chunk by exact Hc.
  rewrite (product_lookup i r c Hi Hr Hc). reflexivity.
Qed.

(** X16. On a non-empty batch of signals over [n]
    vertices, [n] positive, and a sparse matrix of [n] columns and at
    least one row whose entries lie inside its shape, the product
    [batch_mm] computes by stacking the batch into columns is the tensor
    [Pool] computes by gathering and scattering. *)
Theorem batch_mm_is_Pool : batch_mm trans x = Tensor.Pool x trans.
Proof.
  unfold batch_mm. cbn zeta. rewrite Hcols, reshape2_stacked.
  cbn [mbind result_bind]. rewrite mm_stacked. cbn [mbind result_bind].
  replace (length x) with bs by (symmetry; apply Hshape).
  rewrite reshape3_product. cbn [mbind result_bind].
  destruct (Pool_rows_product trans x n k (proj2 Hshape) Hn Hentries)
    as (y & Hy & Hrel).
  unfold Tensor.Pool. rewrite Hy. f_equal.
  pose proof (Forall2_length _ _ _ Hrel) as Hly.
  destruct Hshape as [Hlen Hx]. cbn [fst snd] in Hlen, Hx.
  apply (tensor3_ext _ _ bs (sp_rows trans) k).
  - apply unstacked_shape.
  - split; [cbn; lia|]. cbn [fst snd].
    apply Forall_lookup. intros b yb Hyb.
    destruct (Forall2_lookup_r _ _ _ _ _ Hrel Hyb) as (xb & _ & Hs & _).
    exact Hs.
  - intros i r c Hi Hr Hc. rewrite (unstacked_entry i r c Hi Hr Hc).
    destruct (lookup_lt_is_Some_2 x i) as [xb Hxb]; [lia|].
    destruct (Forall2_lookup_l _ _ _ _ _ Hrel Hxb) as (yb & Hyb & _ & Hval).
    unfold entry. rewrite (nth_lookup y), Hyb.
    cbn [default from_option Datatypes.id].
    change (nth c (nth r yb []) 0) with (at2 yb r c).
    rewrite (Hval r c Hr Hc). unfold cell. f_equal.
    apply Forall_fmap_ext, Forall_forall. intros e He.
    apply list_elem_of_filter in He. destruct He as [_ He].
    destruct (proj1 (Forall_forall _ _) Hentries e He) as [_ He2].
    rewrite (stacked_at i e.1.2 c Hi He2 Hc). unfold entry, at2.
    rewrite (nth_lookup x), Hxb. reflexivity.
Qed.

End BatchedProduct.

(** Two signals over two vertices, the second vertex feeding both rows. *)
Lemma batch_mm_is_Pool_witness :
  TensorUtils.batch_mm
    {| Tensor.sp_rows := 2; Tensor.sp_cols := 2;
       Tensor.sp_entries := [(0, 0, 1%R); (1, 1, 2%R); (0, 1, 3%R)] |}
    [[[1; 2]; [3; 4]]; [[5; 6]; [7; 8]]]%R
  = Tensor.Pool [[[1; 2]; [3; 4]]; [[5; 6]; [7; 8]]]%R
      {| Tensor.sp_rows := 2; Tensor.sp_cols := 2;
         Tensor.sp_entries := [(0, 0, 1%R); (1, 1, 2%R); (0, 1, 3%R)] |}.
Proof.
  apply (batch_mm_is_Pool
           {| Tensor.sp_rows := 2; Tensor.sp_cols := 2;
              Tensor.sp_entries := [(0, 0, 1%R); (1, 1, 2%R); (0, 1, 3%R)] |}
           [[[1; 2]; [3; 4]]; [[5; 6]; [7; 8]]]%R 2 2 2).
  - repeat constructor.
  - lia.
  - lia.
  - reflexivity.
  - cbn. lia.
  - repeat constructor; cbn; lia.
Defined.

Lemma batch_mm_no_rows_witness :
  TensorUtils.batch_mm
    {| Tensor.sp_rows := 0; Tensor.sp_cols := 2; Tensor.sp_entries := [] |}
    [[[1; 2]; [3; 4]]]%R
  = Raise RuntimeError
  /\ Tensor.Pool [[[1; 2]; [3; 4]]]%R
       {| Tensor.sp_rows := 0; Tensor.sp_cols := 2; Tensor.sp_entries := [] |}
     = Ok [[]].
Proof.
  apply (batch_mm_no_rows
           {| Tensor.sp_rows := 0; Tensor.sp_cols := 2;
              Tensor.sp_entries := [] |}
           [[[1; 2]; [3; 4]]]%R 1 2 2).
  - repeat constructor.
  - lia.
  - lia.
  - reflexivity.
  - reflexivity.
  - reflexivity.
Defined.
